(** * The SQL generation pipeline of the incident chatbot

    A shallow embedding of [llm_sql_generator1.py]: the intent shortcuts
    ([fast_intent]), the cleaner ([clean_sql]), the safety validator
    ([valid_sql]), the repair engine ([repair_sql]) and the orchestrator
    ([generate_sql]) together with its [lru_cache] decorator.

    Text is modelled as lists of characters.  The character type is
    [ascii]; the case mappings, the whitespace class of [str.strip] and the
    classes [\s], [\w] and [\d] of the [re] module are those of Python on
    the ASCII range, and the codes 128..255 are caseless characters outside
    every class.  Python does more outside ASCII: [str.upper] and
    [re.IGNORECASE] take some characters for ASCII letters, and the classes
    have members there.  Statements that depend on it are made for ASCII
    text, and the module [Wide] has the pipeline on an alphabet with one
    such character, the long s. *)

From Stdlib Require Import List Ascii String Bool Arith NArith Lia.
From Stdlib Require Import DecimalString.
Import ListNotations.

(** ** Characters *)

Module Char.

Definition code (c : ascii) : N := N_of_ascii c.

Definition in_range (lo hi : N) (c : ascii) : bool :=
  (lo <=? code c)%N && (code c <=? hi)%N.

Definition is_upper (c : ascii) : bool := in_range 65 90 c.
Definition is_lower (c : ascii) : bool := in_range 97 122 c.
Definition is_digit (c : ascii) : bool := in_range 48 57 c.

(** [str.upper] and [str.lower], one character at a time. *)
Definition upper (c : ascii) : ascii :=
  if is_lower c then ascii_of_N (code c - 32) else c.
Definition lower (c : ascii) : ascii :=
  if is_upper c then ascii_of_N (code c + 32) else c.

(** The characters [str.strip] removes and [\s] matches: tab, line feed,
    vertical tab, form feed, carriage return, the four separators
    0x1c..0x1f and the space. *)
Definition is_space (c : ascii) : bool :=
  in_range 9 13 c || in_range 28 32 c.

(** [\w]: letters, digits and the underscore. *)
Definition is_word (c : ascii) : bool :=
  is_upper c || is_lower c || is_digit c || (code c =? 95)%N.

(** The character class of the status patterns: the single and the double
    quote. *)
Definition is_quote (c : ascii) : bool :=
  (code c =? 39)%N || (code c =? 34)%N.

End Char.

(** Case analysis over the 256 characters. *)
Ltac each_char c :=
  destruct c as [[] [] [] [] [] [] [] []]; vm_compute; try reflexivity;
  try discriminate; try tauto; try intuition congruence.

(** ** Strings *)

Definition str := list ascii.

Definition lit (s : string) : str := list_ascii_of_string s.

Definition upper_s (s : str) : str := map Char.upper s.
Definition lower_s (s : str) : str := map Char.lower s.

Fixpoint str_eqb (a b : str) : bool :=
  match a, b with
  | [], [] => true
  | x :: a', y :: b' => Ascii.eqb x y && str_eqb a' b'
  | _, _ => false
  end.

(** [s.startswith(p)] *)
Fixpoint startswith (p s : str) : bool :=
  match p, s with
  | [], _ => true
  | x :: p', y :: s' => Ascii.eqb x y && startswith p' s'
  | _ :: _, [] => false
  end.

(** [t in s] *)
Fixpoint contains (t s : str) : bool :=
  startswith t s ||
  match s with
  | [] => false
  | _ :: s' => contains t s'
  end.

(** [s.endswith(p)] *)
Definition endswith (p s : str) : bool := startswith (rev p) (rev s).

Fixpoint drop_while (p : ascii -> bool) (s : str) : str :=
  match s with
  | [] => []
  | c :: s' => if p c then drop_while p s' else s
  end.

(** The same from the right end. *)
Definition rdrop_while (p : ascii -> bool) (s : str) : str :=
  rev (drop_while p (rev s)).

Definition lstrip (s : str) : str := drop_while Char.is_space s.
Definition rstrip (s : str) : str := rdrop_while Char.is_space s.
(** [s.strip()] *)
Definition strip (s : str) : str := rstrip (lstrip s).

(** [s.rstrip(";")] *)
Definition rstrip_semi (s : str) : str :=
  rdrop_while (Ascii.eqb ";"%char) s.

(** Length of the longest prefix made of characters of a class: the text a
    greedy [c+] consumes. *)
Fixpoint span (p : ascii -> bool) (s : str) : nat :=
  match s with
  | [] => 0
  | c :: s' => if p c then S (span p s') else 0
  end.

(** A pattern literal under [re.IGNORECASE] at the head of the text. *)
Definition startswith_ci (p s : str) : bool :=
  startswith (lower_s p) (lower_s s).

(** ** Substitution and search

    [re.sub] scans the text from the left; where the pattern matches it emits
    the replacement and resumes after the match, elsewhere it copies one
    character.  A matcher gives the length of the match that starts at the
    head of the text.  Every pattern of the program matches at least three
    characters, so the empty match has no case of its own here. *)

Definition matcher := str -> option nat.

Fixpoint re_sub_go (m : matcher) (r : str) (skip : nat) (s : str) : str :=
  match s with
  | [] => []
  | c :: s' =>
      match skip with
      | S k => re_sub_go m r k s'
      | 0 =>
          match m s with
          | Some (S n) => r ++ re_sub_go m r n s'
          | _ => c :: re_sub_go m r 0 s'
          end
      end
  end.

Definition re_sub (m : matcher) (r : str) (s : str) : str :=
  re_sub_go m r 0 s.

(** ** Configuration *)

Definition TABLE_NAME : str := lit "ticketdetails".

Definition STATUS_MAP : list (str * str) :=
  [ (lit "new incident", lit "New");
    (lit "new case", lit "New");
    (lit "pending", lit "New");
    (lit "open", lit "New");
    (lit "in progress", lit "In Progress");
    (lit "assign to group", lit "Assign to Group") ].

(** ** Safety validator *)

Definition forbidden : list str :=
  map lit ["UPDATE"; "DELETE"; "INSERT"; "DROP"; "ALTER"; "TRUNCATE"; "--"]%string.

(** [any(x in s for x in xs)] *)
Definition any_in (xs : list str) (s : str) : bool :=
  existsb (fun x => contains x s) xs.

Definition valid_sql (sql : str) : bool :=
  match sql with
  | [] => false
  | _ =>
      let s := strip (upper_s sql) in
      if negb (startswith (lit "SELECT") s) then false
      else if any_in forbidden s then false
      else true
  end.

(** ** Intent shortcuts *)

(** The pattern [inc[\-\s]?(\d+)] at the head of the text; the result is
    group 1.  The optional character is taken when present: giving it back
    would leave the digits to start on a character that is no digit. *)
Definition match_inc (s : str) : option str :=
  if startswith (lit "inc") s then
    let s1 := skipn 3 s in
    let s2 :=
      match s1 with
      | c :: s1' =>
          if Ascii.eqb c "-"%char || Char.is_space c then s1' else s1
      | [] => s1
      end in
    let n := span Char.is_digit s2 in
    if 0 <? n then Some (firstn n s2) else None
  else None.

(** [re.search] for the incident pattern: the leftmost match. *)
Fixpoint search_inc (s : str) : option str :=
  match match_inc s with
  | Some g => Some g
  | None =>
      match s with
      | [] => None
      | _ :: s' => search_inc s'
      end
  end.

Definition sql_pending : str :=
  lit "SELECT COUNT(*) AS total_pending FROM " ++ TABLE_NAME ++
  lit " WHERE TicketStatus='Pending';".

Definition sql_open : str :=
  lit "SELECT IncidentID, TicketStatus, AssignPerson FROM " ++ TABLE_NAME ++
  lit " WHERE TicketStatus IN ('Open','In Progress','Assign to Group') ORDER BY id DESC LIMIT 50;".

Definition sql_latest : str :=
  lit "SELECT IncidentID, TicketStatus, TicketSubmittedDateTime FROM " ++
  TABLE_NAME ++ lit " ORDER BY id DESC LIMIT 50;".

Definition sql_new : str :=
  lit "SELECT IncidentID, TicketStatus, TicketSubmittedDateTime FROM " ++
  TABLE_NAME ++ lit " WHERE TicketStatus='New' ORDER BY id DESC LIMIT 50;".

Definition sql_incident (inc : str) : str :=
  lit "SELECT TicketStatus FROM " ++ TABLE_NAME ++
  lit " WHERE IncidentID='" ++ inc ++ lit "';".

Definition fast_intent (question : str) : option str :=
  let q := lower_s question in
  if (contains (lit "pending") q || contains (lit "belum tutup") q) &&
     any_in (map lit ["how many"; "berapa"; "count"; "jumlah"]%string) q
  then Some sql_pending
  else if any_in (map lit ["open"; "belum tutup"; "masih buka"]%string) q
  then Some sql_open
  else if any_in (map lit ["latest"; "terkini"; "baru"]%string) q
  then Some sql_latest
  else if any_in (map lit ["new case"; "new cases"; "kes baru"]%string) q
  then Some sql_new
  else
    match search_inc q with
    | Some inc => Some (sql_incident inc)
    | None => None
    end.

(** ** Cleaner *)

(** [re.search]: the match at the leftmost position where the pattern
    matches. *)
Fixpoint re_search (m : matcher) (s : str) : option str :=
  match m s with
  | Some n => Some (firstn n s)
  | None =>
      match s with
      | [] => None
      | _ :: s' => re_search m s'
      end
  end.

(** Index of the first semicolon. *)
Fixpoint find_semi (s : str) : option nat :=
  match s with
  | [] => None
  | c :: s' =>
      if Ascii.eqb c ";"%char then Some 0
      else option_map S (find_semi s')
  end.

(** The fence pattern: three backquotes and, when it follows, [sql] in any
    case. *)
Definition match_fence : matcher := fun s =>
  if startswith (lit "```") s then
    if startswith_ci (lit "sql") (skipn 3 s) then Some 6 else Some 3
  else None.

(** [SELECT[\s\S]+?;]: the keyword, one character whatever it is, then as
    few characters as possible up to a semicolon. *)
Definition match_select_semi : matcher := fun s =>
  if startswith_ci (lit "SELECT") s then
    match skipn 6 s with
    | _ :: rest =>
        match find_semi rest with
        | Some i => Some (6 + 1 + i + 1)
        | None => None
        end
    | [] => None
    end
  else None.

(** [SELECT[\s\S]+]: the keyword and everything after it, at least one
    character. *)
Definition match_select_rest : matcher := fun s =>
  if startswith_ci (lit "SELECT") s then
    match skipn 6 s with
    | _ :: _ => Some (List.length s)
    | [] => None
    end
  else None.

Definition strip_fences (raw : str) : str :=
  strip (re_sub match_fence [] raw).

Definition clean_sql (raw : str) : str :=
  match raw with
  | [] => []
  | _ =>
      let raw := strip_fences raw in
      match re_search match_select_semi raw with
      | Some m => strip m
      | None =>
          match re_search match_select_rest raw with
          | Some m => strip m
          | None => []
          end
      end
  end.

(** ** Repair engine *)

(** [KW\s+\w+] under [re.IGNORECASE].  Both runs are greedy; no character
    is a space and a word character at once, so the match, when there is
    one, is the keyword, the whole run of spaces and the whole run of word
    characters. *)
Definition match_clause (kw : str) : matcher := fun s =>
  if startswith_ci kw s then
    let s1 := skipn (List.length kw) s in
    let n1 := span Char.is_space s1 in
    let n2 := span Char.is_word (skipn n1 s1) in
    if (0 <? n1) && (0 <? n2) then Some (List.length kw + n1 + n2) else None
  else None.

(** A status phrase between two quotes, each of them single or double. *)
Definition match_quoted (k : str) : matcher := fun s =>
  match s with
  | q :: s' =>
      if Char.is_quote q && startswith_ci k s' then
        match skipn (List.length k) s' with
        | q' :: _ => if Char.is_quote q' then Some (List.length k + 2) else None
        | [] => None
        end
      else None
  | [] => None
  end.

Definition FROM_TABLE : str := lit "FROM " ++ TABLE_NAME.
Definition WHERE_STATUS : str := lit "WHERE TicketStatus".

Definition fix_table (sql : str) : str :=
  re_sub (match_clause (lit "FROM")) FROM_TABLE sql.

Definition fix_where (sql : str) : str :=
  re_sub (match_clause (lit "WHERE")) WHERE_STATUS sql.

Definition fix_status_with (kv : str * str) (sql : str) : str :=
  re_sub (match_quoted (fst kv)) (lit "'" ++ snd kv ++ lit "'") sql.

Definition fix_status (sql : str) : str :=
  fold_left (fun acc kv => fix_status_with kv acc) STATUS_MAP sql.

Definition ensure_limit (sql : str) : str :=
  if negb (contains (lit "count(") (lower_s sql)) &&
     negb (contains (lit "limit") (lower_s sql))
  then rstrip_semi sql ++ lit " LIMIT 50"
  else sql.

Definition ensure_semicolon (sql : str) : str :=
  if negb (endswith (lit ";") (strip sql)) then sql ++ lit ";" else sql.

Definition repair_sql (sql : str) : str :=
  match sql with
  | [] => sql
  | _ =>
      ensure_semicolon
        (ensure_limit (fix_status (fix_where (fix_table sql))))
  end.

(** ** Prompt builder *)

Definition nl : str := ["010"%char].

Definition build_prompt (question : str) : str :=
  nl ++
  lit "You are a MySQL expert." ++ nl ++
  lit "Return ONLY ONE valid SELECT query." ++ nl ++
  lit "STRICT RULES:" ++ nl ++
  lit "- SELECT only" ++ nl ++
  lit "- No explanation" ++ nl ++
  lit "- No comments" ++ nl ++
  lit "- No markdown" ++ nl ++
  lit "- Use table " ++ TABLE_NAME ++ nl ++
  lit "- Use LIMIT 50 unless COUNT" ++ nl ++
  nl ++
  lit "User Question:" ++ nl ++
  question ++ nl ++
  nl ++
  lit "SQL:" ++ nl.

(** ** Language-model client and orchestrator *)

(** What one request to the generation service comes to: the text of the
    [response] field, or a failure (connection error, timeout, a status
    that is no success, a body that is no such document); [call_llm]
    catches every one of these. *)
Inductive reply : Type :=
| Response (text : str)
| Failure.

Definition maxsize : nat := 200.

(** The process state: the entries of the [lru_cache], the most recently
    used first, and the number of requests sent to the service so far. *)
Record state : Type := mkState {
  cache : list (str * option str);
  requests : nat
}.

Fixpoint cache_get (q : str) (c : list (str * option str)) : option (option str) :=
  match c with
  | [] => None
  | (k, v) :: c' => if str_eqb k q then Some v else cache_get q c'
  end.

Fixpoint cache_remove (q : str) (c : list (str * option str)) : list (str * option str) :=
  match c with
  | [] => []
  | (k, v) :: c' => if str_eqb k q then c' else (k, v) :: cache_remove q c'
  end.

Section Orchestrator.

(** The service as the program meets it: the reply to the [n]-th request,
    given its prompt. *)
Variable service : nat -> str -> reply.

Definition call_llm (n : nat) (prompt : str) : str :=
  match service n prompt with
  | Response text => strip text
  | Failure => []
  end.

(** The body of [generate_sql], with the count of requests threaded
    through. *)
Definition generate_sql_wrapped (n : nat) (question : str) : option str * nat :=
  match fast_intent question with
  | Some (c :: fast) => (Some (strip (c :: fast)), n)
  | _ =>
      let prompt := build_prompt question in
      let raw := call_llm n prompt in
      match raw with
      | [] => (None, S n)
      | _ =>
          let sql := clean_sql raw in
          if negb (valid_sql sql) then (None, S n)
          else (Some (strip (repair_sql sql)), S n)
      end
  end.

(** [generate_sql] as decorated with [lru_cache(maxsize=200)]: a hit
    returns the stored result and makes the entry the most recent one; a
    miss runs the body, stores its result whatever it is, and drops the
    least recently used entry once there are more than [maxsize]. *)
Definition generate_sql (st : state) (question : str) : option str * state :=
  match cache_get question (cache st) with
  | Some v =>
      (v, mkState ((question, v) :: cache_remove question (cache st))
                  (requests st))
  | None =>
      let (v, n) := generate_sql_wrapped (requests st) question in
      (v, mkState (firstn maxsize ((question, v) :: cache st)) n)
  end.

(** A session: the questions asked one after the other. *)
Fixpoint session (st : state) (qs : list str) : list (option str) * state :=
  match qs with
  | [] => ([], st)
  | q :: qs' =>
      let (v, st1) := generate_sql st q in
      let (vs, st2) := session st1 qs' in
      (v :: vs, st2)
  end.

End Orchestrator.

Definition initial : state := mkState [] 0.

(** ** The earlier cleaner

    [llm_sql_generator.py] holds an earlier draft of the pipeline.  Its
    cleaner removes the fences, cuts the text before the first [select],
    and trims the spaces and then the semicolons at the end; it keeps the
    whole text when there is no [select] in it. *)

Module Draft.

Fixpoint from_first (t s : str) : option str :=
  if startswith t (lower_s s) then Some s
  else
    match s with
    | [] => None
    | _ :: s' => from_first t s'
    end.

Definition clean_sql (text : str) : str :=
  let text := strip (re_sub match_fence [] text) in
  let text :=
    match from_first (lit "select") text with
    | Some s => s
    | None => text
    end in
  rstrip_semi (strip text).

End Draft.

(** ** The earlier orchestrator

    [generate_sql] of [llm_sql_generator.py]: the prompt with the schema
    and the worked examples, one call of the chat service, the draft
    cleaner, and the two checks written in the function itself.  Whatever
    is raised on the way, by the service or by the reading of its answer,
    is caught and comes to absence; the message printed then is left
    out. *)

Definition dq : str := ["034"%char].

Module DraftOrchestrator.

Definition SCHEMA : str :=
  nl ++
  lit "Table: ticketdetails" ++ nl ++
  nl ++
  lit "Columns:" ++ nl ++
  lit "- title (varchar)" ++ nl ++
  lit "- tat (int)" ++ nl ++
  lit "- incidentid (varchar)" ++ nl ++
  lit "- ticketstatus (varchar)" ++ nl ++
  lit "- ticketsubmitteddatetime (datetime)" ++ nl ++
  lit "- ticketcloseddatetime (datetime)" ++ nl ++
  lit "- reqname (varchar)" ++ nl ++
  lit "- reqemail (varchar)" ++ nl ++
  lit "- typeofticket (varchar)" ++ nl ++
  lit "- category (varchar)" ++ nl ++
  lit "- priorityseverity (varchar)" ++ nl ++
  lit "- product (varchar)" ++ nl ++
  lit "- reportedby (varchar)" ++ nl ++
  lit "- subcategory (varchar)" ++ nl ++
  lit "- subsubcategory (varchar)" ++ nl ++
  lit "- assignperson (varchar)" ++ nl ++
  lit "- assignpersonemail (varchar)" ++ nl ++
  lit "- assigngroup (varchar)" ++ nl.

Definition prompt_rules : str :=
  nl ++
  lit "You are an expert MySQL query generator." ++ nl ++
  nl ++
  lit "Convert the user question into a SAFE SQL query." ++ nl ++
  nl ++
  lit "IMPORTANT RULES:" ++ nl ++
  lit "- Output exactly one SQL statement." ++ nl ++
  lit "- SELECT only. Do not modify data." ++ nl ++
  lit "- Use LIMIT 50 for non-aggregations." ++ nl ++
  lit "- Prefer IS NOT NULL over != '' when checking presence." ++ nl ++
  lit "- Use DATE/DATETIME functions when the question uses ranges like " ++ dq ++ lit "today" ++ dq ++ lit ", " ++ dq ++ lit "yesterday" ++ dq ++ lit ", " ++ dq ++ lit "last 7 days" ++ dq ++ lit "." ++ nl ++
  lit "- RETURN ONLY SQL (no explanations)." ++ nl ++
  nl ++
  lit "Database Schema:" ++ nl.

Definition prompt_examples : str :=
  nl ++
  nl ++
  lit "Examples:" ++ nl ++
  nl ++
  lit "User: how many pending tickets" ++ nl ++
  lit "SQL:" ++ nl ++
  lit "SELECT COUNT(*) AS total" ++ nl ++
  lit "FROM ticketdetails" ++ nl ++
  lit "WHERE ticketstatus <> 'Closed';" ++ nl ++
  nl ++
  lit "User: show the new tickets" ++ nl ++
  lit "SQL:" ++ nl ++
  lit "SELECT *" ++ nl ++
  lit "FROM ticketdetails" ++ nl ++
  lit "WHERE ticketstatus LIKE '%New%'" ++ nl ++
  lit "LIMIT 50;" ++ nl ++
  nl ++
  lit "User: status of incident id INC-002" ++ nl ++
  lit "SQL:" ++ nl ++
  lit "SELECT ticketstatus" ++ nl ++
  lit "FROM ticketdetails" ++ nl ++
  lit "WHERE incidentid = 'INC-002'" ++ nl ++
  lit "LIMIT 50;" ++ nl ++
  nl ++
  lit "User: ticket submitted on 21/02/2026" ++ nl ++
  lit "SQL:" ++ nl ++
  lit "SELECT *" ++ nl ++
  lit "FROM ticketdetails" ++ nl ++
  lit "WHERE STR_TO_DATE(ticketsubmitteddatetime, '%e/%c/%Y') = STR_TO_DATE('21/02/2026', '%d/%m/%Y')" ++ nl ++
  lit "LIMIT 50;" ++ nl ++
  nl ++
  lit "User: berapa banyak tiket low" ++ nl ++
  lit "SQL:" ++ nl ++
  lit "SELECT COUNT(*) AS total" ++ nl ++
  lit "FROM ticketdetails" ++ nl ++
  lit "WHERE priorityseverity LIKE '%Low%';" ++ nl ++
  nl ++
  lit "User: senaraikan tiket di bawah kategori Infra" ++ nl ++
  lit "SQL:" ++ nl ++
  lit "SELECT *" ++ nl ++
  lit "FROM ticketdetails" ++ nl ++
  lit "WHERE category LIKE '%Infra%'" ++ nl ++
  lit "LIMIT 50;" ++ nl ++
  nl ++
  lit "User: tiket dibuka semalam" ++ nl ++
  lit "SQL:" ++ nl ++
  lit "SELECT *" ++ nl ++
  lit "FROM ticketdetails" ++ nl ++
  lit "WHERE STR_TO_DATE(ticketsubmitteddatetime, '%e/%c/%Y') = DATE_SUB(CURDATE(), INTERVAL 1 DAY)" ++ nl ++
  lit "LIMIT 50;" ++ nl ++
  nl ++
  lit "User Question:" ++ nl.

Definition prompt_end : str :=
  nl ++
  nl ++
  lit "SQL:" ++ nl.

Definition build_prompt (question : str) : str :=
  prompt_rules ++ SCHEMA ++ prompt_examples ++ question ++ prompt_end.

Definition forbidden : list str :=
  map lit ["update"; "delete"; "insert"; "drop"; "alter"; "truncate"]%string.

Section Service.

(** The chat service: the content of the message it answers with, or a
    failure. *)
Variable chat : str -> reply.

Definition generate_sql (question : str) : option str :=
  match chat (build_prompt question) with
  | Failure => None
  | Response raw_output =>
      let sql := Draft.clean_sql raw_output in
      if negb (startswith (lit "select") (lower_s sql)) then None
      else if any_in forbidden (lower_s sql) then None
      else Some sql
  end.

End Service.

End DraftOrchestrator.

(** ** Formatter

    [format_response] of [formatter.py].  A frame is its column names and
    its rows; the rendering of a frame as a table, [to_string(index=False)]
    of the pandas library, is a parameter.  Characters outside ASCII are
    written as their UTF-8 bytes. *)

Module Formatter.

Definition WARNING_SIGN : str :=
  ["226"; "154"; "160"; "239"; "184"; "143"]%char.

(** [str(n)] for a count. *)
Definition decimal (n : nat) : str :=
  list_ascii_of_string (NilEmpty.string_of_uint (Nat.to_uint n)).

Section Frames.

Variable row : Type.

Record frame : Type := mkFrame {
  columns : list str;
  rows : list row
}.

Variable to_string : frame -> str.

(** [data.empty]: no row or no column. *)
Definition empty (data : frame) : bool :=
  match columns data, rows data with
  | [], _ => true
  | _, [] => true
  | _, _ => false
  end.

(** [data.head(n)] *)
Definition head (n : nat) (data : frame) : frame :=
  mkFrame (columns data) (firstn n (rows data)).

Definition found (data : frame) (note : str) : str :=
  WARNING_SIGN ++ lit " Found " ++ decimal (List.length (rows data)) ++
  lit " records." ++ nl ++ note ++
  lit "```" ++ nl ++ to_string (head 5 data) ++ nl ++ lit "```".

Definition format_response (data : option frame) : str :=
  match data with
  | None => WARNING_SIGN ++ lit " No records found."
  | Some d =>
      if empty d then WARNING_SIGN ++ lit " No records found."
      else if List.length (rows d) =? 1 then found d []
      else if List.length (rows d) <=? 5 then found d []
      else found d (lit "Showing top 5 records:" ++ nl)
  end.

End Frames.

End Formatter.

(** ** Chat engine

    [chatbot] of [chatbot_engine.py].  It generates with the earlier
    orchestrator.  [validate_sql] of [sql_guard] and [run_query] of [db] are
    not among the sources and are parameters: the guard answers yes or no,
    the query gives a frame, or nothing, or raises.  The result is the reply
    together with the statements handed to [run_query]. *)

Module Chatbot.

Definition CROSS_MARK : str := ["226"; "157"; "140"]%char.

Section Engine.

Variable row : Type.

Inductive outcome : Type :=
| Data (d : option (Formatter.frame row))
| Raised (e : str).

Variable chat : str -> reply.
Variable validate_sql : str -> bool.
Variable run_query : str -> outcome.
Variable to_string : Formatter.frame row -> str.

Definition no_sql : str := Formatter.WARNING_SIGN ++ lit " No SQL generated.".

Definition invalid_query (sql : str) : str :=
  Formatter.WARNING_SIGN ++ lit " Invalid query generated." ++ nl ++ nl ++
  lit "SQL:" ++ nl ++ sql.

Definition database_error (e sql : str) : str :=
  CROSS_MARK ++ lit " Database error while running SQL:" ++ nl ++ e ++
  nl ++ nl ++ lit "SQL:" ++ nl ++ sql.

Definition chatbot (question : str) : str * list str :=
  match DraftOrchestrator.generate_sql chat question with
  | None | Some [] => (no_sql, [])
  | Some sql =>
      if negb (validate_sql sql) then (invalid_query sql, [])
      else
        match run_query sql with
        | Raised e => (database_error e sql, [sql])
        | Data data => (Formatter.format_response row to_string data, [sql])
        end
  end.

End Engine.

End Chatbot.

(** ** The pipeline on a wider alphabet

    Python's text is made of the characters of Unicode.  [str.upper] and
    [re.IGNORECASE] relate some characters outside ASCII to ASCII letters:
    the long s, U+017F, has [S] for its upper case and is matched by the
    letter s of a pattern.  The module below is the pipeline of
    [llm_sql_generator1.py] again, on the alphabet made of the ASCII range
    and that one character; on it, as on ASCII, the functions are those of
    Python. *)

Module Wide.

Inductive char : Type :=
| A (c : ascii)
| LONG_S.

Definition wstr := list char.

Definition wlit (s : string) : wstr := map A (lit s).

Definition eqb (x y : char) : bool :=
  match x, y with
  | A a, A b => Ascii.eqb a b
  | LONG_S, LONG_S => true
  | _, _ => false
  end.

(** [str.upper] and [str.lower]: the upper case of the long s is [S], and
    it is its own lower case. *)
Definition upper (x : char) : char :=
  match x with
  | A a => A (Char.upper a)
  | LONG_S => A "S"%char
  end.

Definition lower (x : char) : char :=
  match x with
  | A a => A (Char.lower a)
  | LONG_S => LONG_S
  end.

Definition is_space (x : char) : bool :=
  match x with
  | A a => Char.is_space a
  | LONG_S => false
  end.

(** The long s is a letter. *)
Definition is_word (x : char) : bool :=
  match x with
  | A a => Char.is_word a
  | LONG_S => true
  end.

Definition is_digit (x : char) : bool :=
  match x with
  | A a => Char.is_digit a
  | LONG_S => false
  end.

Definition is_quote (x : char) : bool :=
  match x with
  | A a => Char.is_quote a
  | LONG_S => false
  end.

Definition is_char (c : ascii) (x : char) : bool := eqb (A c) x.

(** A character of a pattern under [re.IGNORECASE] against a character of
    the text: the lower-case forms are equal, and s matches the long s as
    well. *)
Definition ci (p : ascii) (x : char) : bool :=
  match x with
  | A a => Ascii.eqb (Char.lower p) (Char.lower a)
  | LONG_S => Ascii.eqb (Char.lower p) "s"%char
  end.

Definition upper_s (s : wstr) : wstr := map upper s.
Definition lower_s (s : wstr) : wstr := map lower s.

Fixpoint str_eqb (a b : wstr) : bool :=
  match a, b with
  | [], [] => true
  | x :: a', y :: b' => eqb x y && str_eqb a' b'
  | _, _ => false
  end.

Fixpoint startswith (p s : wstr) : bool :=
  match p, s with
  | [], _ => true
  | x :: p', y :: s' => eqb x y && startswith p' s'
  | _ :: _, [] => false
  end.

Fixpoint contains (t s : wstr) : bool :=
  startswith t s ||
  match s with
  | [] => false
  | _ :: s' => contains t s'
  end.

Definition endswith (p s : wstr) : bool := startswith (rev p) (rev s).

Fixpoint drop_while (p : char -> bool) (s : wstr) : wstr :=
  match s with
  | [] => []
  | c :: s' => if p c then drop_while p s' else s
  end.

Definition rdrop_while (p : char -> bool) (s : wstr) : wstr :=
  rev (drop_while p (rev s)).

Definition lstrip (s : wstr) : wstr := drop_while is_space s.
Definition rstrip (s : wstr) : wstr := rdrop_while is_space s.
Definition strip (s : wstr) : wstr := rstrip (lstrip s).

Definition rstrip_semi (s : wstr) : wstr :=
  rdrop_while (is_char ";"%char) s.

Fixpoint span (p : char -> bool) (s : wstr) : nat :=
  match s with
  | [] => 0
  | c :: s' => if p c then S (span p s') else 0
  end.

(** A pattern literal under [re.IGNORECASE] at the head of the text. *)
Fixpoint startswith_ci (p : str) (s : wstr) : bool :=
  match p, s with
  | [], _ => true
  | x :: p', y :: s' => ci x y && startswith_ci p' s'
  | _ :: _, [] => false
  end.

Definition matcher := wstr -> option nat.

Fixpoint re_sub_go (m : matcher) (r : wstr) (skip : nat) (s : wstr) : wstr :=
  match s with
  | [] => []
  | c :: s' =>
      match skip with
      | S k => re_sub_go m r k s'
      | 0 =>
          match m s with
          | Some (S n) => r ++ re_sub_go m r n s'
          | _ => c :: re_sub_go m r 0 s'
          end
      end
  end.

Definition re_sub (m : matcher) (r : wstr) (s : wstr) : wstr :=
  re_sub_go m r 0 s.

Fixpoint re_search (m : matcher) (s : wstr) : option wstr :=
  match m s with
  | Some n => Some (firstn n s)
  | None =>
      match s with
      | [] => None
      | _ :: s' => re_search m s'
      end
  end.

Fixpoint find_semi (s : wstr) : option nat :=
  match s with
  | [] => None
  | c :: s' =>
      if is_char ";"%char c then Some 0
      else option_map S (find_semi s')
  end.

Definition any_in (xs : list wstr) (s : wstr) : bool :=
  existsb (fun x => contains x s) xs.

(** *** Intent shortcuts *)

Definition match_inc (s : wstr) : option wstr :=
  if startswith (wlit "inc") s then
    let s1 := skipn 3 s in
    let s2 :=
      match s1 with
      | c :: s1' => if is_char "-"%char c || is_space c then s1' else s1
      | [] => s1
      end in
    let n := span is_digit s2 in
    if 0 <? n then Some (firstn n s2) else None
  else None.

Fixpoint search_inc (s : wstr) : option wstr :=
  match match_inc s with
  | Some g => Some g
  | None =>
      match s with
      | [] => None
      | _ :: s' => search_inc s'
      end
  end.

Definition sql_incident (inc : wstr) : wstr :=
  wlit "SELECT TicketStatus FROM " ++ map A TABLE_NAME ++
  wlit " WHERE IncidentID='" ++ inc ++ wlit "';".

Definition fast_intent (question : wstr) : option wstr :=
  let q := lower_s question in
  if (contains (wlit "pending") q || contains (wlit "belum tutup") q) &&
     any_in (map wlit ["how many"; "berapa"; "count"; "jumlah"]%string) q
  then Some (map A sql_pending)
  else if any_in (map wlit ["open"; "belum tutup"; "masih buka"]%string) q
  then Some (map A sql_open)
  else if any_in (map wlit ["latest"; "terkini"; "baru"]%string) q
  then Some (map A sql_latest)
  else if any_in (map wlit ["new case"; "new cases"; "kes baru"]%string) q
  then Some (map A sql_new)
  else
    match search_inc q with
    | Some inc => Some (sql_incident inc)
    | None => None
    end.

(** *** Cleaner *)

Definition match_fence : matcher := fun s =>
  if startswith (wlit "```") s then
    if startswith_ci (lit "sql") (skipn 3 s) then Some 6 else Some 3
  else None.

Definition match_select_semi : matcher := fun s =>
  if startswith_ci (lit "SELECT") s then
    match skipn 6 s with
    | _ :: rest =>
        match find_semi rest with
        | Some i => Some (6 + 1 + i + 1)
        | None => None
        end
    | [] => None
    end
  else None.

Definition match_select_rest : matcher := fun s =>
  if startswith_ci (lit "SELECT") s then
    match skipn 6 s with
    | _ :: _ => Some (List.length s)
    | [] => None
    end
  else None.

Definition clean_sql (raw : wstr) : wstr :=
  match raw with
  | [] => []
  | _ =>
      let raw := strip (re_sub match_fence [] raw) in
      match re_search match_select_semi raw with
      | Some m => strip m
      | None =>
          match re_search match_select_rest raw with
          | Some m => strip m
          | None => []
          end
      end
  end.

(** *** Validator *)

Definition valid_sql (sql : wstr) : bool :=
  match sql with
  | [] => false
  | _ =>
      let s := strip (upper_s sql) in
      if negb (startswith (wlit "SELECT") s) then false
      else if any_in (map (map A) forbidden) s then false
      else true
  end.

(** *** Repair engine *)

Definition match_clause (kw : str) : matcher := fun s =>
  if startswith_ci kw s then
    let s1 := skipn (List.length kw) s in
    let n1 := span is_space s1 in
    let n2 := span is_word (skipn n1 s1) in
    if (0 <? n1) && (0 <? n2) then Some (List.length kw + n1 + n2) else None
  else None.

Definition match_quoted (k : str) : matcher := fun s =>
  match s with
  | q :: s' =>
      if is_quote q && startswith_ci k s' then
        match skipn (List.length k) s' with
        | q' :: _ => if is_quote q' then Some (List.length k + 2) else None
        | [] => None
        end
      else None
  | [] => None
  end.

Definition fix_table (sql : wstr) : wstr :=
  re_sub (match_clause (lit "FROM")) (map A FROM_TABLE) sql.

Definition fix_where (sql : wstr) : wstr :=
  re_sub (match_clause (lit "WHERE")) (map A WHERE_STATUS) sql.

Definition fix_status_with (kv : str * str) (sql : wstr) : wstr :=
  re_sub (match_quoted (fst kv)) (wlit "'" ++ map A (snd kv) ++ wlit "'") sql.

Definition fix_status (sql : wstr) : wstr :=
  fold_left (fun acc kv => fix_status_with kv acc) STATUS_MAP sql.

Definition ensure_limit (sql : wstr) : wstr :=
  if negb (contains (wlit "count(") (lower_s sql)) &&
     negb (contains (wlit "limit") (lower_s sql))
  then rstrip_semi sql ++ wlit " LIMIT 50"
  else sql.

Definition ensure_semicolon (sql : wstr) : wstr :=
  if negb (endswith (wlit ";") (strip sql)) then sql ++ wlit ";" else sql.

Definition repair_sql (sql : wstr) : wstr :=
  match sql with
  | [] => sql
  | _ =>
      ensure_semicolon
        (ensure_limit (fix_status (fix_where (fix_table sql))))
  end.

(** *** Prompt builder, client and orchestrator *)

Definition build_prompt (question : wstr) : wstr :=
  map A nl ++
  wlit "You are a MySQL expert." ++ map A nl ++
  wlit "Return ONLY ONE valid SELECT query." ++ map A nl ++
  wlit "STRICT RULES:" ++ map A nl ++
  wlit "- SELECT only" ++ map A nl ++
  wlit "- No explanation" ++ map A nl ++
  wlit "- No comments" ++ map A nl ++
  wlit "- No markdown" ++ map A nl ++
  wlit "- Use table " ++ map A TABLE_NAME ++ map A nl ++
  wlit "- Use LIMIT 50 unless COUNT" ++ map A nl ++
  map A nl ++
  wlit "User Question:" ++ map A nl ++
  question ++ map A nl ++
  map A nl ++
  wlit "SQL:" ++ map A nl.

Inductive reply : Type :=
| Response (text : wstr)
| Failure.

Record state : Type := mkState {
  cache : list (wstr * option wstr);
  requests : nat
}.

Fixpoint cache_get (q : wstr) (c : list (wstr * option wstr))
  : option (option wstr) :=
  match c with
  | [] => None
  | (k, v) :: c' => if str_eqb k q then Some v else cache_get q c'
  end.

Fixpoint cache_remove (q : wstr) (c : list (wstr * option wstr))
  : list (wstr * option wstr) :=
  match c with
  | [] => []
  | (k, v) :: c' => if str_eqb k q then c' else (k, v) :: cache_remove q c'
  end.

Section Orchestrator.

Variable service : nat -> wstr -> reply.

Definition call_llm (n : nat) (prompt : wstr) : wstr :=
  match service n prompt with
  | Response text => strip text
  | Failure => []
  end.

Definition generate_sql_wrapped (n : nat) (question : wstr)
  : option wstr * nat :=
  match fast_intent question with
  | Some (c :: fast) => (Some (strip (c :: fast)), n)
  | _ =>
      let prompt := build_prompt question in
      let raw := call_llm n prompt in
      match raw with
      | [] => (None, S n)
      | _ =>
          let sql := clean_sql raw in
          if negb (valid_sql sql) then (None, S n)
          else (Some (strip (repair_sql sql)), S n)
      end
  end.

Definition generate_sql (st : state) (question : wstr)
  : option wstr * state :=
  match cache_get question (cache st) with
  | Some v =>
      (v, mkState ((question, v) :: cache_remove question (cache st))
                  (requests st))
  | None =>
      let (v, n) := generate_sql_wrapped (requests st) question in
      (v, mkState (firstn maxsize ((question, v) :: cache st)) n)
  end.

Fixpoint session (st : state) (qs : list wstr)
  : list (option wstr) * state :=
  match qs with
  | [] => ([], st)
  | q :: qs' =>
      let (v, st1) := generate_sql st q in
      let (vs, st2) := session st1 qs' in
      (v :: vs, st2)
  end.

End Orchestrator.

Definition initial : state := mkState [] 0.

End Wide.

(** ** The specification's wording

    The definitions below follow the sentences of the specification; the
    theorems compare them with the program. *)

(** [t] occurs in [sql] when the case of the letters is ignored. *)
Definition occurs_ci (t sql : str) : Prop :=
  exists a m b, sql = a ++ m ++ b /\ upper_s m = t.

(** The strings the validator is to reject: the empty one, those whose
    trimmed upper-case form does not start with SELECT, and those in which
    a denylisted token or the comment start occurs anywhere. *)
Definition rejected (sql : str) : Prop :=
  sql = [] \/
  startswith (lit "SELECT") (strip (upper_s sql)) = false \/
  exists t, In t forbidden /\ occurs_ci t sql.


(** A call of an aggregate function, as the specification lists them:
    the name of the function and the opening parenthesis, in any case. *)
Definition has_aggregate_call (sql : str) : bool :=
  any_in (map lit ["count("; "avg("; "sum("; "min("; "max("]%string)
         (lower_s sql).

(** The invariant of a generated statement: it begins with SELECT, in any
    case and after any leading whitespace, and none of the denylisted
    tokens, nor the comment start, occurs in it. *)
Definition begins_with_select (r : str) : Prop :=
  startswith_ci (lit "SELECT") (lstrip r) = true.


(** ** Auxiliary notions of the proofs

    [free t s]: the token [t] does not occur in [s], whatever the case of
    the letters of [s]. *)
Definition free (t s : str) : Prop := contains t (upper_s s) = false.

Definition token_free (s : str) : Prop :=
  forall t, In t forbidden -> free t s.

(** Characters that occur in no token. *)
Definition separators : str := lit "FW' ;0123456789".

(** [s] is spaces, then six characters that read SELECT, then the rest. *)
Definition select_prefixed (s : str) : Prop :=
  exists w sel rest, s = w ++ sel ++ rest /\
    (forall c, In c w -> Char.is_space c = true) /\
    upper_s sel = lit "SELECT".

(** Characters on which a match of [m] cannot start. *)
Definition inert (m : matcher) (c : ascii) : Prop :=
  forall x, m (c :: x) = None.

(** What [match_clause] asks of the text after the keyword: spaces, then a
    word character. *)
Definition head_word (x : str) : bool :=
  match x with
  | c :: _ => Char.is_word c
  | [] => false
  end.

Definition tail_ok (x : str) : bool :=
  (0 <? span Char.is_space x) &&
  (0 <? span Char.is_word (skipn (span Char.is_space x) x)).

Definition matches (kw s : str) : bool :=
  startswith_ci kw s && tail_ok (skipn (List.length kw) s).

(** Every match of [m] in [out] reads [r]. *)
Definition canonical (m : matcher) (r out : str) : Prop :=
  forall a b n, out = a ++ b -> m b = Some n -> firstn n b = r.

(** The substitution as the specification reads it for the column step:
    it stops after the first match, so that only the first WHERE clause is
    rewritten.  The program calls [re.sub] without a count and has no such
    function. *)
Fixpoint re_sub_first (m : matcher) (r : str) (s : str) : str :=
  match s with
  | [] => []
  | c :: s' =>
      match m s with
      | Some (S n) => r ++ skipn n s'
      | _ => c :: re_sub_first m r s'
      end
  end.

Definition fix_where_first (sql : str) : str :=
  re_sub_first (match_clause (lit "WHERE")) WHERE_STATUS sql.

(** [s] is the keyword followed by nothing but spaces: appending a space
    and a word to it would make a clause. *)
Definition dangling (kw s : str) : bool :=
  startswith_ci kw s && forallb Char.is_space (skipn (List.length kw) s).

(** Some suffix of [s] is a dangling keyword. *)
Fixpoint dangles (kw s : str) : bool :=
  dangling kw s ||
  match s with
  | [] => false
  | _ :: s' => dangles kw s'
  end.

Definition is_quote_char (c : ascii) : Prop := Char.is_quote c = true.

(** [kw] and [s] differ, whatever the case, at a position that both
    have. *)
Fixpoint mismatch (kw s : str) : bool :=
  match kw, s with
  | k :: kw', d :: s' =>
      negb (Ascii.eqb (Char.lower k) (Char.lower d)) || mismatch kw' s'
  | _, _ => false
  end.

(** [f] holds of every non-empty suffix. *)
Fixpoint all_tails (f : str -> bool) (s : str) : bool :=
  match s with
  | [] => true
  | _ :: s' => f s && all_tails f s'
  end.

(** Every stored result is what the body of [generate_sql] returned for
    that question at some point. *)
Definition cache_sound (service : nat -> str -> reply)
           (c : list (str * option str)) : Prop :=
  forall q v, cache_get q c = Some v ->
    exists n, v = fst (generate_sql_wrapped service n q).

(** The back quote, of which a fence has three. *)
Definition is_backquote (c : ascii) : bool := Ascii.eqb c "`"%char.

(** ** The range of the model

    The character functions are those of Python on ASCII text. *)
Definition is_ascii (s : str) : bool :=
  forallb (fun c => (Char.code c <? 128)%N) s.

(** ** The specification's wording: the shortcuts

    Matching ignores the case of the letters: a keyword is mentioned in
    a question when it stands in the question read in lower case. *)
Definition mentions (kw : string) (q : str) : Prop :=
  exists a b, lower_s q = a ++ lit kw ++ b.

Definition pending_count (q : str) : Prop :=
  (mentions "pending" q \/ mentions "belum tutup" q) /\
  (mentions "how many" q \/ mentions "berapa" q \/ mentions "count" q \/
   mentions "jumlah" q).

Definition open_list (q : str) : Prop :=
  mentions "open" q \/ mentions "belum tutup" q \/ mentions "masih buka" q.

Definition latest_list (q : str) : Prop :=
  mentions "latest" q \/ mentions "terkini" q \/ mentions "baru" q.

Definition new_case_list (q : str) : Prop :=
  mentions "new case" q \/ mentions "new cases" q \/ mentions "kes baru" q.

(** What may stand between [inc] and the digits: nothing, a dash or one
    whitespace character. *)
Definition separator (sep : str) : Prop :=
  sep = [] \/ sep = lit "-" \/ exists c, sep = [c] /\ Char.is_space c = true.

(** An incident token stands in [q], read in lower case, between [a] and
    [b]: [inc], a separator, the digits [num]. *)
Definition incident_at (q a num b : str) : Prop :=
  exists sep,
    lower_s q = a ++ lit "inc" ++ sep ++ num ++ b /\
    separator sep /\
    num <> [] /\ forallb Char.is_digit num = true.

Definition incident_lookup (q : str) : Prop :=
  exists a num b, incident_at q a num b.

(** The number of the lookup: that of the first incident token of the
    question, with all its digits. *)
Definition incident_number (q num : str) : Prop :=
  exists a b,
    incident_at q a num b /\
    match b with
    | d :: _ => Char.is_digit d = false
    | [] => True
    end /\
    forall a' num' b', incident_at q a' num' b' ->
      List.length a <= List.length a'.

Definition shortcut_pattern (q : str) : Prop :=
  pending_count q \/ open_list q \/ latest_list q \/ new_case_list q \/
  incident_lookup q.

(** The statement of the shortcut that applies: the intents are looked for
    in this order and the first one found decides. *)
Definition shortcut_for (q sql : str) : Prop :=
  (pending_count q /\ sql = sql_pending) \/
  (~ pending_count q /\ open_list q /\ sql = sql_open) \/
  (~ pending_count q /\ ~ open_list q /\ latest_list q /\ sql = sql_latest) \/
  (~ pending_count q /\ ~ open_list q /\ ~ latest_list q /\
   new_case_list q /\ sql = sql_new) \/
  (~ pending_count q /\ ~ open_list q /\ ~ latest_list q /\
   ~ new_case_list q /\
   exists num, incident_number q num /\ sql = sql_incident num).

(** ** The specification's wording: the clauses of a statement

    A clause [KW <identifier>]: the keyword in some case, whitespace, an
    identifier. *)
Definition clause (kw piece : str) : Prop :=
  exists k sp id,
    piece = k ++ sp ++ id /\ upper_s k = kw /\
    sp <> [] /\ forallb Char.is_space sp = true /\
    id <> [] /\ forallb Char.is_word id = true.

Definition clause_starts (kw s : str) : Prop :=
  exists piece rest, s = piece ++ rest /\ clause kw piece.

(** The identifier of a clause is taken whole: no character of an
    identifier follows it. *)
Definition ends_identifier (rest : str) : Prop :=
  match rest with
  | c :: _ => Char.is_word c = false
  | [] => True
  end.

(** [out] is [s] with every clause replaced by [r]: read from the left,
    a character at which no clause starts is kept, and a clause is replaced
    whole, the reading going on after it. *)
Inductive rewritten (kw r : str) : str -> str -> Prop :=
| rewritten_end : rewritten kw r [] []
| rewritten_keep (c : ascii) (s out : str) :
    ~ clause_starts kw (c :: s) ->
    rewritten kw r s out ->
    rewritten kw r (c :: s) (c :: out)
| rewritten_clause (piece rest out : str) :
    clause kw piece ->
    ends_identifier rest ->
    rewritten kw r rest out ->
    rewritten kw r (piece ++ rest) (r ++ out).

(** ** The specification's wording: the validation of the draft

    The texts that the validation written inside the earlier
    [generate_sql] turns down: those that do not start with SELECT, in
    some case, and those in which one of its six words occurs. *)
Definition draft_rejected (sql : str) : Prop :=
  startswith (lit "SELECT") (upper_s sql) = false \/
  exists t, In t forbidden /\ t <> lit "--" /\ occurs_ci t sql.

(** ** The invariant on the wider alphabet

    A text is ASCII when it is made of characters of that range.  The
    statement begins, after its leading whitespace, with the letters
    of SELECT in either case, and no denylisted token occurs in it in
    either case of its letters. *)
Abbreviation wide := (map Wide.A) (only parsing).





(** * Properties *)

(** ** Text *)

Lemma ascii_eqb_eq (a b : ascii) : Ascii.eqb a b = true <-> a = b.
Proof. apply Ascii.eqb_eq. Qed.

Lemma startswith_nil_r (x : str) : startswith x [] = true -> x = [].
Proof. destruct x; [reflexivity | discriminate]. Qed.

Lemma startswith_prefix (x s : str) :
  startswith x s = true <-> exists b, s = x ++ b.
Proof.
  revert s; induction x as [|c x IH]; intros s; simpl.
  - split; [intros _; now exists s | reflexivity].
  - destruct s as [|d s]; simpl.
    + split; [discriminate | intros [b H]; discriminate].
    + rewrite andb_true_iff, Ascii.eqb_eq, IH. split.
      * intros [-> [b ->]]. now exists b.
      * intros [b H]. injection H as -> ->. split; [reflexivity | now exists b].
Qed.

Lemma contains_infix (x s : str) :
  contains x s = true <-> exists a b, s = a ++ x ++ b.
Proof.
  induction s as [|d s IH]; simpl.
  - rewrite orb_false_r. split.
    + intros H. apply startswith_nil_r in H. subst. now exists [], [].
    + intros [a [b H]]. symmetry in H.
      apply app_eq_nil in H as [_ H]. apply app_eq_nil in H as [-> _].
      reflexivity.
  - rewrite orb_true_iff, IH, startswith_prefix. split.
    + intros [[b H] | [a [b H]]].
      * exists [], b. exact H.
      * exists (d :: a), b. simpl. now rewrite H.
    + intros [[|a0 a] [b H]].
      * left. now exists b.
      * right. injection H as _ H. now exists a, b.
Qed.

Lemma contains_app_r (x a b : str) :
  contains x b = true -> contains x (a ++ b) = true.
Proof.
  rewrite !contains_infix. intros [u [v ->]].
  exists (a ++ u), v. now rewrite <- app_assoc.
Qed.

Lemma contains_app_l (x a b : str) :
  contains x a = true -> contains x (a ++ b) = true.
Proof.
  rewrite !contains_infix. intros [u [v ->]].
  exists u, (v ++ b). now rewrite <- !app_assoc.
Qed.

(** A character that does not occur in [x] cuts the search for [x] in
    two. *)
Lemma startswith_sep (x a b : str) (c : ascii) :
  ~ In c x -> startswith x (a ++ c :: b) = startswith x a.
Proof.
  revert a; induction x as [|y x IH]; intros a Hc; [reflexivity|].
  destruct a as [|d a]; simpl.
  - destruct (Ascii.eqb y c) eqn:E; [|reflexivity].
    apply Ascii.eqb_eq in E. subst. exfalso. apply Hc. now left.
  - rewrite IH; [reflexivity|]. intros H. apply Hc. now right.
Qed.

Lemma contains_sep (x a b : str) (c : ascii) :
  ~ In c x -> contains x (a ++ c :: b) = contains x a || contains x b.
Proof.
  intros Hc. induction a as [|d a IH]; simpl.
  - pose proof (startswith_sep x [] b c Hc) as H.
    change ([] ++ c :: b) with (c :: b) in H. rewrite H.
    now rewrite orb_false_r.
  - pose proof (startswith_sep x (d :: a) b c Hc) as H.
    change ((d :: a) ++ c :: b) with (d :: a ++ c :: b) in H.
    rewrite IH, H. now rewrite orb_assoc.
Qed.

Lemma contains_nil (x : str) : x <> [] -> contains x [] = false.
Proof. destruct x; [congruence | reflexivity]. Qed.

Lemma contains_seps_l (x w s : str) :
  x <> [] -> (forall c, In c w -> ~ In c x) ->
  contains x (w ++ s) = contains x s.
Proof.
  intros Hx. induction w as [|c w IH]; intros Hw; [reflexivity|].
  change ((c :: w) ++ s) with ([] ++ c :: (w ++ s)).
  rewrite contains_sep by (apply Hw; now left).
  rewrite contains_nil by assumption. simpl.
  apply IH. intros d Hd. apply Hw. now right.
Qed.

Lemma contains_seps_r (x w s : str) :
  x <> [] -> (forall c, In c w -> ~ In c x) ->
  contains x (s ++ w) = contains x s.
Proof.
  intros Hx Hw. destruct w as [|c w]; [now rewrite app_nil_r|].
  rewrite contains_sep by (apply Hw; now left).
  rewrite <- (app_nil_r w).
  rewrite contains_seps_l; [|assumption|intros d Hd; apply Hw; now right].
  rewrite contains_nil by assumption. apply orb_false_r.
Qed.

Lemma drop_while_split (p : ascii -> bool) (s : str) :
  exists w, s = w ++ drop_while p s /\ forall c, In c w -> p c = true.
Proof.
  induction s as [|c s [w [E H]]]; simpl.
  - exists []. split; [reflexivity | intros c []].
  - destruct (p c) eqn:Hp.
    + exists (c :: w). split; [simpl; now rewrite <- E|].
      intros d [<- | Hd]; auto.
    + exists []. split; [reflexivity | intros d []].
Qed.

Lemma lstrip_split (s : str) :
  exists w, s = w ++ lstrip s /\ forall c, In c w -> Char.is_space c = true.
Proof. apply drop_while_split. Qed.

Lemma rdrop_while_split (p : ascii -> bool) (s : str) :
  exists w, s = rdrop_while p s ++ w /\ forall c, In c w -> p c = true.
Proof.
  unfold rdrop_while. destruct (drop_while_split p (rev s)) as [w [E H]].
  exists (rev w). split.
  - rewrite <- rev_app_distr, <- E. now rewrite rev_involutive.
  - intros c Hc. apply H. now apply in_rev.
Qed.

Lemma drop_while_stop (p : ascii -> bool) (a z : str) (d : ascii) :
  p d = false -> drop_while p (a ++ d :: z) = drop_while p a ++ d :: z.
Proof.
  intros Hd. induction a as [|c a IH]; simpl.
  - now rewrite Hd.
  - destruct (p c); [exact IH | reflexivity].
Qed.

(** Trimming on the right stops at a character outside the class. *)
Lemma rdrop_while_stop (p : ascii -> bool) (x y : str) (d : ascii) :
  p d = false -> rdrop_while p (x ++ d :: y) = x ++ d :: rdrop_while p y.
Proof.
  intros Hd. unfold rdrop_while.
  rewrite rev_app_distr. simpl. rewrite <- app_assoc. simpl.
  rewrite drop_while_stop by assumption.
  rewrite rev_app_distr. simpl. rewrite rev_involutive, <- app_assoc.
  reflexivity.
Qed.

Lemma rstrip_split (s : str) :
  exists w, s = rstrip s ++ w /\ forall c, In c w -> Char.is_space c = true.
Proof. apply rdrop_while_split. Qed.

Lemma strip_split (s : str) :
  exists w1 w2, s = w1 ++ strip s ++ w2 /\
    (forall c, In c w1 -> Char.is_space c = true) /\
    (forall c, In c w2 -> Char.is_space c = true).
Proof.
  destruct (lstrip_split s) as [w1 [E1 H1]].
  destruct (rstrip_split (lstrip s)) as [w2 [E2 H2]].
  exists w1, w2. unfold strip. now rewrite <- E2.
Qed.

(** Looking for a text without spaces, trimming changes nothing. *)
Lemma contains_strip (x s : str) :
  x <> [] -> (forall c, In c x -> Char.is_space c = false) ->
  contains x (strip s) = contains x s.
Proof.
  intros Hx Hs.
  destruct (strip_split s) as [w1 [w2 [E [H1 H2]]]].
  assert (Hw : forall w, (forall c, In c w -> Char.is_space c = true) ->
                         forall c, In c w -> ~ In c x).
  { intros w H c Hc Hin. specialize (H c Hc). specialize (Hs c Hin). congruence. }
  rewrite E at 2.
  rewrite contains_seps_l, contains_seps_r; eauto.
Qed.

Lemma skipn_app_le {A} (n : nat) (l y : list A) :
  n <= List.length l -> skipn n (l ++ y) = skipn n l ++ y.
Proof.
  intros H. rewrite skipn_app.
  replace (n - List.length l) with 0 by lia. reflexivity.
Qed.

Lemma startswith_app_long (p a b : str) :
  List.length p <= List.length a -> startswith p (a ++ b) = startswith p a.
Proof.
  revert a. induction p as [|x p IH]; intros a H; [reflexivity|].
  destruct a as [|y a]; [simpl in H; lia|]. simpl.
  rewrite IH; [reflexivity | simpl in H; lia].
Qed.


(** ** Safety validator *)

Lemma forbidden_shape (t : str) :
  In t forbidden ->
  t <> [] /\ (forall c, In c t -> Char.is_space c = false) /\ upper_s t = t.
Proof.
  assert (H : forallb (fun t => negb (str_eqb t []) &&
                         forallb (fun c => negb (Char.is_space c)) t &&
                         str_eqb (upper_s t) t) forbidden = true)
    by (vm_compute; reflexivity).
  rewrite forallb_forall in H. intros Ht. specialize (H t Ht).
  apply andb_true_iff in H as [H H3]. apply andb_true_iff in H as [H1 H2].
  repeat split.
  - intros ->. discriminate.
  - rewrite forallb_forall in H2. intros c Hc.
    specialize (H2 c Hc). now apply negb_true_iff in H2.
  - clear - H3. revert H3. generalize (upper_s t). intros u.
    revert t. induction u as [|a u IH]; destruct t as [|b t]; simpl;
      try discriminate; [reflexivity|].
    rewrite andb_true_iff, Ascii.eqb_eq. intros [-> H]. f_equal. now apply IH.
Qed.

Lemma occurs_ci_contains (t sql : str) :
  occurs_ci t sql <-> contains t (upper_s sql) = true.
Proof.
  rewrite contains_infix. unfold occurs_ci, upper_s. split.
  - intros [a [m [b [-> <-]]]].
    exists (map Char.upper a), (map Char.upper b). now rewrite !map_app.
  - intros [a [b H]].
    apply map_eq_app in H as [a' [r [-> [<- H]]]].
    apply map_eq_app in H as [m [b' [-> [<- <-]]]].
    now exists a', m, b'.
Qed.

Lemma any_in_forbidden (sql : str) :
  any_in forbidden (strip (upper_s sql)) = true <->
  exists t, In t forbidden /\ occurs_ci t sql.
Proof.
  unfold any_in. rewrite existsb_exists.
  split; intros [t [Ht H]]; exists t; split; trivial;
    destruct (forbidden_shape t Ht) as [Hne [Hsp _]].
  - rewrite contains_strip in H by assumption. now apply occurs_ci_contains.
  - rewrite contains_strip by assumption. now apply occurs_ci_contains.
Qed.

Lemma valid_sql_false (sql : str) : valid_sql sql = false <-> rejected sql.
Proof.
  unfold rejected. rewrite <- any_in_forbidden.
  destruct sql as [|c sql]; [simpl; tauto|].
  unfold valid_sql. set (s := strip (upper_s (c :: sql))).
  destruct (startswith (lit "SELECT") s); destruct (any_in forbidden s);
    simpl; intuition (try discriminate; try congruence).
Qed.

Lemma valid_sql_true (sql : str) : valid_sql sql = true <-> ~ rejected sql.
Proof.
  rewrite <- valid_sql_false. destruct (valid_sql sql); split; congruence.
Qed.


(** ** Case *)

Lemma lower_upper (c : ascii) : Char.lower (Char.upper c) = Char.lower c.
Proof. each_char c. Qed.

Lemma upper_lower (c : ascii) : Char.upper (Char.lower c) = Char.upper c.
Proof. each_char c. Qed.

Lemma upper_upper (c : ascii) : Char.upper (Char.upper c) = Char.upper c.
Proof. each_char c. Qed.

Lemma lower_eq_upper_eq (a b : ascii) :
  Char.lower a = Char.lower b <-> Char.upper a = Char.upper b.
Proof.
  split; intros H.
  - rewrite <- (upper_lower a), <- (upper_lower b). now rewrite H.
  - rewrite <- (lower_upper a), <- (lower_upper b). now rewrite H.
Qed.

Lemma eqb_lower_upper (a b : ascii) :
  Ascii.eqb (Char.lower a) (Char.lower b) =
  Ascii.eqb (Char.upper a) (Char.upper b).
Proof.
  destruct (Ascii.eqb (Char.upper a) (Char.upper b)) eqn:E.
  - apply Ascii.eqb_eq. apply lower_eq_upper_eq. now apply Ascii.eqb_eq.
  - apply Ascii.eqb_neq. intros H. apply lower_eq_upper_eq in H.
    apply Ascii.eqb_neq in E. contradiction.
Qed.

Lemma startswith_ci_upper (p s : str) :
  startswith_ci p s = startswith (upper_s p) (upper_s s).
Proof.
  unfold startswith_ci. revert s.
  induction p as [|x p IH]; intros s; [reflexivity|].
  destruct s as [|y s]; [reflexivity|]. simpl.
  now rewrite IH, eqb_lower_upper.
Qed.

Lemma upper_s_app (a b : str) : upper_s (a ++ b) = upper_s a ++ upper_s b.
Proof. apply map_app. Qed.

Lemma lower_s_app (a b : str) : lower_s (a ++ b) = lower_s a ++ lower_s b.
Proof. apply map_app. Qed.

Lemma lower_s_of_upper (s : str) : lower_s (upper_s s) = lower_s s.
Proof.
  unfold lower_s, upper_s. rewrite map_map. apply map_ext, lower_upper.
Qed.

Lemma upper_s_of_lower (s : str) : upper_s (lower_s s) = upper_s s.
Proof.
  unfold lower_s, upper_s. rewrite map_map. apply map_ext, upper_lower.
Qed.

Lemma select_shape (sel : str) :
  upper_s sel = lit "SELECT" ->
  List.length sel = 6 /\ lower_s sel = lower_s (lit "SELECT").
Proof.
  intros H. split.
  - apply (f_equal (@List.length ascii)) in H. unfold upper_s in H.
    now rewrite length_map in H.
  - now rewrite <- lower_s_of_upper, H.
Qed.

(** ** Substitution *)

Lemma re_sub_go_skipn (m : matcher) (r : str) (n : nat) (s : str) :
  re_sub_go m r n s = re_sub m r (skipn n s).
Proof.
  revert s; induction n as [|n IH]; intros s; [reflexivity|].
  destruct s as [|c s]; [reflexivity|]. simpl. apply IH.
Qed.

Lemma re_sub_nil (m : matcher) (r : str) : re_sub m r [] = [].
Proof. reflexivity. Qed.

Lemma re_sub_hit (m : matcher) (r : str) (c : ascii) (s : str) (n : nat) :
  m (c :: s) = Some (S n) ->
  re_sub m r (c :: s) = r ++ re_sub m r (skipn n s).
Proof.
  intros H. unfold re_sub at 1. simpl. rewrite H.
  now rewrite re_sub_go_skipn.
Qed.

Lemma re_sub_miss (m : matcher) (r : str) (c : ascii) (s : str) :
  m (c :: s) = None ->
  re_sub m r (c :: s) = c :: re_sub m r s.
Proof. intros H. unfold re_sub. simpl. now rewrite H. Qed.

(** Induction along the scan of [re_sub]. *)
Lemma re_sub_scan (m : matcher) (r : str) (P : str -> str -> Prop) :
  (forall s, m s <> Some 0) ->
  P [] [] ->
  (forall c s, m (c :: s) = None ->
     P s (re_sub m r s) -> P (c :: s) (c :: re_sub m r s)) ->
  (forall c s n, m (c :: s) = Some (S n) ->
     P (skipn n s) (re_sub m r (skipn n s)) ->
     P (c :: s) (r ++ re_sub m r (skipn n s))) ->
  forall s, P s (re_sub m r s).
Proof.
  intros Hm Hnil Hmiss Hhit s.
  remember (List.length s) as k eqn:Hk.
  revert s Hk. induction k as [k IH] using lt_wf_ind. intros s Hk.
  destruct s as [|c s]; [exact Hnil|].
  destruct (m (c :: s)) as [[|n]|] eqn:E.
  - exfalso. exact (Hm _ E).
  - rewrite (re_sub_hit m r c s n E). apply Hhit; [exact E|].
    apply (IH (List.length (skipn n s))); [|reflexivity].
    subst k. simpl. rewrite length_skipn. lia.
  - rewrite (re_sub_miss m r c s E). apply Hmiss; [exact E|].
    apply (IH (List.length s)); [subst k; simpl; lia | reflexivity].
Qed.

(** ** Cleaner *)

Lemma re_search_none (m : matcher) (s : str) :
  (forall a b, s = a ++ b -> m b = None) -> re_search m s = None.
Proof.
  induction s as [|c s IH]; intros H; simpl.
  - now rewrite (H [] [] eq_refl).
  - rewrite (H [] (c :: s) eq_refl). apply IH.
    intros a b ->. apply (H (c :: a) b). reflexivity.
Qed.

Lemma startswith_contains (x s : str) :
  startswith x s = true -> contains x s = true.
Proof. destruct s; simpl; intros ->; reflexivity. Qed.

Lemma select_absent_no_match (s : str) :
  contains (lit "SELECT") (upper_s s) = false ->
  forall a b, s = a ++ b -> startswith_ci (lit "SELECT") b = false.
Proof.
  intros H a b ->. rewrite startswith_ci_upper.
  destruct (startswith (upper_s (lit "SELECT")) (upper_s b)) eqn:E; trivial.
  rewrite upper_s_app in H.
  assert (contains (lit "SELECT") (upper_s a ++ upper_s b) = true); [|congruence].
  apply contains_app_r, startswith_contains. exact E.
Qed.




Lemma re_search_some (m : matcher) (s x : str) :
  re_search m s = Some x ->
  exists a b n, s = a ++ b /\ m b = Some n /\ x = firstn n b /\
    forall a1 a2, a = a1 ++ a2 -> a2 <> [] -> m (a2 ++ b) = None.
Proof.
  induction s as [|c s IH]; simpl.
  - destruct (m []) as [n|] eqn:E; [|discriminate].
    intros [= <-]. exists [], [], n. repeat split; trivial.
    intros a1 a2 H. symmetry in H. apply app_eq_nil in H as [_ ->]. congruence.
  - destruct (m (c :: s)) as [n|] eqn:E.
    + intros [= <-]. exists [], (c :: s), n. repeat split; trivial.
      intros a1 a2 H. symmetry in H. apply app_eq_nil in H as [_ ->]. congruence.
    + intros H. destruct (IH H) as [a [b [n [-> [Hb [-> Hbefore]]]]]].
      exists (c :: a), b, n. repeat split; trivial.
      intros a1 a2 Ha Hne. destruct a1 as [|d a1]; simpl in Ha.
      * subst a2. exact E.
      * injection Ha as _ Ha. now apply (Hbefore a1 a2).
Qed.

Lemma re_search_none_inv (m : matcher) (s : str) :
  re_search m s = None -> forall a b, s = a ++ b -> m b = None.
Proof.
  induction s as [|c s IH]; simpl.
  - destruct (m []) eqn:E; [discriminate|]. intros _ a b H.
    symmetry in H. apply app_eq_nil in H as [_ ->]. exact E.
  - destruct (m (c :: s)) eqn:E; [discriminate|]. intros H a b Hs.
    destruct a as [|d a]; simpl in Hs.
    + now subst b.
    + injection Hs as _ Hs. now apply (IH H a b).
Qed.

Lemma find_semi_some (s : str) (i : nat) :
  find_semi s = Some i ->
  exists body rest, s = body ++ ";"%char :: rest /\ List.length body = i /\
    ~ In ";"%char body.
Proof.
  revert i; induction s as [|c s IH]; intros i; simpl; [discriminate|].
  destruct (Ascii.eqb c ";") eqn:E.
  - intros [= <-]. apply Ascii.eqb_eq in E. subst c.
    exists [], s. repeat split; auto.
  - destruct (find_semi s) as [j|]; [|discriminate]. simpl. intros [= <-].
    destruct (IH j eq_refl) as [body [rest [-> [Hl Hn]]]].
    exists (c :: body), rest. repeat split; simpl; auto.
    intros [H | H]; [|contradiction]. subst c. now rewrite Ascii.eqb_refl in E.
Qed.

Lemma find_semi_none (s : str) : find_semi s = None -> ~ In ";"%char s.
Proof.
  induction s as [|c s IH]; simpl; [tauto|].
  destruct (Ascii.eqb c ";") eqn:E; [discriminate|].
  destruct (find_semi s); [discriminate|]. intros _ [H | H].
  - subst c. now rewrite Ascii.eqb_refl in E.
  - now apply IH.
Qed.

Lemma startswith_ci_split (p s : str) :
  startswith_ci p s = true ->
  exists h t, s = h ++ t /\ List.length h = List.length p /\
    lower_s h = lower_s p.
Proof.
  unfold startswith_ci. rewrite startswith_prefix. intros [b H].
  unfold lower_s in H. apply map_eq_app in H as [h [t [-> [H _]]]].
  exists h, t. repeat split; trivial.
  apply (f_equal (@List.length ascii)) in H. unfold lower_s in H.
  now rewrite !length_map in H.
Qed.

Lemma skipn_app_exact {A} (h t : list A) n :
  List.length h = n -> skipn n (h ++ t) = t.
Proof.
  intros <-. rewrite skipn_app, skipn_all, Nat.sub_diag. reflexivity.
Qed.

Lemma firstn_app_exact {A} (h t : list A) n :
  List.length h = n -> firstn n (h ++ t) = h.
Proof.
  intros <-. rewrite firstn_app, firstn_all, Nat.sub_diag. simpl.
  apply app_nil_r.
Qed.

Lemma lstrip_nonspace (c : ascii) (s : str) :
  Char.is_space c = false -> lstrip (c :: s) = c :: s.
Proof. intros H. unfold lstrip. simpl. now rewrite H. Qed.

Lemma rstrip_nonspace (c : ascii) (s : str) :
  Char.is_space c = false -> rstrip (s ++ [c]) = s ++ [c].
Proof. intros H. unfold rstrip. now rewrite rdrop_while_stop. Qed.

(** The six characters that match SELECT. *)
Lemma select_chars (sel : str) :
  List.length sel = 6 -> lower_s sel = lower_s (lit "SELECT") ->
  exists a pre z, sel = a :: pre ++ [z] /\
    Char.is_space a = false /\ Char.is_space z = false /\
    Ascii.eqb ";"%char z = false.
Proof.
  intros Hl H.
  destruct sel as [|a1 [|a2 [|a3 [|a4 [|a5 [|a6 [|]]]]]]]; try discriminate.
  exists a1, [a2; a3; a4; a5], a6. split; [reflexivity|].
  injection H as H1 _ _ _ _ H6. clear - H1 H6. repeat split.
  - revert H1. each_char a1.
  - revert H6. each_char a6.
  - revert H6. each_char a6.
Qed.

Lemma strip_fixed (c d : ascii) (s : str) :
  Char.is_space c = false -> Char.is_space d = false ->
  strip (c :: s ++ [d]) = c :: s ++ [d].
Proof.
  intros Hc Hd. unfold strip. rewrite lstrip_nonspace by assumption.
  change (c :: s ++ [d]) with ((c :: s) ++ [d]).
  now apply rstrip_nonspace.
Qed.

Lemma select_head (s : str) :
  startswith_ci (lit "SELECT") s = true ->
  exists c s', s = c :: s' /\ Char.is_space c = false /\
               c <> ";"%char.
Proof.
  destruct s as [|c s]; [discriminate|].
  unfold startswith_ci. simpl. rewrite andb_true_iff. intros [H _].
  exists c, s. split; [reflexivity|]. revert H. clear. each_char c.
Qed.

Lemma startswith_ci_same_prefix (p x y y' : str) :
  List.length p <= List.length x ->
  startswith_ci p (x ++ y) = startswith_ci p (x ++ y').
Proof.
  intros H. unfold startswith_ci. rewrite !lower_s_app.
  rewrite !startswith_app_long; trivial;
    unfold lower_s; rewrite !length_map; exact H.
Qed.

Lemma in_skipn_app (n : nat) (pre post : str) (x : ascii) :
  n <= List.length pre -> In x post -> In x (skipn n (pre ++ post)).
Proof.
  intros H Hx. rewrite skipn_app_le by assumption.
  apply in_or_app. now right.
Qed.

Lemma select_split (b : str) :
  startswith_ci (lit "SELECT") b = true ->
  exists sel t, b = sel ++ t /\ upper_s sel = lit "SELECT".
Proof.
  intros E. destruct (startswith_ci_split _ _ E) as [sel [t [-> [_ Hlow]]]].
  exists sel, t. split; [reflexivity|].
  now rewrite <- upper_s_of_lower, Hlow.
Qed.

Lemma find_semi_in (s : str) : In ";"%char s -> find_semi s <> None.
Proof. intros H E. now apply find_semi_none in E. Qed.

(** The shape of what the first pattern matches. *)
Lemma match_select_semi_shape (b : str) (n : nat) :
  match_select_semi b = Some n ->
  exists sel c body tail,
    b = (sel ++ c :: body ++ [";"%char]) ++ tail /\
    n = List.length (sel ++ c :: body ++ [";"%char]) /\
    upper_s sel = lit "SELECT" /\ ~ In ";"%char body.
Proof.
  unfold match_select_semi.
  destruct (startswith_ci (lit "SELECT") b) eqn:E; [|discriminate].
  destruct (select_split _ E) as [sel [t [-> Hs]]].
  destruct (select_shape sel Hs) as [Hl _].
  rewrite (skipn_app_exact sel t _ Hl).
  destruct t as [|c rest]; [discriminate|].
  destruct (find_semi rest) as [i|] eqn:F; [|discriminate].
  intros [= <-].
  destruct (find_semi_some _ _ F) as [body [tail [-> [Hb Hn]]]].
  exists sel, c, body, tail. repeat split; trivial.
  - rewrite <- !app_assoc. simpl. rewrite <- app_assoc. reflexivity.
  - rewrite !length_app. simpl. rewrite length_app. simpl. lia.
Qed.

Lemma match_select_rest_shape (b : str) (n : nat) :
  match_select_rest b = Some n ->
  exists sel c rest,
    b = sel ++ c :: rest /\ n = List.length b /\ upper_s sel = lit "SELECT".
Proof.
  unfold match_select_rest.
  destruct (startswith_ci (lit "SELECT") b) eqn:E; [|discriminate].
  destruct (select_split _ E) as [sel [t [-> Hs]]].
  destruct (select_shape sel Hs) as [Hl _].
  rewrite (skipn_app_exact sel t _ Hl).
  destruct t as [|c rest]; [discriminate|]. intros [= <-].
  now exists sel, c, rest.
Qed.

(** The two ways in which the cleaner finds a statement: up to a
    semicolon, or up to the end of a text that has no semicolon to stop at.
    Either way the statement starts at the first SELECT of the text. *)
Lemma clean_sql_cases (raw : str) :
  clean_sql raw <> [] ->
  exists a sel c,
    upper_s sel = lit "SELECT" /\
    ((exists body tail,
        strip_fences raw = a ++ (sel ++ c :: body ++ [";"%char]) ++ tail /\
        ~ In ";"%char body /\
        clean_sql raw = sel ++ c :: body ++ [";"%char])
     \/
     (exists rest,
        strip_fences raw = a ++ sel ++ c :: rest /\
        ~ In ";"%char rest /\
        clean_sql raw = sel ++ rstrip (c :: rest))) /\
    forall a1 a2 y, a = a1 ++ a2 -> a2 <> [] ->
      startswith_ci (lit "SELECT") (a2 ++ sel ++ c :: y) = false.
Proof.
  destruct raw as [|c0 raw0]; [intros H; now elim H|].
  unfold clean_sql. set (u := strip_fences (c0 :: raw0)).
  destruct (re_search match_select_semi u) as [x|] eqn:S1.
  - intros _.
    destruct (re_search_some _ _ _ S1) as [a [b [n [Hu [Hb [-> Hbefore]]]]]].
    destruct (match_select_semi_shape _ _ Hb)
      as [sel [c [body [tail [Eb [En [Hs Hn]]]]]]].
    destruct (select_shape sel Hs) as [Hl Hlow].
    destruct (select_chars sel Hl Hlow) as [h [pre [z [Es [Hh _]]]]].
    assert (Ef : firstn n b = sel ++ c :: body ++ [";"%char]).
    { rewrite Eb, En. now apply firstn_app_exact. }
    exists a, sel, c. split; [exact Hs|]. split.
    + left. exists body, tail. rewrite Ef, Hu, Eb. repeat split; trivial.
      rewrite Es.
      replace ((h :: pre ++ [z]) ++ c :: body ++ [";"%char])
        with (h :: ((pre ++ [z]) ++ c :: body) ++ [";"%char])
        by (simpl; rewrite <- !app_assoc; reflexivity).
      apply strip_fixed; [exact Hh | reflexivity].
    + intros a1 a2 y Ea Ha.
      destruct (startswith_ci (lit "SELECT") (a2 ++ sel ++ c :: y)) eqn:E;
        trivial.
      exfalso. pose proof (Hbefore a1 a2 Ea Ha) as N.
      assert (E' : startswith_ci (lit "SELECT") (a2 ++ b) = true).
      { rewrite Eb, <- !app_assoc, app_assoc.
        rewrite app_assoc in E.
        rewrite (startswith_ci_same_prefix _ _ _ (c :: y)); trivial.
        rewrite length_app, Hl. change (List.length (lit "SELECT")) with 6.
        lia. }
      unfold match_select_semi in N. rewrite E' in N.
      destruct (select_split _ E') as [s2 [t2 [E2 Hs2]]].
      destruct (select_shape s2 Hs2) as [Hl2 _].
      rewrite E2, (skipn_app_exact s2 t2 _ Hl2) in N.
      destruct t2 as [|c2 r2].
      * apply (f_equal (@List.length ascii)) in E2.
        rewrite Eb, !length_app, Hl, Hl2 in E2. simpl in E2. lia.
      * assert (Hin : In ";"%char r2).
        { assert (Er : r2 = skipn 7 (a2 ++ b)).
          { rewrite E2. change 7 with (1 + 6). rewrite <- skipn_skipn.
            now rewrite (skipn_app_exact s2 _ _ Hl2). }
          rewrite Er.
          replace (a2 ++ b)
            with ((a2 ++ sel ++ c :: body) ++ ";"%char :: tail)
            by (rewrite Eb, <- !app_assoc; simpl; rewrite <- !app_assoc;
                reflexivity).
          apply in_skipn_app; [|now left].
          destruct a2 as [|d a2]; [congruence|].
          simpl. rewrite !length_app, Hl. simpl. lia. }
        apply find_semi_in in Hin.
        destruct (find_semi r2); [discriminate | congruence].
  - destruct (re_search match_select_rest u) as [x|] eqn:S2;
      [|intros H; now elim H].
    intros _.
    destruct (re_search_some _ _ _ S2) as [a [b [n [Hu [Hb [-> Hbefore]]]]]].
    pose proof (re_search_none_inv _ _ S1 a b Hu) as Hno.
    destruct (match_select_rest_shape _ _ Hb) as [sel [c [rest [Eb [En Hs]]]]].
    destruct (select_shape sel Hs) as [Hl Hlow].
    destruct (select_chars sel Hl Hlow) as [h [pre [z [Es [Hh [Hz _]]]]]].
    assert (Hrest : ~ In ";"%char rest).
    { unfold match_select_semi in Hno.
      assert (E : startswith_ci (lit "SELECT") b = true).
      { rewrite Eb. unfold startswith_ci. rewrite lower_s_app, Hlow.
        apply startswith_prefix. eexists. reflexivity. }
      rewrite E, Eb, (skipn_app_exact sel _ _ Hl) in Hno.
      destruct (find_semi rest) eqn:F; [discriminate|].
      now apply find_semi_none. }
    exists a, sel, c. split; [exact Hs|]. split.
    + right. exists rest. rewrite Hu, En, firstn_all.
      repeat split; [now rewrite Eb | exact Hrest|].
      unfold strip. rewrite Eb, Es. simpl.
      rewrite lstrip_nonspace by assumption.
      replace (h :: (pre ++ [z]) ++ c :: rest)
        with ((h :: pre) ++ z :: c :: rest)
        by (simpl; rewrite <- app_assoc; reflexivity).
      unfold rstrip. rewrite rdrop_while_stop by assumption.
      simpl. now rewrite <- app_assoc.
    + intros a1 a2 y Ea Ha.
      destruct (startswith_ci (lit "SELECT") (a2 ++ sel ++ c :: y)) eqn:E;
        trivial.
      exfalso. pose proof (Hbefore a1 a2 Ea Ha) as N.
      assert (E' : startswith_ci (lit "SELECT") (a2 ++ b) = true).
      { rewrite Eb, app_assoc. rewrite app_assoc in E.
        rewrite (startswith_ci_same_prefix _ _ _ (c :: y)); trivial.
        rewrite length_app, Hl. change (List.length (lit "SELECT")) with 6.
        lia. }
      unfold match_select_rest in N. rewrite E' in N.
      destruct (skipn 6 (a2 ++ b)) eqn:K; [|discriminate].
      apply (f_equal (@List.length ascii)) in K.
      rewrite length_skipn, Eb, !length_app, Hl in K. simpl in K. lia.
Qed.





(** ** Cache *)

Lemma str_eqb_eq (a b : str) : str_eqb a b = true <-> a = b.
Proof.
  revert b; induction a as [|x a IH]; intros [|y b]; simpl;
    try (split; [discriminate | congruence]); [tauto|].
  rewrite andb_true_iff, Ascii.eqb_eq, IH. split.
  - now intros [-> ->].
  - intros [= -> ->]. auto.
Qed.

Lemma str_eqb_refl (a : str) : str_eqb a a = true.
Proof. now apply str_eqb_eq. Qed.

Lemma cache_get_remove (q q' : str) (c : list (str * option str)) :
  q <> q' -> cache_get q' (cache_remove q c) = cache_get q' c.
Proof.
  intros Hq. induction c as [|[k w] c IH]; simpl; [reflexivity|].
  destruct (str_eqb k q) eqn:E.
  - apply str_eqb_eq in E. subst k.
    destruct (str_eqb q q') eqn:E'; [|reflexivity].
    apply str_eqb_eq in E'. contradiction.
  - simpl. now rewrite IH.
Qed.

Lemma cache_get_firstn (q : str) (n : nat) (c : list (str * option str))
      (v : option str) :
  cache_get q (firstn n c) = Some v -> cache_get q c = Some v.
Proof.
  revert n; induction c as [|[k w] c IH]; intros [|n]; simpl;
    try discriminate.
  destruct (str_eqb k q); [trivial | apply IH].
Qed.

Lemma generate_sql_sound service (st : state) (q : str) :
  cache_sound service (cache st) ->
  cache_sound service (cache (snd (generate_sql service st q))) /\
  exists n, fst (generate_sql service st q) =
            fst (generate_sql_wrapped service n q).
Proof.
  intros Hc. unfold generate_sql.
  destruct (cache_get q (cache st)) as [v|] eqn:E.
  - cbn [fst snd cache]. split; [|exact (Hc q v E)].
    intros q' v'. simpl. destruct (str_eqb q q') eqn:Eq.
    + apply str_eqb_eq in Eq. subst q'. intros [= <-]. exact (Hc q v E).
    + rewrite cache_get_remove; [apply Hc|].
      intros ->. now rewrite str_eqb_refl in Eq.
  - destruct (generate_sql_wrapped service (requests st) q) as [v n] eqn:W.
    cbn [fst snd cache]. split; [|exists (requests st); now rewrite W].
    intros q' v' H. apply cache_get_firstn in H. cbn [cache_get] in H.
    destruct (str_eqb q q') eqn:Eq.
    + apply str_eqb_eq in Eq. subst q'. injection H as <-.
      exists (requests st). now rewrite W.
    + now apply Hc.
Qed.

Lemma session_sound service (qs : list str) (st : state) :
  cache_sound service (cache st) ->
  cache_sound service (cache (snd (session service st qs))).
Proof.
  revert st; induction qs as [|q qs IH]; intros st Hc; [exact Hc|].
  simpl. destruct (generate_sql service st q) as [v st1] eqn:G.
  destruct (session service st1 qs) as [vs st2] eqn:S. simpl.
  replace st2 with (snd (session service st1 qs)) by now rewrite S.
  apply IH. replace st1 with (snd (generate_sql service st q)) by now rewrite G.
  now apply generate_sql_sound.
Qed.

Lemma initial_sound service : cache_sound service (cache initial).
Proof. intros q v H. discriminate. Qed.

(** ** Intent shortcuts *)

Lemma span_firstn (p : ascii -> bool) (s : str) :
  forallb p (firstn (span p s) s) = true.
Proof.
  induction s as [|c s IH]; [reflexivity|]. simpl.
  destruct (p c) eqn:E; [|reflexivity]. simpl. now rewrite E.
Qed.

Lemma match_inc_digits (s g : str) :
  match_inc s = Some g -> g <> [] /\ forallb Char.is_digit g = true.
Proof.
  unfold match_inc. destruct (startswith (lit "inc") s); [|discriminate].
  match goal with |- context [span _ ?x] => generalize x end. intros t.
  destruct (0 <? span Char.is_digit t) eqn:E; [|discriminate].
  intros [= <-]. split; [|apply span_firstn].
  apply Nat.ltb_lt in E. destruct t as [|c t]; [simpl in E; lia|].
  simpl in *. destruct (Char.is_digit c); [discriminate | lia].
Qed.

Lemma search_inc_digits (s g : str) :
  search_inc s = Some g -> g <> [] /\ forallb Char.is_digit g = true.
Proof.
  induction s as [|c s IH].
  - intros H. vm_compute in H. discriminate.
  - change (search_inc (c :: s)) with
      (match match_inc (c :: s) with
       | Some g => Some g
       | None => search_inc s
       end).
    destruct (match_inc (c :: s)) eqn:E.
    + intros [= <-]. now apply (match_inc_digits (c :: s)).
    + exact IH.
Qed.

(** The five outcomes of the shortcut matcher. *)
Lemma fast_intent_some (q sql : str) :
  fast_intent q = Some sql ->
  sql = sql_pending \/ sql = sql_open \/ sql = sql_latest \/ sql = sql_new \/
  exists inc, sql = sql_incident inc /\ inc <> [] /\
              forallb Char.is_digit inc = true.
Proof.
  unfold fast_intent.
  repeat match goal with
         | |- context [if ?b then _ else _] => destruct b
         end; try (intros [= <-]; tauto).
  destruct (search_inc (lower_s q)) as [inc|] eqn:E; [|discriminate].
  intros [= <-]. do 4 right. exists inc. split; [reflexivity|].
  now apply (search_inc_digits (lower_s q)).
Qed.

Lemma digit_not_space (c : ascii) :
  Char.is_digit c = true -> Char.is_space c = false.
Proof. each_char c. Qed.

(** The templates carry no space at either end: [strip] leaves them as they
    are. *)
Lemma fast_intent_stripped (q sql : str) :
  fast_intent q = Some sql -> exists c s, sql = c :: s /\ strip sql = sql.
Proof.
  intros H. apply fast_intent_some in H as [-> | [-> | [-> | [-> | H]]]];
    try (eexists; eexists; split; vm_compute; reflexivity).
  destruct H as [inc [-> _]].
  unfold sql_incident.
  exists "S"%char. eexists. split; [reflexivity|].
  match goal with |- strip ?x = _ =>
    replace x with ("S"%char ::
      (lit "ELECT TicketStatus FROM ticketdetails WHERE IncidentID='" ++ inc ++ lit "'") ++ [";"%char])
  end.
  - apply strip_fixed; reflexivity.
  - simpl. rewrite <- !app_assoc. reflexivity.
Qed.

(** ** Orchestrator *)

Lemma wrapped_fast service (n : nat) (q sql : str) :
  fast_intent q = Some sql ->
  generate_sql_wrapped service n q = (Some sql, n).
Proof.
  intros H. unfold generate_sql_wrapped. rewrite H.
  destruct (fast_intent_stripped q sql H) as [c [s [-> E]]].
  now rewrite E.
Qed.

Lemma generate_sql_fast service (st : state) (q sql : str) :
  cache_sound service (cache st) ->
  fast_intent q = Some sql ->
  fst (generate_sql service st q) = Some sql /\
  requests (snd (generate_sql service st q)) = requests st.
Proof.
  intros Hc H. unfold generate_sql.
  destruct (cache_get q (cache st)) as [v|] eqn:E; cbn [fst snd requests].
  - split; [|reflexivity]. destruct (Hc q v E) as [n ->].
    now rewrite (wrapped_fast service n q sql H).
  - rewrite (wrapped_fast service (requests st) q sql H).
    cbn [fst snd requests]. auto.
Qed.

(** C3. On a question that no shortcut recognises and that is not in the
    cache, [generate_sql] returns absence when the request fails, when the
    service gives no text, when the cleaner gives the empty string and when
    the validator rejects the cleaned text; a statement it returns is the
    repair of a cleaned text that the validator accepted.  Every stage is a
    total function and the failure of the service is a value, so that no
    case is left without a result. *)
Theorem generate_sql_failures service (st : state) (q : str) :
  cache_get q (cache st) = None ->
  fast_intent q = None ->
  let raw := call_llm service (requests st) (build_prompt q) in
  let out := fst (generate_sql service st q) in
  (service (requests st) (build_prompt q) = Failure -> out = None) /\
  (raw = [] -> out = None) /\
  (clean_sql raw = [] -> out = None) /\
  (valid_sql (clean_sql raw) = false -> out = None) /\
  (forall r, out = Some r ->
     valid_sql (clean_sql raw) = true /\
     r = strip (repair_sql (clean_sql raw))).
Proof.
  intros Hc Hf raw out.
  assert (E : out =
    match raw with
    | [] => None
    | _ => if negb (valid_sql (clean_sql raw)) then None
           else Some (strip (repair_sql (clean_sql raw)))
    end).
  { unfold out, generate_sql. rewrite Hc. unfold generate_sql_wrapped.
    rewrite Hf. fold raw. destruct raw; [reflexivity|].
    destruct (negb _); reflexivity. }
  assert (Hraw : raw = [] -> out = None) by (intros R; rewrite E, R; reflexivity).
  assert (Hval : valid_sql (clean_sql raw) = false -> out = None).
  { intros V. rewrite E, V. now destruct raw. }
  repeat split.
  - intros F. apply Hraw. unfold raw, call_llm. now rewrite F.
  - exact Hraw.
  - intros C. apply Hval. now rewrite C.
  - exact Hval.
  - rewrite E in H. destruct raw; [discriminate|].
    destruct (valid_sql (clean_sql (a :: raw))); [reflexivity | discriminate].
  - rewrite E in H. destruct raw; [discriminate|].
    destruct (valid_sql (clean_sql (a :: raw))); cbn [negb] in H;
      [now injection H | discriminate].
Qed.

Lemma generate_sql_failures_witness :
  fst (generate_sql (fun _ _ => Response (lit "DROP TABLE ticketdetails;"))
                    initial (lit "remove everything")) = None.
Proof.
  pose proof (generate_sql_failures
                (fun _ _ => Response (lit "DROP TABLE ticketdetails;"))
                initial (lit "remove everything") eq_refl eq_refl) as H.
  cbv zeta in H. destruct H as [_ [_ [H _]]]. apply H.
  vm_compute. reflexivity.
Defined.

(** C5, as the program has it: the cache keeps whatever the body returned,
    absence included; asked the same question again, [generate_sql] gives
    the same result and sends no request. *)
Theorem generate_sql_repeat service (st : state) (q : str) :
  let r1 := fst (generate_sql service st q) in
  let st1 := snd (generate_sql service st q) in
  cache_get q (cache st1) = Some r1 /\
  fst (generate_sql service st1 q) = r1 /\
  requests (snd (generate_sql service st1 q)) = requests st1.
Proof.
  intros r1 st1.
  assert (H : cache_get q (cache st1) = Some r1).
  { unfold st1, r1, generate_sql.
    destruct (cache_get q (cache st)) as [v|] eqn:E.
    - cbn [fst snd cache cache_get]. now rewrite str_eqb_refl.
    - destruct (generate_sql_wrapped service (requests st) q) as [v n].
      cbn [fst snd cache]. unfold maxsize. rewrite firstn_cons.
      cbn [cache_get]. now rewrite str_eqb_refl. }
  split; [exact H|].
  split; unfold generate_sql at 1; rewrite H; reflexivity.
Qed.

(** C5, as the claim words it, fails: after a failed request the absence is
    served from the cache, although the service would now answer. *)
Lemma failure_is_cached :
  let service := fun (n : nat) (_ : str) =>
    match n with 0 => Failure | _ => Response (lit "SELECT 1;") end in
  let q := lit "tickets of last week" in
  let st1 := snd (generate_sql service initial q) in
  fst (generate_sql service initial q) = None /\
  requests st1 = 1 /\
  fst (generate_sql service st1 q) = None /\
  requests (snd (generate_sql service st1 q)) = 1 /\
  fst (generate_sql_wrapped service (requests st1) q) =
    Some (lit "SELECT 1 LIMIT 50;").
Proof. vm_compute. repeat split; reflexivity. Qed.

(** ** Repair engine: the row cap *)

Lemma lstrip_keeps_last (x : str) (d : ascii) :
  Char.is_space d = false -> lstrip (x ++ [d]) = lstrip x ++ [d].
Proof. intros H. unfold lstrip. now apply drop_while_stop. Qed.

Lemma strip_keeps_last (x : str) (d : ascii) :
  Char.is_space d = false -> strip (x ++ [d]) = lstrip x ++ [d].
Proof.
  intros H. unfold strip. rewrite lstrip_keeps_last by assumption.
  now apply rstrip_nonspace.
Qed.

Lemma endswith_last (x : str) (c d : ascii) :
  endswith [c] (x ++ [d]) = Ascii.eqb c d.
Proof.
  unfold endswith. rewrite rev_app_distr. simpl.
  now rewrite andb_true_r.
Qed.

Lemma ensure_semicolon_cases (t : str) :
  ensure_semicolon t = t \/ ensure_semicolon t = t ++ lit ";".
Proof. unfold ensure_semicolon. destruct (negb _); auto. Qed.

Lemma ensure_semicolon_capped (x : str) :
  ensure_semicolon (x ++ lit " LIMIT 50") = x ++ lit " LIMIT 50;".
Proof.
  unfold ensure_semicolon.
  replace (x ++ lit " LIMIT 50") with ((x ++ lit " LIMIT 5") ++ ["0"%char])
    by (rewrite <- app_assoc; reflexivity).
  rewrite strip_keeps_last by reflexivity.
  change (lit ";") with [";"%char]. rewrite endswith_last. simpl.
  rewrite <- !app_assoc. reflexivity.
Qed.

Lemma not_capped (t x : str) :
  (x = [] \/ x = lit ";") -> t ++ x <> rstrip_semi t ++ lit " LIMIT 50;".
Proof.
  intros Hx E.
  destruct (rdrop_while_split (Ascii.eqb ";"%char) t) as [w [Ew Hw]].
  fold (rstrip_semi t) in Ew. rewrite Ew in E at 1.
  rewrite <- app_assoc in E. apply app_inv_head in E.
  assert (Hin : In " "%char w).
  { destruct Hx as [-> | ->].
    - rewrite app_nil_r in E. subst w. now left.
    - change (lit " LIMIT 50;") with (lit " LIMIT 50" ++ lit ";") in E.
      apply app_inv_tail in E. subst w. now left. }
  apply Hw in Hin. discriminate.
Qed.

(** C7, as the program has it: the cap is appended exactly when the
    statement, as the three rewriting steps left it, contains neither
    [count(] nor [limit] in any case; the semicolons at its end are dropped
    and a single one closes the capped statement.  Otherwise the statement
    is kept, closed with a semicolon when it has none. *)
Theorem repair_sql_cap (sql : str) :
  sql <> [] ->
  let t := fix_status (fix_where (fix_table sql)) in
  let counted := contains (lit "count(") (lower_s t) in
  let limited := contains (lit "limit") (lower_s t) in
  (counted = false /\ limited = false ->
     repair_sql sql = rstrip_semi t ++ lit " LIMIT 50;") /\
  (counted = true \/ limited = true ->
     (repair_sql sql = t \/ repair_sql sql = t ++ lit ";") /\
     repair_sql sql <> rstrip_semi t ++ lit " LIMIT 50;").
Proof.
  intros Hne t counted limited.
  assert (E : repair_sql sql = ensure_semicolon (ensure_limit t)).
  { destruct sql; [now elim Hne | reflexivity]. }
  rewrite E. unfold ensure_limit. fold counted limited. split.
  - intros [-> ->]. simpl. apply ensure_semicolon_capped.
  - intros H.
    assert (negb counted && negb limited = false) as ->.
    { destruct H as [-> | ->]; [reflexivity | apply andb_false_r]. }
    split; [apply ensure_semicolon_cases|].
    destruct (ensure_semicolon_cases t) as [-> | ->].
    + rewrite <- (app_nil_r t) at 1. apply not_capped. now left.
    + apply not_capped. now right.
Qed.

Lemma repair_sql_cap_witness :
  repair_sql (lit "select title from tickets") =
    lit "select title FROM ticketdetails LIMIT 50;" /\
  repair_sql (lit "SELECT COUNT(*) FROM tickets") =
    lit "SELECT COUNT(*) FROM ticketdetails;".
Proof.
  split.
  - destruct (repair_sql_cap (lit "select title from tickets")) as [H _];
      [discriminate|].
    rewrite H; [vm_compute; reflexivity | split; vm_compute; reflexivity].
  - vm_compute. reflexivity.
Defined.

(** C7, as the claim words it, fails: only COUNT is looked for, and a
    statement that calls AVG is capped. *)
Lemma average_is_capped :
  has_aggregate_call (lit "SELECT AVG(tat) FROM ticketdetails") = true /\
  repair_sql (lit "SELECT AVG(tat) FROM ticketdetails") =
    lit "SELECT AVG(tat) FROM ticketdetails LIMIT 50;".
Proof. split; vm_compute; reflexivity. Qed.

(** ** Tokens *)

Lemma free_app (t a b : str) : free t (a ++ b) -> free t a /\ free t b.
Proof.
  unfold free. rewrite upper_s_app. intros H. split.
  - destruct (contains t (upper_s a)) eqn:E; trivial.
    now rewrite (contains_app_l _ _ (upper_s b) E) in H.
  - destruct (contains t (upper_s b)) eqn:E; trivial.
    now rewrite (contains_app_r _ (upper_s a) _ E) in H.
Qed.

Lemma free_sep (t a b : str) (c : ascii) :
  ~ In (Char.upper c) t ->
  free t (a ++ c :: b) <-> free t a /\ free t b.
Proof.
  intros H. unfold free. rewrite upper_s_app. simpl.
  rewrite contains_sep by assumption. apply orb_false_iff.
Qed.

Lemma free_nil (t : str) : t <> [] -> free t [].
Proof. intros H. now apply contains_nil. Qed.

Lemma free_cons_sep (t b : str) (c : ascii) :
  t <> [] -> ~ In (Char.upper c) t -> free t (c :: b) <-> free t b.
Proof.
  intros Ht H. change (c :: b) with ([] ++ c :: b).
  rewrite free_sep by assumption. pose proof (free_nil t Ht). tauto.
Qed.

(** One replacement: the match starts on a character foreign to the token,
    and so does the replacement. *)
Lemma free_splice (t p s r' x : str) (c r0 : ascii) :
  ~ In (Char.upper c) t -> ~ In (Char.upper r0) t ->
  free t (p ++ c :: s) -> free t (r' ++ x) ->
  free t (p ++ r0 :: r' ++ x).
Proof.
  intros Hc Hr H1 H2. apply free_sep; trivial.
  apply (free_sep t p s c Hc) in H1. tauto.
Qed.

Lemma token_free_app (a b : str) :
  token_free (a ++ b) -> token_free a /\ token_free b.
Proof.
  intros H. split; intros t Ht; now destruct (free_app t a b (H t Ht)).
Qed.

(** Scanning with [re_sub] keeps a text free of a token when every single
    replacement does, whatever stands to the left of it. *)
Lemma re_sub_free (m : matcher) (r : str) (Q : str -> Prop) :
  (forall s, m s <> Some 0) ->
  (forall p c s n, m (c :: s) = Some (S n) ->
     Q (p ++ c :: s) -> Q (p ++ r ++ skipn n s)) ->
  forall s p, Q (p ++ s) -> Q (p ++ re_sub m r s).
Proof.
  intros H0 Hstep s.
  apply (re_sub_scan m r (fun s out => forall p, Q (p ++ s) -> Q (p ++ out)));
    trivial.
  - clear s. intros c s _ IH p H.
    change (c :: re_sub m r s) with ([c] ++ re_sub m r s).
    rewrite app_assoc. apply IH. now rewrite <- app_assoc.
  - clear s. intros c s n E IH p H.
    rewrite app_assoc. apply IH. rewrite <- app_assoc.
    now apply Hstep with (c := c).
Qed.

(** What a token is made of. *)
Lemma forbidden_letters_or_dashes (t : str) :
  In t forbidden ->
  t = lit "--" \/ forall d, In d t -> Char.is_upper d = true.
Proof.
  unfold forbidden. simpl.
  intros [<- | [<- | [<- | [<- | [<- | [<- | [<- | []]]]]]]];
    [right | right | right | right | right | right | left; reflexivity];
    intros d Hd; simpl in Hd;
    repeat (destruct Hd as [<- | Hd]; [reflexivity|]); contradiction.
Qed.

Lemma upper_nonword (d : ascii) :
  Char.is_word d = false -> Char.is_upper (Char.upper d) = false.
Proof. each_char d. Qed.

Lemma forbidden_sep (t : str) (c : ascii) :
  In t forbidden -> In c separators -> ~ In c t.
Proof.
  intros Ht Hc Hin.
  assert (H : forallb (fun t => forallb (fun c =>
                negb (existsb (Ascii.eqb c) t)) separators) forbidden = true)
    by (vm_compute; reflexivity).
  rewrite forallb_forall in H. specialize (H t Ht).
  rewrite forallb_forall in H. specialize (H c Hc).
  apply negb_true_iff in H.
  assert (existsb (Ascii.eqb c) t = true); [|congruence].
  apply existsb_exists. exists c. split; [exact Hin | apply Ascii.eqb_refl].
Qed.

Lemma token_free_iff (s : str) :
  token_free s <-> any_in forbidden (upper_s s) = false.
Proof.
  unfold token_free, free, any_in. split.
  - intros H. apply not_true_is_false. intros E.
    apply existsb_exists in E as [t [Ht E]]. rewrite (H t Ht) in E.
    discriminate.
  - intros H t Ht. apply not_true_is_false. intros E.
    assert (existsb (fun x => contains x (upper_s s)) forbidden = true);
      [|congruence].
    apply existsb_exists. now exists t.
Qed.

Lemma free_lit (t w : str) :
  In t forbidden -> any_in forbidden (upper_s w) = false -> free t w.
Proof. intros Ht H. apply token_free_iff in H. now apply H. Qed.

Lemma sep_upper (t : str) (c : ascii) :
  In t forbidden -> In (Char.upper c) separators -> ~ In (Char.upper c) t.
Proof. intros Ht Hc. now apply forbidden_sep. Qed.

(** A text free of the tokens, set before a text that is free of them and
    does not start with a word character, makes no token: the letters of a
    token cannot reach over the boundary, and two dashes cannot when the
    text on the left does not end with one. *)
Lemma free_word_then (t w' x : str) (z : ascii) :
  In t forbidden -> Char.upper z <> "-"%char ->
  free t (w' ++ [z]) -> free t x ->
  (x = [] \/ exists d y, x = d :: y /\ Char.is_word d = false) ->
  free t ((w' ++ [z]) ++ x).
Proof.
  intros Ht Hz Hw Hx Hhead.
  destruct (forbidden_letters_or_dashes t Ht) as [-> | Hl].
  - rewrite <- app_assoc. simpl. apply free_sep.
    + simpl. intuition congruence.
    + split; [|exact Hx]. now destruct (free_app _ _ _ Hw).
  - destruct Hhead as [-> | [d [y [-> Hd]]]]; [now rewrite app_nil_r|].
    apply free_sep.
    + intros Hin. apply Hl in Hin. rewrite upper_nonword in Hin by assumption.
      discriminate.
    + split; [exact Hw|]. now destruct (free_app t [d] y Hx).
Qed.

(** ** Matchers *)

Lemma span_skipn (p : ascii -> bool) (x : str) :
  skipn (span p x) x = [] \/
  exists d y, skipn (span p x) x = d :: y /\ p d = false.
Proof.
  induction x as [|c x IH]; [now left|]. simpl.
  destruct (p c) eqn:E; [exact IH|]. right. now exists c, x.
Qed.

Lemma startswith_ci_head (k0 c : ascii) (kw s : str) :
  startswith_ci (k0 :: kw) (c :: s) = true ->
  Char.upper c = Char.upper k0.
Proof.
  unfold startswith_ci. simpl. rewrite andb_true_iff, Ascii.eqb_eq.
  intros [H _]. symmetry. now apply lower_eq_upper_eq.
Qed.

Lemma match_clause_pos (kw s : str) : match_clause kw s <> Some 0.
Proof.
  unfold match_clause. destruct (startswith_ci kw s); [|discriminate].
  destruct (0 <? span Char.is_space (skipn (List.length kw) s)) eqn:E;
    [|discriminate].
  apply Nat.ltb_lt in E. destruct (0 <? _); [|discriminate].
  intros [= H]. lia.
Qed.

Lemma match_clause_inv (k0 c : ascii) (kw s : str) (n : nat) :
  match_clause (k0 :: kw) (c :: s) = Some (S n) ->
  Char.upper c = Char.upper k0 /\
  (exists mt, c :: s = mt ++ skipn n s) /\
  (skipn n s = [] \/
   exists d y, skipn n s = d :: y /\ Char.is_word d = false).
Proof.
  unfold match_clause.
  destruct (startswith_ci (k0 :: kw) (c :: s)) eqn:E; [|discriminate].
  set (s1 := skipn (List.length (k0 :: kw)) (c :: s)).
  set (n1 := span Char.is_space s1).
  set (n2 := span Char.is_word (skipn n1 s1)).
  destruct ((0 <? n1) && (0 <? n2)); [|discriminate].
  intros [= H]. split; [now apply startswith_ci_head in E|].
  assert (Hs : skipn n s = skipn n2 (skipn n1 s1)).
  { unfold s1. rewrite !skipn_skipn.
    change (skipn n s) with (skipn (S n) (c :: s)). f_equal. cbn [List.length]. lia. }
  split.
  - exists (firstn (S n) (c :: s)).
    change (skipn n s) with (skipn (S n) (c :: s)).
    now rewrite firstn_skipn.
  - rewrite Hs. apply span_skipn.
Qed.

Lemma match_quoted_pos (k s : str) : match_quoted k s <> Some 0.
Proof.
  unfold match_quoted. destruct s as [|q s]; [discriminate|].
  destruct (_ && _); [|discriminate].
  destruct (skipn _ s) as [|q' ?]; [discriminate|].
  destruct (Char.is_quote q'); [|discriminate]. intros [= H]. lia.
Qed.

Lemma match_quoted_inv (k s : str) (c : ascii) (n : nat) :
  match_quoted k (c :: s) = Some (S n) ->
  Char.is_quote c = true /\ exists mt, c :: s = mt ++ skipn n s.
Proof.
  unfold match_quoted.
  destruct (Char.is_quote c) eqn:E; [|discriminate]. simpl.
  intros _. split; [reflexivity|].
  exists (firstn (S n) (c :: s)).
  change (skipn n s) with (skipn (S n) (c :: s)). now rewrite firstn_skipn.
Qed.

Lemma quote_sep (t : str) (c : ascii) :
  In t forbidden -> Char.is_quote c = true -> ~ In (Char.upper c) t.
Proof.
  intros Ht Hc.
  destruct (forbidden_letters_or_dashes t Ht) as [-> | Hl].
  - revert Hc. each_char c.
  - intros Hin. apply Hl in Hin. revert Hc Hin. each_char c.
Qed.

(** ** Repair engine: no token is introduced *)

Lemma fix_clause_token_free (k0 r0 sp z : ascii) (kw a w' : str) :
  In (Char.upper k0) separators -> In (Char.upper r0) separators ->
  In (Char.upper sp) separators -> Char.upper z <> "-"%char ->
  any_in forbidden (upper_s a) = false ->
  any_in forbidden (upper_s (w' ++ [z])) = false ->
  forall s p, token_free (p ++ s) ->
    token_free (p ++ re_sub (match_clause (k0 :: kw))
                            (r0 :: a ++ sp :: w' ++ [z]) s).
Proof.
  intros Hk Hr Hsp Hz Ha Hw.
  apply (re_sub_free (match_clause (k0 :: kw)) _ token_free).
  - apply match_clause_pos.
  - intros p c s n E H t Ht.
    destruct (match_clause_inv _ _ _ _ _ E) as [Hc [[mt Hmt] Hhead]].
    specialize (H t Ht).
    assert (Hx : free t (skipn n s)).
    { apply free_app in H as [_ H]. rewrite Hmt in H.
      now apply free_app in H. }
    simpl. apply free_splice with (c := c) (s := s); trivial.
    + rewrite Hc. now apply sep_upper.
    + now apply sep_upper.
    + rewrite <- app_assoc. simpl. apply free_sep; [now apply sep_upper|].
      split; [now apply free_lit|].
      apply free_word_then; trivial.
      now apply free_lit.
Qed.

Lemma fix_table_token_free (s : str) :
  token_free s -> token_free (fix_table s).
Proof.
  intros H. unfold fix_table.
  change (lit "FROM") with ("F"%char :: lit "ROM").
  change FROM_TABLE
    with ("F"%char :: lit "ROM" ++ " "%char :: lit "ticketdetail" ++ ["s"%char]).
  apply (fix_clause_token_free "F" "F" " " "s" (lit "ROM") (lit "ROM")
           (lit "ticketdetail")) with (p := []);
    try (vm_compute; tauto); try discriminate; exact H.
Qed.

Lemma fix_where_token_free (s : str) :
  token_free s -> token_free (fix_where s).
Proof.
  intros H. unfold fix_where.
  change (lit "WHERE") with ("W"%char :: lit "HERE").
  change WHERE_STATUS
    with ("W"%char :: lit "HERE" ++ " "%char :: lit "TicketStatu" ++ ["s"%char]).
  apply (fix_clause_token_free "W" "W" " " "s" (lit "HERE") (lit "HERE")
           (lit "TicketStatu")) with (p := []);
    try (vm_compute; tauto); try discriminate; exact H.
Qed.

Lemma fix_status_with_token_free (kv : str * str) (s : str) :
  In kv STATUS_MAP -> token_free s -> token_free (fix_status_with kv s).
Proof.
  intros Hkv H. unfold fix_status_with.
  assert (Hv : any_in forbidden (upper_s (snd kv)) = false).
  { assert (A : forallb (fun kv => negb (any_in forbidden (upper_s (snd kv))))
                        STATUS_MAP = true) by (vm_compute; reflexivity).
    rewrite forallb_forall in A. specialize (A kv Hkv).
    now apply negb_true_iff in A. }
  apply (re_sub_free (match_quoted (fst kv)) _ token_free) with (p := []);
    [apply match_quoted_pos | | exact H].
  clear s H. intros p c s n E H t Ht.
  destruct (match_quoted_inv _ _ _ _ E) as [Hc [mt Hmt]].
  specialize (H t Ht).
  assert (Hx : free t (skipn n s)).
  { apply free_app in H as [_ H]. rewrite Hmt in H. now apply free_app in H. }
  change (lit "'" ++ snd kv ++ lit "'") with ("'"%char :: snd kv ++ lit "'").
  simpl. apply free_splice with (c := c) (s := s); trivial.
  - now apply quote_sep.
  - apply sep_upper; trivial. vm_compute. tauto.
  - rewrite <- app_assoc. simpl. apply free_sep.
    + apply sep_upper; trivial. vm_compute. tauto.
    + split; [now apply free_lit | exact Hx].
Qed.

Lemma fix_status_token_free (s : str) :
  token_free s -> token_free (fix_status s).
Proof.
  unfold fix_status.
  assert (H : forall l, incl l STATUS_MAP -> forall s, token_free s ->
            token_free (fold_left (fun acc kv => fix_status_with kv acc) l s)).
  { induction l as [|kv l IH]; intros Hl s0 H0; [exact H0|]. simpl.
    apply IH; [intros x Hx; apply Hl; now right|].
    apply fix_status_with_token_free; [apply Hl; now left | exact H0]. }
  apply H, incl_refl.
Qed.

Lemma token_free_snoc (a b : str) :
  token_free a -> any_in forbidden (upper_s b) = false ->
  (exists c b', b = c :: b' /\ In (Char.upper c) separators) ->
  token_free (a ++ b).
Proof.
  intros Ha Hb [c [b' [-> Hc]]] t Ht. apply free_sep; [now apply sep_upper|].
  split; [now apply Ha|].
  apply (free_lit t (c :: b') Ht) in Hb.
  now destruct (free_app t [c] b' Hb).
Qed.

Lemma rdrop_while_token_free (p : ascii -> bool) (s : str) :
  token_free s -> token_free (rdrop_while p s).
Proof.
  intros H. destruct (rdrop_while_split p s) as [w [E _]].
  rewrite E in H. now apply token_free_app in H.
Qed.

Lemma ensure_limit_token_free (s : str) :
  token_free s -> token_free (ensure_limit s).
Proof.
  intros H. unfold ensure_limit. destruct (_ && _); [|exact H].
  apply token_free_snoc.
  - now apply rdrop_while_token_free.
  - vm_compute. reflexivity.
  - exists " "%char. eexists. split; [reflexivity|]. vm_compute. tauto.
Qed.

Lemma ensure_semicolon_token_free (s : str) :
  token_free s -> token_free (ensure_semicolon s).
Proof.
  intros H. unfold ensure_semicolon. destruct (negb _); [|exact H].
  apply token_free_snoc; trivial.
  exists ";"%char. eexists. split; [reflexivity|]. vm_compute. tauto.
Qed.

Lemma strip_token_free (s : str) : token_free s -> token_free (strip s).
Proof.
  intros H. destruct (strip_split s) as [w1 [w2 [E _]]].
  rewrite E in H. apply token_free_app in H as [_ H].
  now apply token_free_app in H.
Qed.

(** The repair introduces none of the tokens. *)
Lemma repair_sql_token_free (s : str) :
  token_free s -> token_free (repair_sql s).
Proof.
  intros H. destruct s as [|c s]; [exact H|]. unfold repair_sql.
  now apply ensure_semicolon_token_free, ensure_limit_token_free,
    fix_status_token_free, fix_where_token_free, fix_table_token_free.
Qed.

(** ** Repair engine: the statement still begins with SELECT *)

Lemma space_upper (c : ascii) :
  Char.is_space (Char.upper c) = Char.is_space c.
Proof. each_char c. Qed.

Lemma drop_while_all (p : ascii -> bool) (w x : str) :
  (forall c, In c w -> p c = true) ->
  drop_while p (w ++ x) = drop_while p x.
Proof.
  induction w as [|c w IH]; intros H; [reflexivity|]. simpl.
  rewrite (H c (or_introl eq_refl)). apply IH. intros d Hd. apply H. now right.
Qed.

Lemma lstrip_select_prefixed (w sel rest : str) :
  (forall c, In c w -> Char.is_space c = true) ->
  upper_s sel = lit "SELECT" ->
  lstrip (w ++ sel ++ rest) = sel ++ rest.
Proof.
  intros Hw Hs. destruct (select_shape sel Hs) as [Hl Hlow].
  destruct (select_chars sel Hl Hlow) as [a [pre [z [-> [Ha _]]]]].
  unfold lstrip. rewrite drop_while_all by assumption.
  simpl. now rewrite Ha.
Qed.

Lemma strip_select_prefixed (w sel rest : str) :
  (forall c, In c w -> Char.is_space c = true) ->
  upper_s sel = lit "SELECT" ->
  strip (w ++ sel ++ rest) = sel ++ rstrip rest.
Proof.
  intros Hw Hs. destruct (select_shape sel Hs) as [Hl Hlow].
  destruct (select_chars sel Hl Hlow) as [a [pre [z [-> [Ha [Hz _]]]]]].
  unfold strip, lstrip. rewrite drop_while_all by assumption.
  simpl. rewrite Ha. unfold rstrip.
  replace (a :: (pre ++ [z]) ++ rest) with ((a :: pre) ++ z :: rest)
    by (simpl; rewrite <- app_assoc; reflexivity).
  rewrite rdrop_while_stop by assumption.
  simpl. now rewrite <- app_assoc.
Qed.

Lemma valid_sql_prefixed (s : str) :
  valid_sql s = true -> select_prefixed s /\ token_free s.
Proof.
  intros H. pose proof (proj1 (valid_sql_true s) H) as Hv.
  unfold rejected in Hv. split.
  - destruct (startswith (lit "SELECT") (strip (upper_s s))) eqn:E;
      [|tauto].
    apply startswith_prefix in E as [b E].
    destruct (strip_split (upper_s s)) as [w1 [w2 [Eu [H1 _]]]].
    rewrite E in Eu. unfold upper_s in Eu.
    apply map_eq_app in Eu as [w [r [-> [Ew Er]]]].
    rewrite <- app_assoc in Er.
    apply map_eq_app in Er as [sel [rest [-> [Es _]]]].
    exists w, sel, rest. repeat split; trivial.
    intros c Hc. rewrite <- space_upper. apply H1. rewrite <- Ew.
    now apply in_map.
  - intros t Ht. unfold free.
    destruct (contains t (upper_s s)) eqn:E; trivial.
    exfalso. apply Hv. right. right. exists t. split; trivial.
    now apply occurs_ci_contains.
Qed.

Lemma prefixed_valid_sql (s : str) :
  select_prefixed s -> token_free s -> valid_sql s = true.
Proof.
  intros [w [sel [rest [-> [Hw Hs]]]]] Hf.
  apply valid_sql_true. unfold rejected.
  intros [H | [H | [t [Ht H]]]].
  - destruct (select_shape sel Hs) as [Hl _].
    apply (f_equal (@List.length ascii)) in H.
    rewrite !length_app, Hl in H. simpl in H. lia.
  - rewrite !upper_s_app, strip_select_prefixed in H.
    + rewrite Hs in H. discriminate.
    + intros c Hc. unfold upper_s in Hc. apply in_map_iff in Hc as [d [<- Hd]].
      rewrite space_upper. now apply Hw.
    + unfold upper_s. rewrite map_map, <- Hs. apply map_ext, upper_upper.
  - apply occurs_ci_contains in H. rewrite (Hf t Ht) in H. discriminate.
Qed.


Lemma re_sub_inert (m : matcher) (r l rest : str) :
  (forall c, In c l -> inert m c) ->
  re_sub m r (l ++ rest) = l ++ re_sub m r rest.
Proof.
  induction l as [|c l IH]; intros H; [reflexivity|]. simpl.
  rewrite re_sub_miss by (apply H; now left).
  f_equal. apply IH. intros d Hd. apply H. now right.
Qed.

Lemma re_sub_select_prefixed (m : matcher) (r s : str) :
  (forall c, Char.is_space c = true -> inert m c) ->
  (forall c, In (Char.upper c) (lit "SELECT") -> inert m c) ->
  select_prefixed s -> select_prefixed (re_sub m r s).
Proof.
  intros H1 H2 [w [sel [rest [-> [Hw Hs]]]]].
  exists w, sel, (re_sub m r rest). repeat split; trivial.
  rewrite app_assoc, re_sub_inert, <- app_assoc; [reflexivity|].
  intros c Hc. apply in_app_or in Hc as [Hc | Hc]; [now apply H1, Hw|].
  apply H2. rewrite <- Hs. unfold upper_s. now apply in_map.
Qed.

Lemma match_clause_inert (k0 c : ascii) (kw : str) :
  Char.upper c <> Char.upper k0 -> inert (match_clause (k0 :: kw)) c.
Proof.
  intros H x. unfold match_clause.
  destruct (startswith_ci (k0 :: kw) (c :: x)) eqn:E; [|reflexivity].
  apply startswith_ci_head in E. contradiction.
Qed.

Lemma match_quoted_inert (k : str) (c : ascii) :
  Char.is_quote c = false -> inert (match_quoted k) c.
Proof. intros H x. unfold match_quoted. now rewrite H. Qed.

Lemma space_not_letter (c k : ascii) :
  Char.is_space c = true -> Char.is_upper k = true ->
  Char.upper c <> Char.upper k.
Proof.
  intros Hc Hk E. assert (Char.is_space (Char.upper k) = true)
    by (rewrite <- E, space_upper; exact Hc).
  revert Hk H. clear. each_char k.
Qed.

Lemma fix_clause_select_prefixed (k0 : ascii) (kw r s : str) :
  Char.is_upper k0 = true -> ~ In k0 (lit "SELECT") ->
  select_prefixed s ->
  select_prefixed (re_sub (match_clause (k0 :: kw)) r s).
Proof.
  intros Hk Hn. apply re_sub_select_prefixed; intros c Hc;
    apply match_clause_inert.
  - now apply space_not_letter.
  - intros E. apply Hn. rewrite E in Hc.
    replace (Char.upper k0) with k0 in Hc; trivial.
    revert Hk. clear. each_char k0.
Qed.

Lemma fix_status_select_prefixed (s : str) :
  select_prefixed s -> select_prefixed (fix_status s).
Proof.
  unfold fix_status. generalize STATUS_MAP. intros l. revert s.
  induction l as [|kv l IH]; intros s H; [exact H|]. simpl. apply IH.
  unfold fix_status_with.
  apply re_sub_select_prefixed; trivial; intros c Hc;
    apply match_quoted_inert; revert Hc; clear.
  - each_char c.
  - simpl. each_char c.
Qed.

Lemma append_select_prefixed (s x : str) :
  select_prefixed s -> select_prefixed (s ++ x).
Proof.
  intros [w [sel [rest [-> H]]]]. exists w, sel, (rest ++ x).
  now rewrite <- !app_assoc.
Qed.

Lemma app_around {A} (w pre r : list A) (a z : A) :
  w ++ (a :: pre ++ [z]) ++ r = (w ++ a :: pre) ++ z :: r.
Proof.
  rewrite <- app_assoc. simpl. now rewrite <- app_assoc.
Qed.

Lemma rstrip_semi_select_prefixed (s : str) :
  select_prefixed s -> select_prefixed (rstrip_semi s).
Proof.
  intros [w [sel [rest [-> [Hw Hs]]]]].
  destruct (select_shape sel Hs) as [Hl Hlow].
  destruct (select_chars sel Hl Hlow) as [a [pre [z [E [_ [_ Hz]]]]]].
  exists w, sel, (rstrip_semi rest). repeat split; trivial.
  unfold rstrip_semi. rewrite E, !app_around.
  now apply rdrop_while_stop.
Qed.

Lemma strip_keeps_select_prefixed (s : str) :
  select_prefixed s -> select_prefixed (strip s).
Proof.
  intros [w [sel [rest [-> [Hw Hs]]]]].
  rewrite strip_select_prefixed by assumption.
  exists [], sel, (rstrip rest). repeat split; trivial. intros c [].
Qed.

Lemma repair_sql_select_prefixed (s : str) :
  select_prefixed s -> select_prefixed (repair_sql s).
Proof.
  intros H. destruct s as [|c s]; [exact H|]. unfold repair_sql.
  assert (H1 : select_prefixed (fix_status (fix_where (fix_table (c :: s))))).
  { apply fix_status_select_prefixed.
    apply fix_clause_select_prefixed; [reflexivity | vm_compute; intuition discriminate|].
    apply fix_clause_select_prefixed; [reflexivity | vm_compute; intuition discriminate|].
    exact H. }
  assert (H2 : forall t, select_prefixed t -> select_prefixed (ensure_limit t)).
  { intros t Ht. unfold ensure_limit. destruct (_ && _); [|exact Ht].
    now apply append_select_prefixed, rstrip_semi_select_prefixed. }
  unfold ensure_semicolon. destruct (negb _); [apply append_select_prefixed|];
    now apply H2.
Qed.

(** A statement that passed the validator still passes it once repaired
    and trimmed. *)
Lemma repair_sql_valid (sql : str) :
  valid_sql sql = true ->
  select_prefixed (strip (repair_sql sql)) /\
  token_free (strip (repair_sql sql)).
Proof.
  intros H. apply valid_sql_prefixed in H as [H1 H2]. split.
  - now apply strip_keeps_select_prefixed, repair_sql_select_prefixed.
  - now apply strip_token_free, repair_sql_token_free.
Qed.

(** ** The invariant of generated statements *)

Lemma token_free_occurs (s : str) :
  token_free s <-> forall t, In t forbidden -> ~ occurs_ci t s.
Proof.
  unfold token_free, free.
  split; intros H t Ht; specialize (H t Ht); rewrite occurs_ci_contains in *.
  - now rewrite H.
  - now apply not_true_is_false.
Qed.

Lemma digit_sep (c : ascii) :
  Char.is_digit c = true -> In (Char.upper c) separators.
Proof. each_char c. Qed.

Lemma digits_free (t inc x : str) :
  In t forbidden -> forallb Char.is_digit inc = true ->
  free t x -> free t (inc ++ x).
Proof.
  intros Ht. induction inc as [|d inc IH]; intros Hd Hx; [exact Hx|].
  simpl in Hd. apply andb_true_iff in Hd as [Hd Hi]. simpl.
  destruct (forbidden_shape t Ht) as [Hne _].
  apply free_cons_sep; auto. apply sep_upper; trivial. now apply digit_sep.
Qed.

Lemma fast_intent_valid (q f : str) :
  fast_intent q = Some f -> select_prefixed f /\ token_free f.
Proof.
  intros H. apply fast_intent_some in H as [-> | [-> | [-> | [-> | H]]]];
    try (apply valid_sql_prefixed; vm_compute; reflexivity).
  destruct H as [inc [-> [_ Hd]]]. split.
  - exists [], (lit "SELECT").
    exists (lit " TicketStatus FROM ticketdetails WHERE IncidentID='"
              ++ inc ++ lit "';").
    split; [|split; [intros c [] | reflexivity]].
    reflexivity.
  - intros t Ht. unfold sql_incident.
    change (lit "SELECT TicketStatus FROM " ++ TABLE_NAME ++
            lit " WHERE IncidentID='" ++ inc ++ lit "';")
      with (lit "SELECT TicketStatus FROM ticketdetails WHERE IncidentID="
            ++ "'"%char :: inc ++ lit "';").
    apply free_sep; [apply sep_upper; trivial; vm_compute; tauto|].
    split; [apply free_lit; trivial; vm_compute; reflexivity|].
    apply digits_free; trivial.
    apply free_lit; trivial; vm_compute; reflexivity.
Qed.

Lemma wrapped_valid service (n : nat) (q r : str) :
  fst (generate_sql_wrapped service n q) = Some r ->
  select_prefixed r /\ token_free r.
Proof.
  unfold generate_sql_wrapped.
  destruct (fast_intent q) as [[|c f]|] eqn:F.
  - destruct (call_llm service n (build_prompt q)) as [|a raw];
      [discriminate|].
    destruct (valid_sql (clean_sql (a :: raw))) eqn:V; [|discriminate].
    cbn [negb fst]. intros [= <-]. now apply repair_sql_valid.
  - cbn [fst]. intros [= <-].
    destruct (fast_intent_stripped q _ F) as [_ [_ [_ ->]]].
    now apply (fast_intent_valid q).
  - destruct (call_llm service n (build_prompt q)) as [|a raw];
      [discriminate|].
    destruct (valid_sql (clean_sql (a :: raw))) eqn:V; [|discriminate].
    cbn [negb fst]. intros [= <-]. now apply repair_sql_valid.
Qed.

(** ** Repair engine: every clause is rewritten *)

Lemma match_clause_matches (kw s : str) :
  match_clause kw s = None <-> matches kw s = false.
Proof.
  unfold match_clause, matches, tail_ok.
  destruct (startswith_ci kw s); simpl; [|tauto].
  destruct (_ && _); split; congruence.
Qed.

Lemma space_not_word (c : ascii) :
  Char.is_space c = true -> Char.is_word c = false.
Proof. each_char c. Qed.

Lemma tail_ok_nil : tail_ok [] = false.
Proof. reflexivity. Qed.

Lemma tail_ok_nonspace (c : ascii) (x : str) :
  Char.is_space c = false -> tail_ok (c :: x) = false.
Proof. intros H. unfold tail_ok. simpl. now rewrite H. Qed.

Lemma tail_ok_space (c : ascii) (x : str) :
  Char.is_space c = true -> tail_ok (c :: x) = tail_ok x || head_word x.
Proof.
  intros H. unfold tail_ok. simpl. rewrite H. simpl.
  destruct x as [|d x]; [reflexivity|]. simpl.
  destruct (Char.is_space d) eqn:E; simpl.
  - rewrite (space_not_word d E). now rewrite orb_false_r.
  - destruct (Char.is_word d); reflexivity.
Qed.

Lemma matches_cons (k c : ascii) (kw x : str) :
  matches (k :: kw) (c :: x) =
  Ascii.eqb (Char.lower k) (Char.lower c) && matches kw x.
Proof. unfold matches, startswith_ci. simpl. now rewrite andb_assoc. Qed.

Lemma matches_nil_l (x : str) : matches [] x = tail_ok x.
Proof. reflexivity. Qed.

Lemma matches_nil_r (k : ascii) (kw : str) : matches (k :: kw) [] = false.
Proof. reflexivity. Qed.

Lemma canonical_suffix (m : matcher) (r a b : str) :
  canonical m r (a ++ b) -> canonical m r b.
Proof.
  intros H a' b' n E. apply (H (a ++ a') b' n).
  now rewrite E, app_assoc.
Qed.

(** A text in which every match already reads [r] is left as it is. *)
Lemma canonical_fixed (m : matcher) (r s : str) :
  (forall s, m s <> Some 0) -> canonical m r s -> re_sub m r s = s.
Proof.
  intros H0.
  apply (re_sub_scan m r (fun s out => canonical m r s -> out = s)); trivial.
  - intros c x _ IH H. f_equal. apply IH.
    now apply (canonical_suffix m r [c] x).
  - intros c x n E IH H.
    pose proof (H [] (c :: x) (S n) eq_refl E) as F.
    rewrite IH.
    + rewrite <- F. change (skipn n x) with (skipn (S n) (c :: x)).
      apply firstn_skipn.
    + apply (canonical_suffix m r (firstn (S n) (c :: x))).
      change (skipn n x) with (skipn (S n) (c :: x)).
      now rewrite firstn_skipn.
Qed.

Section Clause.

Variables (k0 r0 : ascii) (kw' r' : str).

Hypothesis k0_letter : Char.is_upper k0 = true.
Hypothesis kw'_other : forall c, In c kw' -> Char.upper c <> k0.
Hypothesis r0_same : Char.upper r0 = k0.
Hypothesis r'_other : forall c, In c r' -> Char.upper c <> k0.
Hypothesis r_matches : forall x,
  (x = [] \/ exists d y, x = d :: y /\ Char.is_word d = false) ->
  match_clause (k0 :: kw') ((r0 :: r') ++ x) = Some (List.length (r0 :: r')).

Let m : matcher := match_clause (k0 :: kw').
Let r : str := r0 :: r'.

Lemma upper_k0 : Char.upper k0 = k0.
Proof. revert k0_letter. clear. each_char k0. Qed.

Lemma other_inert (c : ascii) : Char.upper c <> k0 -> inert m c.
Proof.
  intros H. apply match_clause_inert. now rewrite upper_k0.
Qed.

Lemma same_word (c : ascii) : Char.upper c = k0 -> Char.is_word c = true.
Proof.
  intros H. pose proof k0_letter as L. rewrite <- H in L.
  revert L. clear. each_char c.
Qed.

Lemma same_nonspace (c : ascii) : Char.upper c = k0 -> Char.is_space c = false.
Proof.
  intros H. destruct (Char.is_space c) eqn:E; trivial.
  apply space_not_word in E. now rewrite same_word in E.
Qed.

Lemma hit_head (c : ascii) (s : str) (n : nat) :
  m (c :: s) = Some n -> Char.upper c = k0.
Proof.
  intros H. destruct (Ascii.eqb (Char.upper c) k0) eqn:E.
  - now apply Ascii.eqb_eq.
  - apply Ascii.eqb_neq in E. now rewrite (other_inert c E s) in H.
Qed.

Lemma head_word_re_sub (s : str) :
  head_word (re_sub m r s) = head_word s.
Proof.
  destruct s as [|c s]; [reflexivity|].
  destruct (m (c :: s)) as [[|n]|] eqn:E.
  - now apply match_clause_pos in E.
  - rewrite (re_sub_hit m r c s n E). simpl.
    rewrite (same_word r0 r0_same).
    now rewrite (same_word c (hit_head c s _ E)).
  - now rewrite (re_sub_miss m r c s E).
Qed.

Lemma tail_ok_re_sub (s : str) : tail_ok (re_sub m r s) = tail_ok s.
Proof.
  induction s as [|c s IH]; [reflexivity|].
  destruct (Char.is_space c) eqn:Hc.
  - rewrite re_sub_miss.
    + rewrite !tail_ok_space by assumption.
      now rewrite IH, head_word_re_sub.
    + apply other_inert. intros H. apply same_nonspace in H. congruence.
  - rewrite (tail_ok_nonspace c s Hc).
    destruct (m (c :: s)) as [[|n]|] eqn:E.
    + now apply match_clause_pos in E.
    + rewrite (re_sub_hit m r c s n E). simpl.
      apply tail_ok_nonspace, same_nonspace, r0_same.
    + rewrite (re_sub_miss m r c s E). now apply tail_ok_nonspace.
Qed.

Lemma matches_re_sub (l s : str) :
  (forall c, In c l -> Char.upper c <> k0) ->
  matches l (re_sub m r s) = matches l s.
Proof.
  revert s. induction l as [|k l IH]; intros s Hl.
  - rewrite !matches_nil_l. apply tail_ok_re_sub.
  - destruct s as [|c s]; [reflexivity|].
    assert (Hk : Char.upper k <> k0) by (apply Hl; now left).
    destruct (m (c :: s)) as [[|n]|] eqn:E.
    + now apply match_clause_pos in E.
    + rewrite (re_sub_hit m r c s n E). simpl. rewrite !matches_cons.
      apply hit_head in E.
      assert (A : forall d, Char.upper d = k0 ->
                 Ascii.eqb (Char.lower k) (Char.lower d) = false).
      { intros d Hd. apply Ascii.eqb_neq. intros F.
        apply lower_eq_upper_eq in F. congruence. }
      now rewrite (A r0 r0_same), (A c E).
    + rewrite (re_sub_miss m r c s E), !matches_cons.
      rewrite IH; [reflexivity|]. intros d Hd. apply Hl. now right.
Qed.

(** Where the pattern does not match before the substitution, it does not
    match after it. *)
Lemma miss_re_sub (c : ascii) (s : str) :
  m (c :: s) = None -> m (c :: re_sub m r s) = None.
Proof.
  unfold m. rewrite !match_clause_matches, !matches_cons.
  now rewrite matches_re_sub by exact kw'_other.
Qed.

Lemma rest_re_sub (x : str) :
  (x = [] \/ exists d y, x = d :: y /\ Char.is_word d = false) ->
  re_sub m r x = [] \/
  exists d y, re_sub m r x = d :: y /\ Char.is_word d = false.
Proof.
  intros [-> | [d [y [-> Hd]]]]; [now left|]. right.
  exists d, (re_sub m r y). split; [|exact Hd].
  apply re_sub_miss, other_inert. intros H.
  apply same_word in H. congruence.
Qed.

(** After the substitution every match of the pattern reads as the
    replacement. *)
Lemma re_sub_canonical (s : str) : canonical m r (re_sub m r s).
Proof.
  apply (re_sub_scan m r (fun _ out => canonical m r out)).
  - apply match_clause_pos.
  - intros a b n E. symmetry in E. apply app_eq_nil in E as [_ ->].
    intros H. unfold m, match_clause in H. simpl in H. discriminate.
  - intros c x E IH a b n Eo Hb. destruct a as [|a0 a].
    + simpl in Eo. subst b. now rewrite (miss_re_sub c x E) in Hb.
    + injection Eo as _ Eo. now apply (IH a b n).
  - intros c x n E IH a b n' Eo Hb.
    destruct (match_clause_inv _ _ _ _ _ E) as [_ [_ Hrest]].
    apply rest_re_sub in Hrest.
    apply app_eq_app in Eo as [l [[Ea Eb] | [Ea Eb]]].
    + (* the match starts inside the replacement *)
      destruct a as [|a0 a].
      * cbn [app] in Ea. subst l b.
        pose proof (r_matches _ Hrest) as Hm. fold r m in Hm.
        rewrite Hm in Hb. injection Hb as <-.
        apply firstn_app_exact. reflexivity.
      * destruct l as [|l0 l].
        { simpl in Eb. subst b. now apply (IH [] _ n'). }
        exfalso. subst b. 
        assert (Hl0 : In l0 r').
        { unfold r in Ea. injection Ea as _ Ea. rewrite Ea.
          apply in_or_app. right. now left. }
        simpl in Hb. rewrite (other_inert l0 (r'_other l0 Hl0)) in Hb.
        discriminate.
    + now apply (IH l b n').
Qed.

Lemma re_sub_idempotent (s : str) :
  re_sub m r (re_sub m r s) = re_sub m r s.
Proof.
  apply canonical_fixed; [apply match_clause_pos | apply re_sub_canonical].
Qed.

End Clause.

Lemma span_app_stop (p : ascii -> bool) (l y : str) :
  forallb p l = true ->
  (y = [] \/ exists d y', y = d :: y' /\ p d = false) ->
  span p (l ++ y) = List.length l.
Proof.
  intros Hl Hy. induction l as [|c l IH]; simpl.
  - destruct Hy as [-> | [d [y' [-> Hd]]]]; [reflexivity|]. simpl.
    now rewrite Hd.
  - simpl in Hl. apply andb_true_iff in Hl as [Hc Hl]. rewrite Hc.
    f_equal. now apply IH.
Qed.

Lemma startswith_ci_self (kw y : str) : startswith_ci kw (kw ++ y) = true.
Proof.
  unfold startswith_ci. rewrite lower_s_app. apply startswith_prefix.
  eexists. reflexivity.
Qed.

(** The keyword, spaces and a word, followed by no word character, is
    matched whole. *)
Lemma match_clause_self (kw ws id x : str) (w0 i0 : ascii) (ws' id' : str) :
  ws = w0 :: ws' -> id = i0 :: id' ->
  forallb Char.is_space ws = true -> forallb Char.is_word id = true ->
  (x = [] \/ exists d y, x = d :: y /\ Char.is_word d = false) ->
  match_clause kw (kw ++ ws ++ id ++ x) =
    Some (List.length (kw ++ ws ++ id)).
Proof.
  intros Ews Eid Hws Hid Hx. unfold match_clause.
  rewrite startswith_ci_self.
  rewrite (skipn_app_exact kw _ _ eq_refl).
  assert (S1 : span Char.is_space (ws ++ id ++ x) = List.length ws).
  { apply span_app_stop; trivial. right. subst id. simpl in *.
    exists i0, (id' ++ x). split; [reflexivity|].
    apply andb_true_iff in Hid as [Hi _].
    destruct (Char.is_space i0) eqn:E; trivial.
    apply space_not_word in E. congruence. }
  rewrite S1, (skipn_app_exact ws _ _ eq_refl).
  rewrite (span_app_stop Char.is_word id x Hid Hx).
  replace ((0 <? List.length ws) && (0 <? List.length id)) with true
    by (subst; reflexivity).
  rewrite !length_app. f_equal. lia.
Qed.

Lemma fix_where_canonical (s : str) :
  canonical (match_clause (lit "WHERE")) WHERE_STATUS (fix_where s).
Proof.
  apply (re_sub_canonical "W" "W" (lit "HERE") (lit "HERE TicketStatus")).
  - reflexivity.
  - intros c Hc. simpl in Hc. intuition (subst; discriminate).
  - reflexivity.
  - intros c Hc. simpl in Hc. intuition (subst; discriminate).
  - intros x Hx.
    apply (match_clause_self (lit "WHERE") (lit " ") (lit "TicketStatus") x
             " " "T" [] (lit "icketStatus")); trivial.
Qed.

Lemma fix_table_canonical (s : str) :
  canonical (match_clause (lit "FROM")) FROM_TABLE (fix_table s).
Proof.
  apply (re_sub_canonical "F" "F" (lit "ROM") (lit "ROM ticketdetails")).
  - reflexivity.
  - intros c Hc. simpl in Hc. intuition (subst; discriminate).
  - reflexivity.
  - intros c Hc. simpl in Hc. intuition (subst; discriminate).
  - intros x Hx.
    apply (match_clause_self (lit "FROM") (lit " ") (lit "ticketdetails") x
             " " "t" [] (lit "icketdetails")); trivial.
Qed.

Lemma fix_where_idempotent (s : str) : fix_where (fix_where s) = fix_where s.
Proof.
  apply canonical_fixed; [apply match_clause_pos | apply fix_where_canonical].
Qed.

Lemma fix_table_idempotent (s : str) : fix_table (fix_table s) = fix_table s.
Proof.
  apply canonical_fixed; [apply match_clause_pos | apply fix_table_canonical].
Qed.

(** C6, as the claim words it, fails: the WHERE clause of a subquery is
    rewritten as well. *)
Lemma second_where_is_rewritten :
  let x :=
    lit "SELECT a FROM t WHERE x = 1 AND b IN (SELECT b FROM u WHERE z = 2)" in
  valid_sql x = true /\
  contains (lit "WHERE z") x = true /\
  contains (lit "WHERE z") (repair_sql x) = false /\
  fix_where x <> fix_where_first x /\
  repair_sql x =
    lit "SELECT a FROM ticketdetails WHERE TicketStatus = 1 AND b IN (SELECT b FROM ticketdetails WHERE TicketStatus = 2) LIMIT 50;".
Proof.
  cbv zeta. repeat split; try (vm_compute; reflexivity).
  vm_compute. discriminate.
Qed.

(** ** Repair engine: repairing twice *)

Lemma ensure_limit_fixed (y : str) :
  contains (lit "count(") (lower_s y) = true \/
  contains (lit "limit") (lower_s y) = true ->
  ensure_limit y = y.
Proof.
  intros H. unfold ensure_limit.
  destruct H as [-> | ->]; [reflexivity | now rewrite andb_false_r].
Qed.

Lemma ensure_semicolon_fixed (t : str) :
  ensure_semicolon (t ++ lit ";") = t ++ lit ";".
Proof.
  unfold ensure_semicolon. change (lit ";") with [";"%char].
  rewrite strip_keeps_last by reflexivity.
  now rewrite endswith_last.
Qed.

Lemma ensure_semicolon_idempotent (t : str) :
  ensure_semicolon (ensure_semicolon t) = ensure_semicolon t.
Proof.
  destruct (ensure_semicolon_cases t) as [E | E]; rewrite E.
  - exact E.
  - apply ensure_semicolon_fixed.
Qed.

Lemma ensure_limit_kept (t : str) :
  contains (lit "count(") (lower_s (ensure_semicolon (ensure_limit t))) = true \/
  contains (lit "limit") (lower_s (ensure_semicolon (ensure_limit t))) = true.
Proof.
  assert (A : forall u k, contains k (lower_s u) = true ->
                contains k (lower_s (ensure_semicolon u)) = true).
  { intros u k H. destruct (ensure_semicolon_cases u) as [-> | ->]; trivial.
    rewrite lower_s_app. now apply contains_app_l. }
  unfold ensure_limit.
  destruct (contains (lit "count(") (lower_s t)) eqn:C; cbn [negb andb].
  - left. now apply A.
  - destruct (contains (lit "limit") (lower_s t)) eqn:L; cbn [negb andb].
    + right. now apply A.
    + right. apply A. rewrite lower_s_app. apply contains_app_r.
      vm_compute. reflexivity.
Qed.

(** The cap and the terminator are set once: applied to their own result,
    the last two steps change nothing. *)
Lemma cap_and_terminator_idempotent (t : str) :
  ensure_semicolon (ensure_limit (ensure_semicolon (ensure_limit t))) =
  ensure_semicolon (ensure_limit t).
Proof.
  rewrite (ensure_limit_fixed _ (ensure_limit_kept t)).
  apply ensure_semicolon_idempotent.
Qed.

(** C8, as the claim words it, fails: a status phrase can stand between the
    closing quote of one literal and a later quote; the first repair turns
    that quote into the closing quote of [New], and the second repair finds
    the phrase between two quotes. *)
Lemma repair_sql_twice_differs :
  let x := lit "SELECT 'open'open' FROM t" in
  valid_sql x = true /\
  repair_sql x = lit "SELECT 'New'open' FROM ticketdetails LIMIT 50;" /\
  repair_sql (repair_sql x) =
    lit "SELECT 'New'New' FROM ticketdetails LIMIT 50;" /\
  repair_sql (repair_sql x) <> repair_sql x.
Proof.
  cbv zeta. repeat split; try (vm_compute; reflexivity).
  vm_compute. discriminate.
Qed.

Lemma span_app (p : ascii -> bool) (l y : str) :
  span p (l ++ y) =
  if forallb p l then List.length l + span p y else span p l.
Proof.
  induction l as [|c l IH]; [reflexivity|]. simpl.
  destruct (p c); [|reflexivity]. simpl. rewrite IH.
  now destruct (forallb p l).
Qed.

Lemma span_le (p : ascii -> bool) (l : str) : span p l <= List.length l.
Proof.
  induction l as [|c l IH]; simpl; [lia|]. destruct (p c); simpl; lia.
Qed.

Lemma span_all (p : ascii -> bool) (l : str) :
  forallb p l = true -> span p l = List.length l.
Proof.
  induction l as [|c l IH]; [reflexivity|]. simpl.
  destruct (p c); [|discriminate]. simpl. intros H. f_equal. now apply IH.
Qed.

Lemma span_not_all (p : ascii -> bool) (l : str) :
  forallb p l = false -> span p l < List.length l.
Proof.
  induction l as [|c l IH]; [discriminate|]. simpl.
  destruct (p c); simpl; [|lia]. intros H. apply IH in H. lia.
Qed.

Lemma span_head (p : ascii -> bool) (c : ascii) (y : str) :
  p c = false -> span p (c :: y) = 0.
Proof. intros H. simpl. now rewrite H. Qed.

Lemma startswith_ci_foreign (kw l rest : str) (c : ascii) :
  ~ In (Char.lower c) (lower_s kw) ->
  startswith_ci kw (l ++ c :: rest) = startswith_ci kw l.
Proof.
  intros H. unfold startswith_ci. rewrite lower_s_app. simpl.
  now apply startswith_sep.
Qed.

Lemma match_clause_le (kw s : str) (n : nat) :
  match_clause kw s = Some n -> n <= List.length s.
Proof.
  unfold match_clause.
  destruct (startswith_ci kw s) eqn:E; [|discriminate].
  destruct (startswith_ci_split _ _ E) as [k [t [-> [Hk _]]]].
  rewrite (skipn_app_exact k t _ Hk).
  destruct (_ && _); [|discriminate]. intros [= <-].
  pose proof (span_le Char.is_space t).
  pose proof (span_le Char.is_word (skipn (span Char.is_space t) t)).
  rewrite length_skipn in *. rewrite length_app. lia.
Qed.

(** The pattern sees of the text after [l] only whether it starts with a
    word character, as long as that text starts with no space and with no
    character of the keyword: the match either ends within [l], the same
    on both sides, or runs over the end of [l] on both sides. *)
Lemma match_clause_boundary (kw l rest rest' : str) (c c' : ascii) :
  ~ In (Char.lower c) (lower_s kw) -> ~ In (Char.lower c') (lower_s kw) ->
  Char.is_space c = false -> Char.is_space c' = false ->
  Char.is_word c = Char.is_word c' ->
  match match_clause kw (l ++ c :: rest),
        match_clause kw (l ++ c' :: rest') with
  | None, None => True
  | Some n, Some n' =>
      (n <= List.length l /\ n' = n) \/
      (List.length l < n /\ List.length l < n')
  | _, _ => False
  end.
Proof.
  intros Hf Hf' Hs Hs' Hw. unfold match_clause.
  rewrite !startswith_ci_foreign by assumption.
  destruct (startswith_ci kw l) eqn:E; [|exact I].
  destruct (startswith_ci_split _ _ E) as [k [l1 [-> [Hk _]]]].
  rewrite <- !app_assoc, !(skipn_app_exact k _ _ Hk), !span_app.
  rewrite !length_app, Hk.
  destruct (forallb Char.is_space l1) eqn:A1.
  - rewrite !span_head by assumption. rewrite !Nat.add_0_r.
    rewrite !(skipn_app_exact l1 _ _ eq_refl).
    simpl span. rewrite <- Hw.
    destruct (Char.is_word c); [|now rewrite !andb_false_r].
    destruct (0 <? List.length l1) eqn:L; simpl; [|exact I].
    right. lia.
  - pose proof (span_not_all _ _ A1) as Hj.
    set (j := span Char.is_space l1) in *.
    rewrite !skipn_app_le by lia. rewrite !span_app.
    assert (Hl2 : List.length (skipn j l1) = List.length l1 - j)
      by apply length_skipn.
    destruct (forallb Char.is_word (skipn j l1)) eqn:A2.
    + simpl span. rewrite <- Hw. destruct (Char.is_word c).
      * destruct (0 <? j); simpl; [|exact I].
        replace (0 <? List.length (skipn j l1) + S (span Char.is_word rest))
          with true by (symmetry; apply Nat.ltb_lt; lia).
        replace (0 <? List.length (skipn j l1) + S (span Char.is_word rest'))
          with true by (symmetry; apply Nat.ltb_lt; lia).
        right. lia.
      * rewrite !Nat.add_0_r. destruct (_ && _); [|exact I]. left. lia.
    + pose proof (span_not_all _ _ A2).
      destruct (_ && _); [|exact I]. left. lia.
Qed.

(** One replacement keeps the matches of another clause pattern as they
    read: the replaced text and the replacement start on characters that
    the pattern cannot tell apart, the replacement holds no match, and the
    canonical clause does not contain the first character of the replaced
    text. *)
Lemma canonical_splice (kw r1 p M' R' x : str) (c c' : ascii) :
  ~ In (Char.lower c) (lower_s kw) -> ~ In (Char.lower c') (lower_s kw) ->
  Char.is_space c = false -> Char.is_space c' = false ->
  Char.is_word c = Char.is_word c' ->
  ~ In c r1 ->
  (forall l l' y, c' :: R' = l ++ l' -> l' <> [] ->
     match_clause kw (l' ++ y) = None) ->
  canonical (match_clause kw) r1 (p ++ (c :: M') ++ x) ->
  canonical (match_clause kw) r1 (p ++ (c' :: R') ++ x).
Proof.
  intros Hf Hf' Hs Hs' Hw Hc HR Hz a b n Eo Hb.
  apply app_eq_app in Eo as [l [[Ep Eb] | [Ea Eb]]].
  - (* the match starts in [p] *)
    destruct l as [|l0 l].
    { cbn [app] in Eb. subst b.
      pose proof (HR [] (c' :: R') x eq_refl) as N. cbn [app] in N, Hb.
      rewrite N in Hb; discriminate. }
    subst b p. rewrite <- app_assoc in Hz.
    pose proof (match_clause_boundary kw (l0 :: l) (M' ++ x) (R' ++ x)
                  c c' Hf Hf' Hs Hs' Hw) as B.
    change ((c' :: R') ++ x) with (c' :: R' ++ x) in Hb.
    rewrite Hb in B.
    destruct (match_clause kw ((l0 :: l) ++ c :: M' ++ x)) as [n0|] eqn:E0;
      [|contradiction].
    pose proof (Hz a _ n0 eq_refl E0) as F.
    destruct B as [[Hle ->] | [Hlt _]].
    + rewrite firstn_app in F |- *.
      replace (n0 - List.length (l0 :: l)) with 0 in * by lia.
      exact F.
    + exfalso. apply Hc. rewrite <- F.
      rewrite firstn_app, firstn_all2 by lia.
      apply in_or_app. right.
      destruct (n0 - List.length (l0 :: l)) eqn:D; [lia|]. now left.
  - (* the match starts in the replacement or after it *)
    apply app_eq_app in Eb as [l2 [[ER Eb] | [El Ex]]].
    + destruct l2 as [|d l2].
      * simpl in Eb. subst b. apply (Hz (p ++ c :: M') x n); trivial.
        now rewrite <- app_assoc.
      * subst b. rewrite (HR l (d :: l2) x ER) in Hb; discriminate.
    + subst x. apply (Hz (p ++ (c :: M') ++ l2) b n); trivial.
      now rewrite <- !app_assoc.
Qed.

Lemma canonical_re_sub (kw r1 : str) (m2 : matcher) (c' : ascii) (R' : str)
      (cls : ascii -> Prop) :
  (forall s, m2 s <> Some 0) ->
  (forall c s n, m2 (c :: s) = Some n -> cls c) ->
  (forall c, cls c ->
     ~ In (Char.lower c) (lower_s kw) /\ Char.is_space c = false /\
     Char.is_word c = Char.is_word c' /\ ~ In c r1) ->
  cls c' ->
  (forall l l' y, c' :: R' = l ++ l' -> l' <> [] ->
     match_clause kw (l' ++ y) = None) ->
  forall s, canonical (match_clause kw) r1 s ->
    canonical (match_clause kw) r1 (re_sub m2 (c' :: R') s).
Proof.
  intros H0 Hcls Hprop Hc' HR s H.
  apply (re_sub_free m2 (c' :: R') (canonical (match_clause kw) r1) H0)
    with (p := []); [|exact H].
  clear s H. intros p c s n E H.
  destruct (Hprop c (Hcls c s _ E)) as [A1 [A2 [A3 A4]]].
  destruct (Hprop c' Hc') as [B1 [B2 _]].
  apply (canonical_splice kw r1 p (firstn n s) R' (skipn n s) c c'); trivial.
  simpl. now rewrite firstn_skipn.
Qed.

Lemma no_match_inside (kw R : str) (k0 : ascii) (kw' : str) :
  kw = k0 :: kw' ->
  (forall d, In d R -> Char.upper d <> Char.upper k0) ->
  forall l l' y, R = l ++ l' -> l' <> [] -> match_clause kw (l' ++ y) = None.
Proof.
  intros -> H l l' y -> Hl'. destruct l' as [|d l']; [congruence|].
  simpl. apply match_clause_inert. apply H. apply in_or_app. right. now left.
Qed.

(** The column step keeps the FROM clauses canonical. *)
Lemma fix_where_keeps_table (s : str) :
  canonical (match_clause (lit "FROM")) FROM_TABLE s ->
  canonical (match_clause (lit "FROM")) FROM_TABLE (fix_where s).
Proof.
  unfold fix_where.
  change WHERE_STATUS with ("W"%char :: lit "HERE TicketStatus").
  apply canonical_re_sub with (cls := fun c => Char.upper c = "W"%char).
  - apply match_clause_pos.
  - intros c s0 n E. change (lit "WHERE") with ("W"%char :: lit "HERE") in E.
    destruct (Ascii.eqb (Char.upper c) "W") eqn:D;
      [now apply Ascii.eqb_eq in D|].
    apply Ascii.eqb_neq in D.
    now rewrite (match_clause_inert "W" c (lit "HERE") D s0) in E.
  - intros c Hc. revert Hc. clear.
    each_char c; intros _; repeat split; intuition discriminate.
  - reflexivity.
  - apply (no_match_inside (lit "FROM") _ "F" (lit "ROM") eq_refl).
    intros d Hd. simpl in Hd. intuition (subst; discriminate).
Qed.

Lemma match_quoted_head (k s : str) (c : ascii) (n : nat) :
  match_quoted k (c :: s) = Some n -> is_quote_char c.
Proof.
  unfold match_quoted, is_quote_char.
  destruct (Char.is_quote c); [reflexivity | discriminate].
Qed.

Lemma quote_boundary (kw r1 : str) (c : ascii) :
  forallb Char.is_word kw = true ->
  forallb (fun d => negb (Char.is_quote d)) r1 = true ->
  is_quote_char c ->
  ~ In (Char.lower c) (lower_s kw) /\ Char.is_space c = false /\
  Char.is_word c = Char.is_word "'" /\ ~ In c r1.
Proof.
  intros Hkw Hr1 Hc. unfold is_quote_char in Hc. repeat split.
  - intros H. unfold lower_s in H. apply in_map_iff in H as [d [E Hd]].
    rewrite forallb_forall in Hkw. specialize (Hkw d Hd).
    assert (Q : Char.is_quote (Char.lower d) = true).
    { rewrite E. revert Hc. clear. each_char c. }
    revert Q Hkw. clear. each_char d.
  - revert Hc. clear. each_char c.
  - revert Hc. clear. each_char c.
  - intros H. rewrite forallb_forall in Hr1. specialize (Hr1 c H).
    rewrite Hc in Hr1. discriminate.
Qed.

Lemma mismatch_startswith (kw s y : str) :
  mismatch kw s = true -> startswith_ci kw (s ++ y) = false.
Proof.
  unfold startswith_ci. revert s.
  induction kw as [|k kw IH]; intros [|d s]; simpl; try discriminate.
  destruct (Ascii.eqb (Char.lower k) (Char.lower d)); simpl; [|reflexivity].
  apply IH.
Qed.

Lemma all_tails_spec (f : str -> bool) (s l l' : str) :
  all_tails f s = true -> s = l ++ l' -> l' <> [] -> f l' = true.
Proof.
  revert s. induction l as [|c l IH]; intros s H -> Hl'.
  - destruct l' as [|d l']; [congruence|]. simpl in H.
    now apply andb_true_iff in H.
  - simpl in H. apply andb_true_iff in H as [_ H]. now apply (IH (l ++ l')).
Qed.

Lemma mismatch_inside (kw R : str) :
  all_tails (mismatch kw) R = true ->
  forall l l' y, R = l ++ l' -> l' <> [] -> match_clause kw (l' ++ y) = None.
Proof.
  intros H l l' y E Hl'. unfold match_clause.
  now rewrite (mismatch_startswith kw l' y (all_tails_spec _ R l l' H E Hl')).
Qed.

(** A status step keeps the clauses of [kw] canonical. *)
Lemma fix_status_with_keeps (kw r1 : str) (kv : str * str) (s : str) :
  forallb Char.is_word kw = true ->
  forallb (fun d => negb (Char.is_quote d)) r1 = true ->
  all_tails (mismatch kw) ("'"%char :: snd kv ++ lit "'") = true ->
  canonical (match_clause kw) r1 s ->
  canonical (match_clause kw) r1 (fix_status_with kv s).
Proof.
  intros Hkw Hr1 Hm. unfold fix_status_with.
  change (lit "'" ++ snd kv ++ lit "'") with ("'"%char :: snd kv ++ lit "'").
  apply canonical_re_sub with (cls := is_quote_char).
  - apply match_quoted_pos.
  - intros c s0 n. apply match_quoted_head.
  - intros c. now apply quote_boundary.
  - reflexivity.
  - now apply mismatch_inside.
Qed.

Lemma fix_status_keeps (kw r1 : str) (s : str) :
  forallb Char.is_word kw = true ->
  forallb (fun d => negb (Char.is_quote d)) r1 = true ->
  forallb (fun kv => all_tails (mismatch kw) ("'"%char :: snd kv ++ lit "'"))
          STATUS_MAP = true ->
  canonical (match_clause kw) r1 s ->
  canonical (match_clause kw) r1 (fix_status s).
Proof.
  intros Hkw Hr1 Hall. unfold fix_status. revert Hall s.
  generalize STATUS_MAP. induction l as [|kv l IH]; intros Hall s H;
    [exact H|].
  simpl in Hall. apply andb_true_iff in Hall as [Hkv Hl]. simpl.
  apply IH; trivial. now apply fix_status_with_keeps.
Qed.

(** What the three rewriting steps leave is a fixed point of the table step
    and of the column step. *)
Lemma rewritten_table_fixed (x : str) :
  let t := fix_status (fix_where (fix_table x)) in fix_table t = t.
Proof.
  intros t. apply canonical_fixed; [apply match_clause_pos|].
  apply fix_status_keeps; try (vm_compute; reflexivity).
  apply fix_where_keeps_table, fix_table_canonical.
Qed.

Lemma rewritten_where_fixed (x : str) :
  let t := fix_status (fix_where (fix_table x)) in fix_where t = t.
Proof.
  intros t. apply canonical_fixed; [apply match_clause_pos|].
  apply fix_status_keeps; try (vm_compute; reflexivity).
  apply fix_where_canonical.
Qed.

(** ** Substitution and what follows the text *)

Lemma re_sub_app_tail (m : matcher) (r : str) (R : str) :
  (forall s, m s <> Some 0) ->
  (forall s n, m s = Some n -> n <= List.length s) ->
  re_sub m r R = R ->
  forall p,
    (forall a l, p = a ++ l -> l <> [] -> m (l ++ R) = m l) ->
    re_sub m r (p ++ R) = re_sub m r p ++ R.
Proof.
  intros H0 Hle HR p.
  remember (List.length p) as k eqn:Hk. revert p Hk.
  induction k as [k IH] using lt_wf_ind. intros p Hk H1.
  destruct p as [|c p]; [exact HR|].
  pose proof (H1 [] (c :: p) eq_refl) as E.
  assert (Hne : c :: p <> []) by discriminate. specialize (E Hne).
  change ((c :: p) ++ R) with (c :: p ++ R) in *.
  destruct (m (c :: p)) as [[|n]|] eqn:M.
  - now apply H0 in M.
  - rewrite (re_sub_hit m r c (p ++ R) n E), (re_sub_hit m r c p n M).
    apply Hle in M. simpl in M.
    rewrite skipn_app_le by lia. rewrite <- app_assoc. f_equal.
    apply (IH (List.length (skipn n p))); trivial.
    + subst k. simpl. rewrite length_skipn. lia.
    + intros a l Ea Hl. apply (H1 (c :: firstn n p ++ a)); trivial.
      simpl. rewrite <- app_assoc, <- Ea. now rewrite firstn_skipn.
  - rewrite (re_sub_miss m r c (p ++ R) E), (re_sub_miss m r c p M).
    simpl. f_equal. apply (IH (List.length p)); trivial.
    + subst k. simpl. lia.
    + intros a l Ea Hl. apply (H1 (c :: a)); trivial. simpl. now rewrite Ea.
Qed.

Lemma dangles_suffix (kw a l : str) :
  dangles kw (a ++ l) = false -> dangling kw l = false.
Proof.
  induction a as [|c a IH]; simpl.
  - destruct l; simpl; intros H; apply orb_false_iff in H; tauto.
  - intros H. apply orb_false_iff in H as [_ H]. now apply IH.
Qed.

Lemma span_app_stop_head (p : ascii -> bool) (l t : str) (d : ascii) :
  p d = false -> span p (l ++ d :: t) = span p l.
Proof.
  intros H. rewrite span_app, span_head by assumption.
  destruct (forallb p l) eqn:A; [|reflexivity].
  rewrite Nat.add_0_r. symmetry. now apply span_all.
Qed.

(** Text appended after [l] does not change the match at the head of [l]
    when it starts with a character that is neither a word character nor a
    letter of the keyword and, if that character is a space, [l] is not a
    dangling keyword. *)
Lemma match_clause_tail (kw l R' : str) (d : ascii) :
  Char.is_word d = false -> ~ In (Char.lower d) (lower_s kw) ->
  (Char.is_space d = false \/ dangling kw l = false) ->
  match_clause kw (l ++ d :: R') = match_clause kw l.
Proof.
  intros Hw Hf Hd. unfold match_clause.
  rewrite startswith_ci_foreign by assumption.
  destruct (startswith_ci kw l) eqn:E; [|reflexivity].
  destruct (startswith_ci_split _ _ E) as [k [l1 [-> [Hk _]]]].
  rewrite <- app_assoc, !(skipn_app_exact k _ _ Hk).
  destruct (forallb Char.is_space l1) eqn:A1.
  - assert (Hsp : Char.is_space d = false).
    { destruct Hd as [Hd | Hd]; trivial. unfold dangling in Hd.
      rewrite E, (skipn_app_exact k _ _ Hk), A1 in Hd. discriminate. }
    rewrite span_app_stop_head by assumption.
    rewrite (span_all _ _ A1), (skipn_app_exact l1 _ _ eq_refl), skipn_all.
    rewrite span_head by assumption. simpl. now rewrite !andb_false_r.
  - rewrite span_app, A1. pose proof (span_not_all _ _ A1).
    rewrite skipn_app_le by lia.
    now rewrite span_app_stop_head by assumption.
Qed.

Lemma match_quoted_le (k s : str) (n : nat) :
  match_quoted k s = Some n -> n <= List.length s.
Proof.
  unfold match_quoted. destruct s as [|q s]; [discriminate|].
  destruct (_ && _); [|discriminate].
  destruct (skipn (List.length k) s) as [|q' t] eqn:E; [discriminate|].
  destruct (Char.is_quote q'); [|discriminate]. intros [= <-].
  apply (f_equal (@List.length ascii)) in E. rewrite length_skipn in E.
  simpl in *. lia.
Qed.

(** Text without quotes appended after [l] does not change the match of a
    quoted phrase at the head of [l]. *)
Lemma match_quoted_tail (k l R : str) :
  forallb (fun d => negb (Char.is_quote d)) R = true ->
  match_quoted k (l ++ R) = match_quoted k l.
Proof.
  intros HR. destruct l as [|q s].
  - simpl. destruct R as [|d R]; [reflexivity|]. simpl in HR.
    apply andb_true_iff in HR as [Hd _]. apply negb_true_iff in Hd.
    unfold match_quoted. now rewrite Hd.
  - change ((q :: s) ++ R) with (q :: s ++ R). unfold match_quoted.
    destruct (Char.is_quote q); [|reflexivity]. cbn [andb].
    destruct (Nat.lt_ge_cases (List.length k) (List.length s)) as [Hlt | Hge].
    + unfold startswith_ci. rewrite lower_s_app.
      rewrite startswith_app_long
        by (unfold lower_s; rewrite !length_map; lia).
      rewrite skipn_app_le by lia.
      destruct (skipn (List.length k) s) as [|q' t] eqn:E; [|reflexivity].
      apply (f_equal (@List.length ascii)) in E. rewrite length_skipn in E.
      simpl in E. lia.
    + rewrite (skipn_all2 s) by lia. rewrite skipn_app.
      rewrite (skipn_all2 s) by lia. simpl.
      destruct (skipn (List.length k - List.length s) R) as [|q' t] eqn:E.
      * now destruct (startswith_ci k s), (startswith_ci k (s ++ R)).
      * assert (Hq : Char.is_quote q' = false).
        { rewrite forallb_forall in HR.
          assert (In q' R).
          { rewrite <- (firstn_skipn (List.length k - List.length s) R).
            apply in_or_app. right. rewrite E. now left. }
          specialize (HR q' H). now apply negb_true_iff in HR. }
        rewrite Hq.
        now destruct (startswith_ci k s), (startswith_ci k (s ++ R)).
Qed.

(** A step that leaves [t] as it is leaves the three forms of the repaired
    statement as they are: [t] itself, [t] closed with a semicolon, and [t]
    capped. *)
Lemma stage_fixed (m : matcher) (r t : str) :
  (forall s, m s <> Some 0) ->
  (forall s n, m s = Some n -> n <= List.length s) ->
  (forall c, In c (lit " LIMIT 50;") -> inert m c) ->
  (forall l R, (forall c, In c R -> Ascii.eqb ";"%char c = true) ->
     m (l ++ R) = m l) ->
  (forall a l, rstrip_semi t = a ++ l -> l <> [] ->
     m (l ++ lit " LIMIT 50;") = m l) ->
  re_sub m r t = t ->
  re_sub m r (t ++ lit ";") = t ++ lit ";" /\
  re_sub m r (rstrip_semi t ++ lit " LIMIT 50;") =
    rstrip_semi t ++ lit " LIMIT 50;".
Proof.
  intros H0 Hle Hin Ht1 Ht2 Hfix.
  assert (Hinert : forall R, (forall c, In c R -> In c (lit " LIMIT 50;")) ->
                     re_sub m r R = R).
  { intros R HR. rewrite <- (app_nil_r R) at 1.
    rewrite re_sub_inert; [now rewrite app_nil_r|].
    intros c Hc. now apply Hin, HR. }
  assert (Hsemi : forall R, (forall c, In c R -> Ascii.eqb ";"%char c = true) ->
                    forall c, In c R -> In c (lit " LIMIT 50;")).
  { intros R HR c Hc. apply HR, Ascii.eqb_eq in Hc. subst c.
    simpl. tauto. }
  split.
  - rewrite re_sub_app_tail; trivial.
    + now rewrite Hfix.
    + apply Hinert. intros c [<- | []]. simpl. tauto.
    + intros a l _ _. apply Ht1. intros c [<- | []]. reflexivity.
  - destruct (rdrop_while_split (Ascii.eqb ";"%char) t) as [w [Ew Hw]].
    fold (rstrip_semi t) in Ew.
    assert (Hcore : re_sub m r (rstrip_semi t) = rstrip_semi t).
    { rewrite Ew in Hfix at 1.
      rewrite re_sub_app_tail in Hfix; trivial.
      - rewrite Ew in Hfix at 2. now apply app_inv_tail in Hfix.
      - apply Hinert. now apply Hsemi.
      - intros a l _ _. now apply Ht1. }
    rewrite re_sub_app_tail; trivial.
    + now rewrite Hcore.
    + now apply Hinert.
Qed.

Lemma clause_stage_fixed (k0 : ascii) (kw' r t : str) :
  Char.is_upper k0 = true ->
  ~ In k0 (lit "LIMIT") ->
  forallb Char.is_word (k0 :: kw') = true ->
  dangles (k0 :: kw') (rstrip_semi t) = false ->
  re_sub (match_clause (k0 :: kw')) r t = t ->
  re_sub (match_clause (k0 :: kw')) r (t ++ lit ";") = t ++ lit ";" /\
  re_sub (match_clause (k0 :: kw')) r (rstrip_semi t ++ lit " LIMIT 50;") =
    rstrip_semi t ++ lit " LIMIT 50;".
Proof.
  intros Hk Hn Hkw Hd.
  assert (Hforeign : forall d, Char.is_word d = false ->
            ~ In (Char.lower d) (lower_s (k0 :: kw'))).
  { intros d Hw H. unfold lower_s in H. apply in_map_iff in H as [e [E He]].
    rewrite forallb_forall in Hkw. specialize (Hkw e He).
    assert (W : Char.is_word (Char.lower e) = false).
    { rewrite E. revert Hw. clear. each_char d. }
    revert Hkw W. clear. each_char e. }
  apply stage_fixed.
  - apply match_clause_pos.
  - apply match_clause_le.
  - intros c Hc. apply match_clause_inert. intros E. apply Hn.
    replace (Char.upper k0) with k0 in E by (revert Hk; clear; each_char k0).
    subst k0. clear - Hc Hk. simpl in Hc.
    repeat (destruct Hc as [<- | Hc];
            [vm_compute in Hk;
             first [discriminate Hk | vm_compute; tauto]|]).
    contradiction.
  - intros l [|d R'] HR; [now rewrite app_nil_r|].
    assert (d = ";"%char) as ->.
    { symmetry. apply Ascii.eqb_eq, HR. now left. }
    apply match_clause_tail; [reflexivity | now apply Hforeign | now left].
  - intros a l E Hl. apply match_clause_tail;
      [reflexivity | now apply Hforeign | right].
    rewrite E in Hd. now apply dangles_suffix in Hd.
Qed.

Lemma quoted_stage_fixed (k r t : str) :
  re_sub (match_quoted k) r t = t ->
  re_sub (match_quoted k) r (t ++ lit ";") = t ++ lit ";" /\
  re_sub (match_quoted k) r (rstrip_semi t ++ lit " LIMIT 50;") =
    rstrip_semi t ++ lit " LIMIT 50;".
Proof.
  apply stage_fixed.
  - apply match_quoted_pos.
  - apply match_quoted_le.
  - intros c Hc. apply match_quoted_inert. revert Hc. clear.
    simpl. intuition (subst; reflexivity).
  - intros l R HR. apply match_quoted_tail. apply forallb_forall.
    intros c Hc. apply HR, Ascii.eqb_eq in Hc. now subst c.
  - intros a l _ _. now apply match_quoted_tail.
Qed.

Lemma repair_sql_forms (x : str) :
  let t := fix_status (fix_where (fix_table x)) in
  x <> [] ->
  repair_sql x = ensure_semicolon (ensure_limit t) /\
  (repair_sql x = t \/ repair_sql x = t ++ lit ";" \/
   repair_sql x = rstrip_semi t ++ lit " LIMIT 50;").
Proof.
  intros t Hx.
  assert (E : repair_sql x = ensure_semicolon (ensure_limit t))
    by (destruct x; [congruence | reflexivity]).
  split; [exact E|]. rewrite E. unfold ensure_limit.
  destruct (_ && _).
  - right. right. apply ensure_semicolon_capped.
  - destruct (ensure_semicolon_cases t) as [-> | ->]; auto.
Qed.

Lemma fix_status_fixed (y : str) :
  (forall kv, In kv STATUS_MAP -> fix_status_with kv y = y) ->
  fix_status y = y.
Proof.
  unfold fix_status. generalize STATUS_MAP.
  induction l as [|kv l IH]; intros H; [reflexivity|]. simpl.
  rewrite (H kv (or_introl eq_refl)). apply IH.
  intros kv' Hkv'. apply H. now right.
Qed.

Lemma repair_sql_twice (x : str) :
  let t := fix_status (fix_where (fix_table x)) in
  (forall kv, In kv STATUS_MAP -> fix_status_with kv t = t) ->
  dangles (lit "FROM") (rstrip_semi t) = false ->
  dangles (lit "WHERE") (rstrip_semi t) = false ->
  repair_sql (repair_sql x) = repair_sql x.
Proof.
  intros t Hs HdF HdW.
  assert (Hx : x = [] \/ x <> [])
    by (destruct x; [left | right]; congruence).
  destruct Hx as [Hx | Hx]; [now rewrite Hx|].
  destruct (repair_sql_forms x Hx) as [E Hforms]. fold t in E, Hforms.
  set (y := repair_sql x) in *.
  assert (HF : fix_table y = y).
  { pose proof (rewritten_table_fixed x) as Ht. cbv zeta in Ht. fold t in Ht.
    assert (Hn : ~ In "F"%char (lit "LIMIT"))
      by (vm_compute; intuition discriminate).
    destruct (clause_stage_fixed "F" (lit "ROM") FROM_TABLE t
                eq_refl Hn eq_refl HdF Ht) as [A B].
    destruct Hforms as [-> | [-> | ->]]; assumption. }
  assert (HW : fix_where y = y).
  { pose proof (rewritten_where_fixed x) as Ht. cbv zeta in Ht. fold t in Ht.
    assert (Hn : ~ In "W"%char (lit "LIMIT"))
      by (vm_compute; intuition discriminate).
    destruct (clause_stage_fixed "W" (lit "HERE") WHERE_STATUS t
                eq_refl Hn eq_refl HdW Ht) as [A B].
    destruct Hforms as [-> | [-> | ->]]; assumption. }
  assert (HS : fix_status y = y).
  { apply fix_status_fixed. intros kv Hkv. specialize (Hs kv Hkv).
    destruct (quoted_stage_fixed (fst kv) (lit "'" ++ snd kv ++ lit "'") t Hs)
      as [A B].
    destruct Hforms as [-> | [-> | ->]]; assumption. }
  assert (R : repair_sql y = y \/ repair_sql y =
              ensure_semicolon (ensure_limit (fix_status (fix_where (fix_table y)))))
    by (destruct y; [left | right]; reflexivity).
  destruct R as [R | R]; [exact R|].
  rewrite R, HF, HW, HS, E. apply cap_and_terminator_idempotent.
Qed.

(** C8, as the program has it: repairing a repaired statement changes
    nothing when, in the statement as the table, column and status steps
    leave it, no status step finds anything more to rewrite and no FROM or
    WHERE stands at the end with nothing but spaces and semicolons after
    it; and the cap and the terminator are never set twice. *)
Theorem repair_sql_idempotent (x : str) :
  let t := fix_status (fix_where (fix_table x)) in
  ((forall kv, In kv STATUS_MAP -> fix_status_with kv t = t) ->
   dangles (lit "FROM") (rstrip_semi t) = false ->
   dangles (lit "WHERE") (rstrip_semi t) = false ->
   repair_sql (repair_sql x) = repair_sql x) /\
  ensure_semicolon (ensure_limit (ensure_semicolon (ensure_limit t))) =
    ensure_semicolon (ensure_limit t) /\
  fix_table t = t /\ fix_where t = t.
Proof.
  intros t. split; [apply repair_sql_twice|].
  split; [apply cap_and_terminator_idempotent|].
  split; [apply rewritten_table_fixed | apply rewritten_where_fixed].
Qed.

Lemma repair_sql_idempotent_witness :
  repair_sql (repair_sql
    (lit "SELECT * FROM wrong_table WHERE Status = 'pending'")) =
  repair_sql (lit "SELECT * FROM wrong_table WHERE Status = 'pending'").
Proof.
  destruct (repair_sql_idempotent
              (lit "SELECT * FROM wrong_table WHERE Status = 'pending'"))
    as [H _].
  apply H.
  - intros kv Hkv. simpl in Hkv.
    repeat (destruct Hkv as [<- | Hkv]; [vm_compute; reflexivity|]).
    contradiction.
  - vm_compute. reflexivity.
  - vm_compute. reflexivity.
Defined.

(** ** The earlier cleaner *)

(** Without a [select] the draft cleaner returns the text, not the empty
    string: there the validation that follows is what rejects it. *)
Lemma draft_clean_sql_keeps_text :
  Draft.clean_sql (lit "I cannot answer that.") = lit "I cannot answer that." /\
  clean_sql (lit "I cannot answer that.") = [].
Proof. split; vm_compute; reflexivity. Qed.

(** * Further properties of the pipeline *)

(** ** Intent shortcuts: what a shortcut can return *)

Lemma contains_trans (a b c : str) :
  contains a b = true -> contains b c = true -> contains a c = true.
Proof.
  rewrite !contains_infix. intros [u [v ->]] [x [y ->]].
  exists (x ++ u), (v ++ y). now rewrite <- !app_assoc.
Qed.

Lemma match_inc_occurs (s g : str) :
  match_inc s = Some g ->
  exists sep rest,
    s = lit "inc" ++ sep ++ g ++ rest /\
    (sep = [] \/ sep = lit "-" \/ exists c, sep = [c] /\ Char.is_space c = true).
Proof.
  unfold match_inc. destruct (startswith (lit "inc") s) eqn:E; [|discriminate].
  apply startswith_prefix in E as [s1 ->].
  change (skipn 3 (lit "inc" ++ s1)) with s1.
  assert (H : forall s2, (0 <? span Char.is_digit s2) = true ->
            s2 = firstn (span Char.is_digit s2) s2 ++
                 skipn (span Char.is_digit s2) s2)
    by (intros; now rewrite firstn_skipn).
  destruct s1 as [|c s1'].
  - destruct (0 <? span Char.is_digit []) eqn:D; [|discriminate].
    discriminate D.
  - destruct (Ascii.eqb c "-" || Char.is_space c) eqn:C.
    + destruct (0 <? span Char.is_digit s1') eqn:D; [|discriminate].
      intros [= <-]. exists [c], (skipn (span Char.is_digit s1') s1').
      split.
      * simpl. do 4 f_equal. now apply H.
      * apply orb_true_iff in C as [C | C].
        -- apply Ascii.eqb_eq in C. subst c. right. now left.
        -- right. right. now exists c.
    + destruct (0 <? span Char.is_digit (c :: s1')) eqn:D; [|discriminate].
      intros [= <-]. exists [], (skipn (span Char.is_digit (c :: s1')) (c :: s1')).
      split; [|now left]. cbn [app]. simpl app. f_equal. f_equal. f_equal.
      now apply H.
Qed.

Lemma search_inc_occurs (s g : str) :
  search_inc s = Some g ->
  exists sep,
    contains (lit "inc" ++ sep ++ g) s = true /\
    (sep = [] \/ sep = lit "-" \/ exists c, sep = [c] /\ Char.is_space c = true).
Proof.
  induction s as [|c s IH].
  - intros H. vm_compute in H. discriminate.
  - change (search_inc (c :: s)) with
      (match match_inc (c :: s) with
       | Some g => Some g
       | None => search_inc s
       end).
    destruct (match_inc (c :: s)) as [g'|] eqn:E.
    + intros [= ->]. destruct (match_inc_occurs _ _ E) as [sep [rest [Es Hsep]]].
      exists sep. split; [|exact Hsep].
      apply contains_infix. exists [], rest. rewrite Es.
      now rewrite <- !app_assoc.
    + intros H. destruct (IH H) as [sep [Hc Hsep]]. exists sep.
      split; [|exact Hsep].
      change (c :: s) with ([c] ++ s). now apply contains_app_r.
Qed.

(** X1. A shortcut returns one of four fixed statements or the incident
    lookup; the lookup embeds nothing of the question but a non-empty run
    of decimal digits, which stands in the lower-cased question after
    [inc], with at most a dash or one space between. *)
Theorem fast_intent_outcomes (q sql : str) :
  fast_intent q = Some sql ->
  sql = sql_pending \/ sql = sql_open \/ sql = sql_latest \/ sql = sql_new \/
  exists inc sep,
    sql = sql_incident inc /\ inc <> [] /\
    forallb Char.is_digit inc = true /\
    (sep = [] \/ sep = lit "-" \/ exists c, sep = [c] /\ Char.is_space c = true) /\
    contains (lit "inc" ++ sep ++ inc) (lower_s q) = true.
Proof.
  unfold fast_intent.
  repeat match goal with
         | |- context [if ?b then _ else _] => destruct b
         end; try (intros [= <-]; tauto).
  destruct (search_inc (lower_s q)) as [inc|] eqn:E; [|discriminate].
  intros [= <-]. do 4 right.
  destruct (search_inc_occurs _ _ E) as [sep [Hc Hsep]].
  destruct (search_inc_digits _ _ E) as [Hne Hd].
  now exists inc, sep.
Qed.

Lemma fast_intent_outcomes_witness :
  fast_intent (lit "Status of INC-002 please") = Some (sql_incident (lit "002")) /\
  contains (lit "inc-002") (lit "status of inc-002 please") = true.
Proof.
  split; [vm_compute; reflexivity|].
  destruct (fast_intent_outcomes (lit "Status of INC-002 please")
              (sql_incident (lit "002")) eq_refl)
    as [H | [H | [H | [H | H]]]]; try discriminate H.
  vm_compute. reflexivity.
Defined.

(** ** Intent shortcuts: a keyword that never decides *)

Lemma any_in_true (xs : list str) (x s : str) :
  In x xs -> contains x s = true -> any_in xs s = true.
Proof.
  intros Hx Hc. unfold any_in. apply existsb_exists. now exists x.
Qed.

(** X2. The new-case list is never reached through [kes baru]: a question
    with these words holds [baru], which the latest list is checked for
    first, so that it gets the pending count, the open list or the latest
    list; and the new-case statement is returned only for questions that
    hold [new case]. *)
Theorem kes_baru_is_shadowed (q : str) :
  (contains (lit "kes baru") (lower_s q) = true ->
   fast_intent q = Some sql_pending \/ fast_intent q = Some sql_open \/
   fast_intent q = Some sql_latest) /\
  (fast_intent q = Some sql_new ->
   contains (lit "new case") (lower_s q) = true /\
   contains (lit "baru") (lower_s q) = false).
Proof.
  unfold fast_intent. set (l := lower_s q).
  destruct ((contains (lit "pending") l || contains (lit "belum tutup") l) &&
            any_in (map lit ["how many"; "berapa"; "count"; "jumlah"]%string) l);
    [split; [tauto | discriminate]|].
  destruct (any_in (map lit ["open"; "belum tutup"; "masih buka"]%string) l);
    [split; [tauto | discriminate]|].
  destruct (any_in (map lit ["latest"; "terkini"; "baru"]%string) l) eqn:L;
    [split; [tauto | discriminate]|].
  assert (Hb : contains (lit "baru") l = false).
  { destruct (contains (lit "baru") l) eqn:B; trivial.
    rewrite (any_in_true _ (lit "baru") l) in L; [discriminate | | exact B].
    simpl. tauto. }
  split.
  - intros K. assert (contains (lit "baru") l = true); [|congruence].
    apply contains_trans with (b := lit "kes baru"); trivial.
  - destruct (any_in (map lit ["new case"; "new cases"; "kes baru"]%string) l)
      eqn:N.
    + intros _. split; [|exact Hb].
      unfold any_in in N. apply existsb_exists in N as [x [Hx Hc]].
      simpl in Hx. destruct Hx as [<- | [<- | [<- | []]]]; trivial.
      * apply contains_trans with (b := lit "new cases"); trivial.
      * assert (contains (lit "baru") l = true); [|congruence].
        apply contains_trans with (b := lit "kes baru"); trivial.
    + destruct (search_inc l); intros H; discriminate H.
Qed.

Lemma kes_baru_is_shadowed_witness :
  fast_intent (lit "senarai kes baru") = Some sql_latest /\
  contains (lit "new case") (lower_s (lit "show the New Cases")) = true.
Proof.
  split; [vm_compute; reflexivity|].
  apply (proj2 (kes_baru_is_shadowed (lit "show the New Cases"))).
  vm_compute. reflexivity.
Defined.

(** ** Cleaner: fences and trimming *)

Lemma drop_while_idempotent (p : ascii -> bool) (s : str) :
  drop_while p (drop_while p s) = drop_while p s.
Proof.
  induction s as [|c s IH]; [reflexivity|]. simpl.
  destruct (p c) eqn:E; [exact IH|]. simpl. now rewrite E.
Qed.

Lemma rdrop_while_idempotent (p : ascii -> bool) (s : str) :
  rdrop_while p (rdrop_while p s) = rdrop_while p s.
Proof.
  unfold rdrop_while. now rewrite rev_involutive, drop_while_idempotent.
Qed.

Lemma lstrip_head (s : str) :
  lstrip s = [] \/ exists c t, lstrip s = c :: t /\ Char.is_space c = false.
Proof.
  unfold lstrip. induction s as [|c s IH]; [now left|]. simpl.
  destruct (Char.is_space c) eqn:E; [exact IH|]. right. now exists c, s.
Qed.

Lemma rstrip_strip (s : str) : rstrip (strip s) = strip s.
Proof. unfold strip, rstrip. apply rdrop_while_idempotent. Qed.

Lemma lstrip_strip (s : str) : lstrip (strip s) = strip s.
Proof.
  unfold strip. destruct (lstrip_head s) as [-> | [c [t [-> Hc]]]];
    [reflexivity|].
  unfold rstrip. pose proof (rdrop_while_stop Char.is_space [] t c Hc) as R.
  cbn [app] in R. rewrite R. now apply lstrip_nonspace.
Qed.

Lemma strip_idempotent (s : str) : strip (strip s) = strip s.
Proof.
  unfold strip at 1. rewrite lstrip_strip. apply rstrip_strip.
Qed.

Lemma startswith_fence (x : str) :
  startswith (lit "```") x = true <-> 3 <= span is_backquote x.
Proof.
  unfold is_backquote. change (lit "```") with ["`"; "`"; "`"]%char.
  destruct x as [|a [|b [|c x]]]; cbn [startswith span];
    rewrite ?(Ascii.eqb_sym "`"%char);
    repeat match goal with
           | |- context [Ascii.eqb ?v "`"%char] =>
               destruct (Ascii.eqb v "`"%char)
           end; cbn [andb span]; split; intros; try discriminate; try lia;
    reflexivity.
Qed.

Lemma match_fence_pos (s : str) : match_fence s <> Some 0.
Proof.
  unfold match_fence. destruct (startswith (lit "```") s); [|discriminate].
  destruct (startswith_ci (lit "sql") (skipn 3 s)); discriminate.
Qed.

(** Removing the fences leaves no fence: three back quotes that come to
    stand together would already have been one. *)
Lemma re_sub_fence_free (s : str) :
  contains (lit "```") (re_sub match_fence [] s) = false /\
  span is_backquote (re_sub match_fence [] s) <= span is_backquote s /\
  span is_backquote (re_sub match_fence [] s) <= 2.
Proof.
  apply (re_sub_scan match_fence []
           (fun s out => contains (lit "```") out = false /\
                         span is_backquote out <= span is_backquote s /\
                         span is_backquote out <= 2)).
  - apply match_fence_pos.
  - repeat split; simpl; lia.
  - clear s. intros c s E [H1 [H2 H3]].
    assert (Hs : startswith (lit "```") (c :: s) = false).
    { unfold match_fence in E.
      destruct (startswith (lit "```") (c :: s)); [|reflexivity].
      destruct (startswith_ci (lit "sql") (skipn 3 (c :: s))); discriminate. }
    assert (Hc : span is_backquote (c :: s) <= 2).
    { destruct (Nat.le_gt_cases (span is_backquote (c :: s)) 2) as [|G];
        trivial.
      apply startswith_fence in G. congruence. }
    assert (Ho : span is_backquote (c :: re_sub match_fence [] s) <=
                 span is_backquote (c :: s)).
    { simpl. destruct (is_backquote c); lia. }
    repeat split; trivial; [|lia].
    change (contains (lit "```") (c :: re_sub match_fence [] s))
      with (startswith (lit "```") (c :: re_sub match_fence [] s) ||
            contains (lit "```") (re_sub match_fence [] s)).
    rewrite H1, orb_false_r.
    destruct (startswith (lit "```") (c :: re_sub match_fence [] s)) eqn:F;
      trivial.
    apply startswith_fence in F. lia.
  - clear s. intros c s n E [H1 [H2 H3]]. cbn [app].
    repeat split; trivial.
    assert (Hs : startswith (lit "```") (c :: s) = true).
    { unfold match_fence in E.
      destruct (startswith (lit "```") (c :: s)); [reflexivity|discriminate]. }
    apply startswith_fence in Hs. lia.
Qed.

Lemma contains_inside (t a x b : str) :
  contains t (a ++ x ++ b) = false -> contains t x = false.
Proof.
  intros H. destruct (contains t x) eqn:E; trivial.
  rewrite (contains_app_r t a _ (contains_app_l t x b E)) in H. discriminate.
Qed.

Lemma contains_strip_le (t s : str) :
  contains t s = false -> contains t (strip s) = false.
Proof.
  intros H. destruct (strip_split s) as [w1 [w2 [E _]]].
  rewrite E in H. now apply contains_inside in H.
Qed.

Lemma strip_fences_fence_free (raw : str) :
  contains (lit "```") (strip_fences raw) = false.
Proof. apply contains_strip_le, re_sub_fence_free. Qed.

Lemma re_search_inside (m : matcher) (s x : str) :
  re_search m s = Some x -> exists a b, s = a ++ x ++ b.
Proof.
  intros H. destruct (re_search_some _ _ _ H) as [a [b [n [-> [_ [-> _]]]]]].
  exists a, (skipn n b). now rewrite firstn_skipn.
Qed.

Lemma clean_sql_clean (raw : str) :
  contains (lit "```") (clean_sql raw) = false /\
  strip (clean_sql raw) = clean_sql raw.
Proof.
  destruct raw as [|c0 raw0]; [split; reflexivity|].
  unfold clean_sql. set (u := strip_fences (c0 :: raw0)).
  pose proof (strip_fences_fence_free (c0 :: raw0)) as Hu. fold u in Hu.
  assert (A : forall m x, re_search m u = Some x ->
                contains (lit "```") (strip x) = false).
  { intros m x H. apply contains_strip_le.
    destruct (re_search_inside _ _ _ H) as [a [b E]].
    rewrite E in Hu. now apply contains_inside in Hu. }
  destruct (re_search match_select_semi u) as [x|] eqn:S1.
  - split; [now apply (A match_select_semi) | apply strip_idempotent].
  - destruct (re_search match_select_rest u) as [x|] eqn:S2.
    + split; [now apply (A match_select_rest) | apply strip_idempotent].
    + split; reflexivity.
Qed.

(** X3. The cleaner strips every fence and trims: what it returns holds no
    three back quotes in a row and has no whitespace at either end. *)
Theorem clean_sql_fence_free_trimmed (raw : str) :
  contains (lit "```") (clean_sql raw) = false /\
  strip (clean_sql raw) = clean_sql raw.
Proof. exact (clean_sql_clean raw). Qed.

(** ** Cleaner: cleaning twice *)

Lemma re_sub_no_match (m : matcher) (r s : str) :
  (forall a b, s = a ++ b -> b <> [] -> m b = None) -> re_sub m r s = s.
Proof.
  induction s as [|c s IH]; intros H; [reflexivity|].
  rewrite re_sub_miss by (apply (H [] (c :: s)); [reflexivity | discriminate]).
  f_equal. apply IH. intros a b -> Hb. now apply (H (c :: a) b).
Qed.

Lemma fence_free_fixed (s : str) :
  contains (lit "```") s = false -> re_sub match_fence [] s = s.
Proof.
  intros H. apply re_sub_no_match. intros a b -> _.
  unfold match_fence.
  destruct (startswith (lit "```") b) eqn:E; [|reflexivity].
  rewrite (contains_app_r _ a b (startswith_contains _ _ E)) in H.
  discriminate.
Qed.

Lemma rdrop_while_last (p : ascii -> bool) (l : str) (d : ascii) :
  p d = true -> rdrop_while p (l ++ [d]) = rdrop_while p l.
Proof.
  intros H. unfold rdrop_while. rewrite rev_app_distr. simpl. now rewrite H.
Qed.

Lemma rdrop_while_length (p : ascii -> bool) (s : str) :
  List.length (rdrop_while p s) <= List.length s.
Proof.
  destruct (rdrop_while_split p s) as [w [E _]].
  rewrite E at 2. rewrite length_app. lia.
Qed.

(** When trimming the whole text on the right changes nothing, trimming
    its end changes nothing. *)
Lemma rdrop_while_fixed_suffix (p : ascii -> bool) (x y : str) :
  rdrop_while p (x ++ y) = x ++ y -> rdrop_while p y = y.
Proof.
  destruct y as [|y0 y'] using rev_ind; [reflexivity|]. intros H.
  destruct (p y0) eqn:E.
  - exfalso. rewrite app_assoc, rdrop_while_last in H by assumption.
    pose proof (rdrop_while_length p (x ++ y')) as L.
    rewrite H, !length_app in L. simpl in L. lia.
  - rewrite <- (app_nil_r (y' ++ [y0])) at 1.
    rewrite <- app_assoc. simpl.
    rewrite rdrop_while_stop by assumption.
    reflexivity.
Qed.

Lemma find_semi_app (body t : str) :
  ~ In ";"%char body ->
  find_semi (body ++ ";"%char :: t) = Some (List.length body).
Proof.
  induction body as [|c body IH]; intros H; [reflexivity|]. simpl.
  destruct (Ascii.eqb c ";") eqn:E.
  - apply Ascii.eqb_eq in E. subst c. exfalso. apply H. now left.
  - rewrite IH; [reflexivity|]. intros Hin. apply H. now right.
Qed.

Lemma find_semi_absent (s : str) : ~ In ";"%char s -> find_semi s = None.
Proof.
  intros H. destruct (find_semi s) eqn:E; trivial.
  destruct (find_semi_some _ _ E) as [body [rest [-> _]]].
  exfalso. apply H. apply in_or_app. right. now left.
Qed.

Lemma in_skipn {A} (n : nat) (l : list A) (x : A) :
  In x (skipn n l) -> In x l.
Proof.
  intros H. rewrite <- (firstn_skipn n l). apply in_or_app. now right.
Qed.

(** The shape of a cleaned statement: a first match up to its semicolon,
    or a text without a semicolon past the character after SELECT. *)
Lemma clean_sql_shape (raw : str) :
  clean_sql raw <> [] ->
  exists sel c,
    upper_s sel = lit "SELECT" /\
    ((exists body, ~ In ";"%char body /\
        clean_sql raw = sel ++ c :: body ++ [";"%char]) \/
     (exists rest, ~ In ";"%char rest /\ clean_sql raw = sel ++ c :: rest)).
Proof.
  intros H.
  destruct (clean_sql_cases raw H)
    as [a [sel [c [Hs [[[body [tail [Eu [Hn Ec]]]] | [rest [Eu [Hn Ec]]]] _]]]]].
  - exists sel, c. split; [exact Hs|]. left. now exists body.
  - exists sel, c. split; [exact Hs|]. right. exists rest. split; [exact Hn|].
    rewrite Ec. f_equal.
    apply (rdrop_while_fixed_suffix Char.is_space (a ++ sel)).
    rewrite <- app_assoc, <- Eu. apply rstrip_strip.
Qed.

Lemma clean_sql_unfold (s : str) :
  s <> [] ->
  clean_sql s =
  match re_search match_select_semi (strip_fences s) with
  | Some m => strip m
  | None => match re_search match_select_rest (strip_fences s) with
            | Some m => strip m
            | None => []
            end
  end.
Proof. destruct s; [congruence | reflexivity]. Qed.

(** X4. Cleaning a cleaned text changes nothing. *)
Theorem clean_sql_idempotent (raw : str) :
  clean_sql (clean_sql raw) = clean_sql raw.
Proof.
  destruct (list_eq_dec ascii_dec (clean_sql raw) []) as [E0 | Hne];
    [now rewrite E0|].
  destruct (clean_sql_clean raw) as [Hf Ht].
  destruct (clean_sql_shape raw Hne) as [sel [c [Hs Hshape]]].
  destruct (select_shape sel Hs) as [Hl Hlow].
  rewrite (clean_sql_unfold _ Hne).
  set (r := clean_sql raw) in *.
  assert (Hu : strip_fences r = r).
  { unfold strip_fences. now rewrite fence_free_fixed. }
  rewrite Hu.
  assert (Hsel : forall y, startswith_ci (lit "SELECT") (sel ++ y) = true).
  { intros y. unfold startswith_ci. rewrite lower_s_app, Hlow.
    apply startswith_prefix. eexists. reflexivity. }
  destruct Hshape as [[body [Hn E]] | [rest [Hn E]]].
  - assert (M : match_select_semi r = Some (List.length r)).
    { rewrite E. unfold match_select_semi.
      rewrite Hsel, (skipn_app_exact sel _ _ Hl).
      rewrite find_semi_app by assumption.
      rewrite !length_app, Hl. simpl. rewrite length_app. simpl.
      f_equal; lia. }
    assert (S1 : re_search match_select_semi r = Some r).
    { destruct r as [|x r1]; [discriminate|].
      unfold re_search. rewrite M. now rewrite firstn_all. }
    now rewrite S1.
  - assert (S1 : re_search match_select_semi r = None).
    { apply re_search_none. intros a b Eab. unfold match_select_semi.
      destruct (startswith_ci (lit "SELECT") b); [|reflexivity].
      destruct (skipn 6 b) as [|x rest_b] eqn:K; [reflexivity|].
      rewrite find_semi_absent; [reflexivity|].
      intros Hin. apply Hn.
      assert (Er' : rest_b = skipn 7 b).
      { change 7 with (1 + 6). now rewrite <- skipn_skipn, K. }
      assert (E7 : skipn 7 r = rest).
      { rewrite E. change 7 with (1 + 6).
        now rewrite <- skipn_skipn, (skipn_app_exact sel _ _ Hl). }
      rewrite Er' in Hin.
      assert (Eb : b = skipn (List.length a) r).
      { rewrite Eab. now rewrite (skipn_app_exact a b _ eq_refl). }
      rewrite Eb, skipn_skipn in Hin.
      replace (7 + List.length a) with (List.length a + 7) in Hin by lia.
      rewrite <- skipn_skipn, E7 in Hin. now apply in_skipn in Hin. }
    assert (M : match_select_rest r = Some (List.length r)).
    { rewrite E. unfold match_select_rest.
      now rewrite Hsel, (skipn_app_exact sel _ _ Hl). }
    assert (S2 : re_search match_select_rest r = Some r).
    { destruct r as [|x r1]; [discriminate|].
      unfold re_search. rewrite M. now rewrite firstn_all. }
    now rewrite S1, S2.
Qed.

(** ** Validator: what its verdict goes by *)

Lemma drop_while_map (p : ascii -> bool) (f : ascii -> ascii) (s : str) :
  (forall c, p (f c) = p c) ->
  drop_while p (map f s) = map f (drop_while p s).
Proof.
  intros H. induction s as [|c s IH]; [reflexivity|]. simpl.
  rewrite H. now destruct (p c).
Qed.

Lemma strip_upper (s : str) : strip (upper_s s) = upper_s (strip s).
Proof.
  unfold strip, rstrip, lstrip, rdrop_while, upper_s.
  rewrite (drop_while_map _ _ _ space_upper), <- map_rev.
  rewrite (drop_while_map _ _ _ space_upper). now rewrite map_rev.
Qed.

Lemma valid_sql_unfold (s : str) :
  valid_sql s =
  negb (str_eqb s []) &&
  startswith (lit "SELECT") (strip (upper_s s)) &&
  negb (any_in forbidden (strip (upper_s s))).
Proof.
  destruct s as [|c s]; [reflexivity|]. unfold valid_sql.
  cbn [str_eqb negb andb].
  destruct (startswith _ _); [|reflexivity]. cbn [negb andb].
  now destruct (any_in _ _).
Qed.

Lemma valid_sql_empty_strip (s : str) : strip s = [] -> valid_sql s = false.
Proof.
  intros H. rewrite valid_sql_unfold, strip_upper, H.
  now rewrite andb_false_r.
Qed.

(** X5. The verdict of the validator goes by the statement up to the case
    of its letters and the whitespace around it. *)
Theorem valid_sql_case_and_space (s : str) :
  valid_sql (strip s) = valid_sql s /\
  valid_sql (upper_s s) = valid_sql s /\
  valid_sql (lower_s s) = valid_sql s.
Proof.
  repeat split.
  - destruct (strip s) as [|c t] eqn:E.
    + symmetry. now apply valid_sql_empty_strip.
    + rewrite <- E, !valid_sql_unfold.
      rewrite (strip_upper (strip s)), strip_idempotent, <- strip_upper.
      rewrite E. destruct s; [discriminate E | reflexivity].
  - rewrite !valid_sql_unfold.
    replace (upper_s (upper_s s)) with (upper_s s)
      by (unfold upper_s; rewrite map_map; apply map_ext;
          intros c; now rewrite upper_upper).
    now destruct s.
  - rewrite !valid_sql_unfold, upper_s_of_lower. now destruct s.
Qed.

(** ** Cleaner and validator together *)

(** X6. A cleaned text is never turned down for the way it starts: the
    validator rejects it only when it is empty or holds a denylisted token
    or two dashes. *)
Theorem cleaned_rejected_for_tokens_only (raw : str) :
  valid_sql (clean_sql raw) = false <->
  clean_sql raw = [] \/
  exists t, In t forbidden /\ occurs_ci t (clean_sql raw).
Proof.
  rewrite valid_sql_false. unfold rejected. split; [|tauto].
  intros [H | [H | H]]; auto. left.
  destruct (clean_sql raw) as [|r0 r'] eqn:Er; [reflexivity|]. exfalso.
  assert (Hne : clean_sql raw <> []) by (rewrite Er; discriminate).
  destruct (clean_sql_shape raw Hne) as [sel [c [Hs Hshape]]].
  assert (P : select_prefixed (clean_sql raw)).
  { destruct Hshape as [[body [_ E]] | [rest [_ E]]]; rewrite E;
      exists [], sel; eexists; (split; [reflexivity|]);
      (split; [intros ? [] | exact Hs]). }
  rewrite Er in P. destruct P as [w [sel' [rest' [E [Hw Hs']]]]].
  rewrite E, !upper_s_app, strip_select_prefixed in H.
  - rewrite Hs' in H. discriminate.
  - intros c' Hc'. unfold upper_s in Hc'.
    apply in_map_iff in Hc' as [d [<- Hd]]. rewrite space_upper. now apply Hw.
  - unfold upper_s. rewrite map_map, <- Hs'. apply map_ext, upper_upper.
Qed.

(** ** Repair engine: the end of a repaired statement *)

Lemma ensure_semicolon_ends (u : str) :
  endswith (lit ";") (strip (ensure_semicolon u)) = true.
Proof.
  unfold ensure_semicolon.
  destruct (endswith (lit ";") (strip u)) eqn:E; cbn [negb]; [exact E|].
  change (lit ";") with [";"%char].
  rewrite strip_keeps_last by reflexivity. now rewrite endswith_last.
Qed.

Lemma ensure_semicolon_keeps (x u : str) :
  contains x (lower_s u) = true ->
  contains x (lower_s (ensure_semicolon u)) = true.
Proof.
  intros H. destruct (ensure_semicolon_cases u) as [-> | ->]; [exact H|].
  rewrite lower_s_app. now apply contains_app_l.
Qed.

Lemma ensure_limit_bounded (u : str) :
  contains (lit "count(") (lower_s (ensure_limit u)) = true \/
  contains (lit "limit") (lower_s (ensure_limit u)) = true.
Proof.
  unfold ensure_limit.
  destruct (contains (lit "count(") (lower_s u)) eqn:E1; cbn [negb andb];
    [now left|].
  destruct (contains (lit "limit") (lower_s u)) eqn:E2; cbn [negb];
    [now right|].
  right. rewrite lower_s_app. apply contains_app_r. reflexivity.
Qed.

Lemma repair_sql_bounded (sql : str) :
  sql <> [] ->
  contains (lit "count(") (lower_s (repair_sql sql)) = true \/
  contains (lit "limit") (lower_s (repair_sql sql)) = true.
Proof.
  destruct sql as [|c sql]; [congruence|]. intros _. unfold repair_sql.
  destruct (ensure_limit_bounded
              (fix_status (fix_where (fix_table (c :: sql))))) as [H | H];
    [left | right]; now apply ensure_semicolon_keeps.
Qed.

Lemma repair_sql_ends (sql : str) :
  sql <> [] -> endswith (lit ";") (strip (repair_sql sql)) = true.
Proof.
  destruct sql as [|c sql]; [congruence|]. intros _.
  apply ensure_semicolon_ends.
Qed.

Lemma endswith_nonempty (p s : str) :
  p <> [] -> endswith p s = true -> s <> [].
Proof.
  intros Hp H ->. unfold endswith in H. simpl in H.
  destruct (rev p) eqn:E; [|discriminate].
  apply (f_equal (@rev ascii)) in E. rewrite rev_involutive in E.
  now apply Hp.
Qed.

Lemma space_lower (c : ascii) :
  Char.is_space (Char.lower c) = Char.is_space c.
Proof. each_char c. Qed.

(** A word without whitespace occurs in the trimmed text when it occurs
    in the text. *)
Lemma contains_lower_strip (x u : str) :
  x <> [] -> (forall c, In c x -> Char.is_space c = false) ->
  contains x (lower_s (strip u)) = contains x (lower_s u).
Proof.
  intros Hx Hs. destruct (strip_split u) as [w1 [w2 [E [H1 H2]]]].
  rewrite E at 2. rewrite !lower_s_app.
  assert (S : forall w, (forall c, In c w -> Char.is_space c = true) ->
                forall c, In c (lower_s w) -> ~ In c x).
  { intros w Hw c Hc Hin. unfold lower_s in Hc.
    apply in_map_iff in Hc as [d [<- Hd]].
    apply Hs in Hin. rewrite space_lower, (Hw d Hd) in Hin. discriminate. }
  rewrite (contains_seps_l x (lower_s w1) _ Hx (S w1 H1)).
  now rewrite (contains_seps_r x (lower_s w2) _ Hx (S w2 H2)).
Qed.

(** X7. A repaired statement is empty only when the statement was; when it
    is not, it ends, trailing whitespace aside, with a semicolon and holds
    [count(] or [limit] in some case. *)
Theorem repair_sql_terminated_and_bounded (sql : str) :
  (repair_sql sql = [] <-> sql = []) /\
  (sql <> [] ->
   endswith (lit ";") (strip (repair_sql sql)) = true /\
   (contains (lit "count(") (lower_s (repair_sql sql)) = true \/
    contains (lit "limit") (lower_s (repair_sql sql)) = true)).
Proof.
  split.
  - split; [|now intros ->].
    intros E. destruct sql as [|c sql]; [reflexivity|]. exfalso.
    assert (H : c :: sql <> []) by discriminate.
    apply repair_sql_ends in H. rewrite E in H. discriminate.
  - intros H. split; [now apply repair_sql_ends | now apply repair_sql_bounded].
Qed.

Lemma repair_sql_terminated_and_bounded_witness :
  endswith (lit ";") (strip (repair_sql (lit "select avg(x) from t ;  "))) = true.
Proof.
  apply (proj2 (repair_sql_terminated_and_bounded
                  (lit "select avg(x) from t ;  "))).
  discriminate.
Defined.

(** ** Orchestrator: the form of what it returns *)

Lemma fast_intent_ends (q sql : str) :
  fast_intent q = Some sql -> endswith (lit ";") sql = true.
Proof.
  intros H. apply fast_intent_some in H as [-> | [-> | [-> | [-> | H]]]];
    try reflexivity.
  destruct H as [inc [-> _]]. unfold sql_incident.
  change (lit "';") with (lit "'" ++ [";"%char]).
  rewrite !app_assoc. change (lit ";") with [";"%char].
  now rewrite endswith_last.
Qed.

Lemma wrapped_form service (n : nat) (q r : str) :
  fst (generate_sql_wrapped service n q) = Some r ->
  strip r = r /\ endswith (lit ";") r = true /\
  (fast_intent q = None ->
   contains (lit "count(") (lower_s r) = true \/
   contains (lit "limit") (lower_s r) = true).
Proof.
  unfold generate_sql_wrapped.
  assert (L : forall raw,
            fst (match raw with
                 | [] => (None, S n)
                 | _ :: _ =>
                     if negb (valid_sql (clean_sql raw)) then (None, S n)
                     else (Some (strip (repair_sql (clean_sql raw))), S n)
                 end) = Some r ->
            strip r = r /\ endswith (lit ";") r = true /\
            (contains (lit "count(") (lower_s r) = true \/
             contains (lit "limit") (lower_s r) = true)).
  { intros [|c0 raw0]; [discriminate|].
    set (sql := clean_sql (c0 :: raw0)).
    destruct (valid_sql sql) eqn:V; cbn [negb fst]; [|discriminate].
    intros [= <-].
    assert (Hne : sql <> []) by (intros E; rewrite E in V; discriminate).
    split; [apply strip_idempotent|].
    split; [now apply repair_sql_ends|].
    destruct (repair_sql_bounded sql Hne) as [H | H]; [left | right];
      (rewrite contains_lower_strip;
       [exact H | discriminate |
        intros c Hc; cbn in Hc;
        repeat (destruct Hc as [<- | Hc]; [reflexivity|]); destruct Hc]). }
  destruct (fast_intent q) as [[|c f]|] eqn:F.
  - intros H. destruct (L _ H) as [H1 [H2 H3]]. auto.
  - cbn [fst]. intros [= <-].
    destruct (fast_intent_stripped q _ F) as [_ [_ [_ E]]].
    rewrite E. split; [exact E|].
    split; [exact (fast_intent_ends q _ F) | discriminate].
  - intros H. destruct (L _ H) as [H1 [H2 H3]]. auto.
Qed.

(** X8. Whatever the service replies and whatever was asked before, a
    statement that [generate_sql] returns has no whitespace at either end
    and ends with a semicolon; when no shortcut applies to the question it
    holds [count(] or [limit], in some case. *)
Theorem generated_statement_form service (before : list str) (q r : str) :
  fst (generate_sql service (snd (session service initial before)) q)
    = Some r ->
  strip r = r /\ endswith (lit ";") r = true /\
  (fast_intent q = None ->
   contains (lit "count(") (lower_s r) = true \/
   contains (lit "limit") (lower_s r) = true).
Proof.
  intros H.
  destruct (generate_sql_sound service
              (snd (session service initial before)) q) as [_ [n E]].
  { apply session_sound, initial_sound. }
  rewrite E in H. now apply wrapped_form in H.
Qed.

Lemma generated_statement_form_witness :
  endswith (lit ";")
    (lit "select name FROM ticketdetails WHERE TicketStatus = 'New' LIMIT 50;")
    = true.
Proof.
  refine (proj1 (proj2
    (generated_statement_form
       (fun _ _ => Response (lit "Sure: select name from tickets where state = 'open'  "))
       [lit "how many pending tickets"]
       (lit "names of the tickets that wait")
       _ _))).
  vm_compute. reflexivity.
Defined.

(** ** The question cache *)

Lemma cache_get_none (q : str) (c : list (str * option str)) :
  cache_get q c = None -> ~ In q (map fst c).
Proof.
  induction c as [|[k w] c IH]; simpl; [tauto|].
  destruct (str_eqb k q) eqn:E; [discriminate|].
  intros H [-> | Hin]; [now rewrite str_eqb_refl in E | now apply IH].
Qed.

Lemma cache_remove_keys (q x : str) (c : list (str * option str)) :
  In x (map fst (cache_remove q c)) -> In x (map fst c).
Proof.
  induction c as [|[k w] c IH]; simpl; [tauto|].
  destruct (str_eqb k q); simpl; [now right|].
  intros [H | H]; [now left | right; now apply IH].
Qed.

Lemma cache_remove_nodup (q : str) (c : list (str * option str)) :
  NoDup (map fst c) ->
  NoDup (map fst (cache_remove q c)) /\ ~ In q (map fst (cache_remove q c)).
Proof.
  induction c as [|[k w] c IH]; simpl; intros H.
  - split; [constructor | tauto].
  - inversion H as [|? ? Hk Hc]; subst.
    destruct (str_eqb k q) eqn:E.
    + apply str_eqb_eq in E. subst k. now split.
    + destruct (IH Hc) as [I1 I2]. simpl. split.
      * constructor; [|exact I1]. intros Hin. apply Hk.
        now apply cache_remove_keys in Hin.
      * intros [-> | Hin]; [now rewrite str_eqb_refl in E | now apply I2].
Qed.

Lemma cache_remove_length (q : str) (c : list (str * option str))
      (v : option str) :
  cache_get q c = Some v ->
  S (List.length (cache_remove q c)) = List.length c.
Proof.
  induction c as [|[k w] c IH]; simpl; [discriminate|].
  destruct (str_eqb k q); [reflexivity|].
  intros H. simpl. now rewrite IH.
Qed.

Lemma nodup_firstn {A} (n : nat) (l : list A) : NoDup l -> NoDup (firstn n l).
Proof.
  intros H. rewrite <- (firstn_skipn n l) in H.
  now apply NoDup_app_remove_r in H.
Qed.

Lemma generate_sql_cache service (st : state) (q : str) :
  List.length (cache st) <= maxsize /\ NoDup (map fst (cache st)) ->
  List.length (cache (snd (generate_sql service st q))) <= maxsize /\
  NoDup (map fst (cache (snd (generate_sql service st q)))).
Proof.
  intros [HL HN]. unfold generate_sql.
  destruct (cache_get q (cache st)) as [v|] eqn:E.
  - cbn [snd cache]. destruct (cache_remove_nodup q _ HN) as [I1 I2].
    split.
    + cbn [List.length]. now rewrite (cache_remove_length _ _ _ E).
    + cbn [map fst]. now constructor.
  - destruct (generate_sql_wrapped service (requests st) q) as [v n].
    cbn [snd cache]. split.
    + rewrite length_firstn. apply Nat.le_min_l.
    + rewrite <- firstn_map. apply nodup_firstn. cbn [map fst].
      constructor; [now apply cache_get_none | exact HN].
Qed.

(** X9. In every session the cache holds at most [maxsize] entries, and no
    question twice. *)
Theorem cache_bounded_distinct service (qs : list str) :
  List.length (cache (snd (session service initial qs))) <= maxsize /\
  NoDup (map fst (cache (snd (session service initial qs)))).
Proof.
  assert (G : forall st,
            List.length (cache st) <= maxsize /\ NoDup (map fst (cache st)) ->
            List.length (cache (snd (session service st qs))) <= maxsize /\
            NoDup (map fst (cache (snd (session service st qs))))).
  { induction qs as [|q qs IH]; intros st H; [exact H|].
    simpl. destruct (generate_sql service st q) as [v st1] eqn:G.
    destruct (session service st1 qs) as [vs st2] eqn:S. cbn [snd].
    replace st2 with (snd (session service st1 qs)) by now rewrite S.
    apply IH.
    replace st1 with (snd (generate_sql service st q)) by now rewrite G.
    now apply generate_sql_cache. }
  apply G. split; [apply Nat.le_0_l | constructor].
Qed.

(** ** The question cache: how long an answer is kept *)

Lemma cache_get_firstn_S (q : str) (k : nat) (c : list (str * option str))
      (v : option str) :
  cache_get q (firstn k c) = Some v -> cache_get q (firstn (S k) c) = Some v.
Proof.
  revert k; induction c as [|[a w] c IH]; intros [|k]; try discriminate.
  change (firstn (S k) ((a, w) :: c)) with ((a, w) :: firstn k c).
  change (firstn (S (S k)) ((a, w) :: c)) with ((a, w) :: firstn (S k) c).
  cbn [cache_get]. destruct (str_eqb a q); [trivial | apply IH].
Qed.

Lemma cache_get_firstn_remove (q q' : str) (k : nat)
      (c : list (str * option str)) (v : option str) :
  q' <> q ->
  cache_get q (firstn k c) = Some v ->
  cache_get q (firstn k (cache_remove q' c)) = Some v.
Proof.
  intros Hq. revert k; induction c as [|[a w] c IH]; intros [|k];
    try discriminate.
  change (firstn (S k) ((a, w) :: c)) with ((a, w) :: firstn k c).
  cbn [cache_get cache_remove].
  destruct (str_eqb a q) eqn:E1.
  - apply str_eqb_eq in E1. subst a. intros [= ->].
    destruct (str_eqb q q') eqn:E2.
    + apply str_eqb_eq in E2. now subst.
    + change (firstn (S k) ((q, v) :: cache_remove q' c))
        with ((q, v) :: firstn k (cache_remove q' c)).
      cbn [cache_get]. now rewrite str_eqb_refl.
  - intros H. destruct (str_eqb a q') eqn:E2.
    + now apply cache_get_firstn_S.
    + change (firstn (S k) ((a, w) :: cache_remove q' c))
        with ((a, w) :: firstn k (cache_remove q' c)).
      cbn [cache_get]. rewrite E1. now apply IH.
Qed.

Lemma generate_sql_hit service (st : state) (q : str) (v : option str) :
  cache_get q (cache st) = Some v ->
  generate_sql service st q =
  (v, mkState ((q, v) :: cache_remove q (cache st)) (requests st)).
Proof. intros H. unfold generate_sql. now rewrite H. Qed.

(** One more question moves an entry one place down at most. *)
Lemma generate_sql_keeps service (st : state) (q q' : str) (k : nat)
      (v : option str) :
  k < maxsize ->
  cache_get q (firstn k (cache st)) = Some v ->
  cache_get q (firstn (S k) (cache (snd (generate_sql service st q'))))
    = Some v.
Proof.
  intros Hk H. pose proof (cache_get_firstn _ _ _ _ H) as Hc.
  destruct (str_eqb q' q) eqn:Eq.
  - apply str_eqb_eq in Eq. subst q'.
    rewrite (generate_sql_hit service st q v Hc). cbn [snd cache].
    change (firstn (S k) ((q, v) :: cache_remove q (cache st)))
      with ((q, v) :: firstn k (cache_remove q (cache st))).
    cbn [cache_get]. now rewrite str_eqb_refl.
  - assert (Hne : q' <> q).
    { intros ->. now rewrite str_eqb_refl in Eq. }
    unfold generate_sql.
    destruct (cache_get q' (cache st)) as [v'|] eqn:E.
    + cbn [snd cache].
      change (firstn (S k) ((q', v') :: cache_remove q' (cache st)))
        with ((q', v') :: firstn k (cache_remove q' (cache st))).
      cbn [cache_get]. rewrite Eq. now apply cache_get_firstn_remove.
    + destruct (generate_sql_wrapped service (requests st) q') as [v' n].
      cbn [snd cache]. rewrite firstn_firstn.
      replace (Nat.min (S k) maxsize) with (S k) by lia.
      change (firstn (S k) ((q', v') :: cache st))
        with ((q', v') :: firstn k (cache st)).
      cbn [cache_get]. now rewrite Eq.
Qed.

Lemma session_keeps service (qs : list str) (st : state) (q : str) (k : nat)
      (v : option str) :
  k + List.length qs <= maxsize ->
  cache_get q (firstn k (cache st)) = Some v ->
  cache_get q (firstn (k + List.length qs)
                 (cache (snd (session service st qs)))) = Some v.
Proof.
  revert st k; induction qs as [|q' qs IH]; intros st k Hk H.
  - cbn [List.length session snd]. now rewrite Nat.add_0_r.
  - cbn [List.length] in *. cbn [session].
    destruct (generate_sql service st q') as [v' st1] eqn:G.
    destruct (session service st1 qs) as [vs st2] eqn:S. cbn [snd].
    replace st2 with (snd (session service st1 qs)) by now rewrite S.
    replace (k + Datatypes.S (List.length qs))
      with (Datatypes.S k + List.length qs) by lia.
    apply IH; [lia|].
    replace st1 with (snd (generate_sql service st q')) by now rewrite G.
    apply generate_sql_keeps; [lia | exact H].
Qed.

Lemma generate_sql_stores service (st : state) (q : str) :
  cache_get q (firstn 1 (cache (snd (generate_sql service st q)))) =
  Some (fst (generate_sql service st q)).
Proof.
  unfold generate_sql. destruct (cache_get q (cache st)) as [v|] eqn:E.
  - cbn [fst snd cache firstn cache_get]. now rewrite str_eqb_refl.
  - destruct (generate_sql_wrapped service (requests st) q) as [v n].
    cbn [fst snd cache]. rewrite firstn_firstn.
    replace (Nat.min 1 maxsize) with 1 by (unfold maxsize; lia).
    cbn [firstn cache_get]. now rewrite str_eqb_refl.
Qed.

(** X10. An answer is kept while fewer than [maxsize] questions are asked
    after it, whichever they are: asked again then, the question gets the
    same result, absence included, without a request to the service. *)
Theorem answer_kept_for_recent_question
        service (st : state) (q : str) (qs : list str) :
  List.length qs < maxsize ->
  let r1 := fst (generate_sql service st q) in
  let st1 := snd (generate_sql service st q) in
  let st2 := snd (session service st1 qs) in
  fst (generate_sql service st2 q) = r1 /\
  requests (snd (generate_sql service st2 q)) = requests st2.
Proof.
  intros Hl r1 st1 st2.
  assert (H : cache_get q (cache st2) = Some r1).
  { apply (cache_get_firstn q (1 + List.length qs)).
    apply session_keeps; [lia | apply generate_sql_stores]. }
  rewrite (generate_sql_hit service st2 q r1 H). split; reflexivity.
Qed.

Lemma answer_kept_for_recent_question_witness :
  let service := fun (n : nat) (_ : str) =>
    match n with
    | 0 => Response (lit "SELECT a FROM t")
    | _ => Failure
    end in
  let st1 := snd (generate_sql service initial (lit "list a")) in
  let st2 := snd (session service st1 [lit "list b"; lit "list c"]) in
  fst (generate_sql service st2 (lit "list a")) =
    Some (lit "SELECT a FROM ticketdetails LIMIT 50;") /\
  requests (snd (generate_sql service st2 (lit "list a"))) = 3.
Proof.
  intros service st1 st2.
  assert (L : List.length [lit "list b"; lit "list c"] < maxsize)
    by (unfold maxsize; simpl; lia).
  destruct (answer_kept_for_recent_question service initial (lit "list a")
              [lit "list b"; lit "list c"] L) as [H1 H2].
  split.
  - etransitivity; [exact H1|]. vm_compute. reflexivity.
  - etransitivity; [exact H2|]. vm_compute. reflexivity.
Defined.

(** ** Requests to the service *)

Lemma wrapped_requests service (n : nat) (q : str) :
  snd (generate_sql_wrapped service n q) =
  match fast_intent q with
  | Some _ => n
  | None => S n
  end.
Proof.
  unfold generate_sql_wrapped.
  destruct (fast_intent q) as [[|c f]|] eqn:F.
  - destruct (fast_intent_stripped q _ F) as [c [s [E _]]]. discriminate.
  - reflexivity.
  - destruct (call_llm service n (build_prompt q)); [reflexivity|].
    now destruct (negb _).
Qed.

Lemma generate_sql_requests service (st : state) (q : str) :
  requests (snd (generate_sql service st q)) =
  match cache_get q (cache st), fast_intent q with
  | None, None => S (requests st)
  | _, _ => requests st
  end.
Proof.
  unfold generate_sql. destruct (cache_get q (cache st)) as [v|];
    [reflexivity|].
  pose proof (wrapped_requests service (requests st) q) as W.
  destruct (generate_sql_wrapped service (requests st) q) as [v n].
  cbn [snd requests] in *. rewrite W. now destruct (fast_intent q).
Qed.

(** X11. The count of requests never goes down, and a session adds at most
    one request for each of its questions that no shortcut answers: none at
    all when a shortcut answers every question. *)
Theorem session_requests service (qs : list str) (st : state) :
  let st' := snd (session service st qs) in
  requests st <= requests st' /\
  requests st' <=
    requests st +
    List.length (filter (fun q => match fast_intent q with
                                  | None => true
                                  | Some _ => false
                                  end) qs).
Proof.
  revert st; induction qs as [|q qs IH]; intros st; cbn zeta.
  - cbn [session snd filter List.length]. lia.
  - cbn [session].
    pose proof (generate_sql_requests service st q) as R.
    destruct (generate_sql service st q) as [v st1] eqn:G.
    specialize (IH st1). cbn zeta in IH.
    destruct (session service st1 qs) as [vs st2] eqn:S.
    cbn [snd] in *. cbn [filter].
    destruct (cache_get q (cache st)); destruct (fast_intent q);
      cbn [List.length]; lia.
Qed.

(** ** The earlier cleaner: what it returns *)

Lemma rdrop_while_end (p : ascii -> bool) (s x : str) (d : ascii) :
  rdrop_while p s = x ++ [d] -> p d = false.
Proof.
  intros H. destruct (p d) eqn:E; trivial. exfalso.
  pose proof (rdrop_while_idempotent p s) as I.
  rewrite H, rdrop_while_last in I by assumption.
  pose proof (rdrop_while_length p x) as L.
  rewrite I, length_app in L. simpl in L. lia.
Qed.

Lemma rstrip_semi_open (s : str) :
  endswith (lit ";") (rstrip_semi s) = false.
Proof.
  destruct (rstrip_semi s) as [|d x] eqn:E using rev_ind; [reflexivity|].
  change (lit ";") with [";"%char]. rewrite endswith_last.
  exact (rdrop_while_end _ _ _ _ E).
Qed.

Lemma drop_while_length (p : ascii -> bool) (s : str) :
  List.length (drop_while p s) <= List.length s.
Proof.
  induction s as [|c s IH]; [reflexivity|]. simpl.
  destruct (p c); simpl; lia.
Qed.

(** A text without whitespace at its start has none at the start of its
    beginnings. *)
Lemma lstrip_prefix (a b : str) : lstrip (a ++ b) = a ++ b -> lstrip a = a.
Proof.
  destruct a as [|c a]; [reflexivity|]. unfold lstrip. simpl.
  destruct (Char.is_space c); [|reflexivity]. intros H. exfalso.
  pose proof (drop_while_length Char.is_space (a ++ b)) as L.
  rewrite H in L. simpl in L. lia.
Qed.

Lemma lstrip_rdrop_while (p : ascii -> bool) (s : str) :
  lstrip s = s -> lstrip (rdrop_while p s) = rdrop_while p s.
Proof.
  intros H. destruct (rdrop_while_split p s) as [w [E _]].
  apply (lstrip_prefix _ w). now rewrite <- E.
Qed.

Lemma from_first_some (t s x : str) :
  Draft.from_first t s = Some x ->
  exists a, s = a ++ x /\ startswith t (lower_s x) = true.
Proof.
  induction s as [|c s IH]; cbn [Draft.from_first].
  - destruct (startswith t (lower_s [])) eqn:E; [|discriminate].
    intros [= <-]. now exists [].
  - destruct (startswith t (lower_s (c :: s))) eqn:E.
    + intros [= <-]. now exists [].
    + intros H. destruct (IH H) as [a [-> Hx]]. now exists (c :: a).
Qed.

Lemma from_first_none (t s : str) :
  Draft.from_first t s = None <-> contains t (lower_s s) = false.
Proof.
  induction s as [|c s IH]; cbn [Draft.from_first].
  - simpl. destruct (startswith t []); simpl; split; congruence.
  - change (lower_s (c :: s)) with (Char.lower c :: lower_s s).
    cbn [contains].
    destruct (startswith t (Char.lower c :: lower_s s)); simpl;
      [split; congruence | exact IH].
Qed.

Lemma from_first_head (t s : str) :
  startswith t (lower_s s) = true -> Draft.from_first t s = Some s.
Proof. intros H. destruct s; cbn [Draft.from_first]; now rewrite H. Qed.

Lemma lower_select (sel : str) :
  lower_s sel = lit "select" -> upper_s sel = lit "SELECT".
Proof. intros H. now rewrite <- upper_s_of_lower, H. Qed.

Lemma startswith_select_split (s : str) :
  startswith (lit "select") (lower_s s) = true ->
  exists sel rest, s = sel ++ rest /\ upper_s sel = lit "SELECT".
Proof. intros H. now apply select_split. Qed.

(** Trimming on the right, of whitespace or of semicolons, leaves the
    keyword at the start. *)
Lemma select_start_kept (sel rest : str) :
  upper_s sel = lit "SELECT" ->
  rstrip (sel ++ rest) = sel ++ rstrip rest /\
  rstrip_semi (sel ++ rest) = sel ++ rstrip_semi rest.
Proof.
  intros Hs. destruct (select_shape sel Hs) as [Hl Hlow].
  destruct (select_chars sel Hl Hlow) as [a [pre [z [-> [_ [Hz Hz']]]]]].
  replace ((a :: pre ++ [z]) ++ rest) with ((a :: pre) ++ z :: rest)
    by (simpl; rewrite <- app_assoc; reflexivity).
  unfold rstrip, rstrip_semi. rewrite !rdrop_while_stop by assumption.
  simpl. rewrite <- !app_assoc. now split.
Qed.

Lemma select_start_lower (sel rest : str) :
  upper_s sel = lit "SELECT" ->
  startswith (lit "select") (lower_s (sel ++ rest)) = true.
Proof.
  intros Hs. destruct (select_shape sel Hs) as [_ Hlow].
  rewrite lower_s_app, Hlow. apply startswith_prefix. now eexists.
Qed.

Lemma contains_rdrop_while (p : ascii -> bool) (t s : str) :
  contains t s = false -> contains t (rdrop_while p s) = false.
Proof.
  intros H. destruct (rdrop_while_split p s) as [w [E _]].
  rewrite E in H. destruct (contains t (rdrop_while p s)) eqn:C; trivial.
  now rewrite (contains_app_l _ _ w C) in H.
Qed.

Lemma contains_lower_rdrop_while (p : ascii -> bool) (t s : str) :
  contains t (lower_s s) = false ->
  contains t (lower_s (rdrop_while p s)) = false.
Proof.
  intros H. destruct (rdrop_while_split p s) as [w [E _]].
  rewrite E, lower_s_app in H.
  destruct (contains t (lower_s (rdrop_while p s))) eqn:C; trivial.
  now rewrite (contains_app_l _ _ _ C) in H.
Qed.

(** The two cases of the draft cleaner. *)
Lemma draft_clean_sql_cases (text : str) :
  (exists a sel rest,
     strip_fences text = a ++ sel ++ rest /\
     upper_s sel = lit "SELECT" /\
     contains (lit "select") (lower_s (strip_fences text)) = true /\
     Draft.clean_sql text = sel ++ rstrip_semi (rstrip rest)) \/
  (contains (lit "select") (lower_s (strip_fences text)) = false /\
   Draft.clean_sql text = rstrip_semi (strip_fences text)).
Proof.
  unfold Draft.clean_sql. fold (strip_fences text).
  destruct (Draft.from_first (lit "select") (strip_fences text)) as [x|] eqn:F.
  - left. destruct (from_first_some _ _ _ F) as [a [E Hx]].
    destruct (startswith_select_split x Hx) as [sel [rest [-> Hs]]].
    exists a, sel, rest. split; [exact E|]. split; [exact Hs|]. split.
    + rewrite E, lower_s_app. apply contains_app_r.
      now apply startswith_contains.
    + pose proof (strip_select_prefixed [] sel rest) as S.
      cbn [app] in S. rewrite S; [|intros c [] | exact Hs].
      now apply select_start_kept.
  - right. split; [now apply from_first_none|].
    unfold strip_fences. now rewrite strip_idempotent.
Qed.

Lemma draft_clean_sql_fence_free (text : str) :
  contains (lit "```") (Draft.clean_sql text) = false.
Proof.
  pose proof (strip_fences_fence_free text) as Hf.
  destruct (draft_clean_sql_cases text)
    as [[a [sel [rest [E [Hs [Hc ->]]]]]] | [Hc ->]].
  - rewrite E in Hf.
    destruct (contains (lit "```") (sel ++ rstrip_semi (rstrip rest)))
      eqn:C2; trivial.
    apply contains_infix in C2 as [u [v C2]].
    destruct (rdrop_while_split (Ascii.eqb ";"%char) (rstrip rest))
      as [w1 [E1 _]].
    destruct (rstrip_split rest) as [w2 [E2 _]].
    assert (C3 : contains (lit "```") (a ++ sel ++ rest) = true);
      [|congruence].
    apply contains_infix. exists (a ++ u), (v ++ w1 ++ w2).
    rewrite E2, E1. fold (rstrip_semi (rstrip rest)).
    rewrite <- !app_assoc.
    rewrite (app_assoc sel), C2, <- !app_assoc. reflexivity.
  - now apply contains_rdrop_while.
Qed.

Lemma draft_clean_sql_lstrip (text : str) :
  lstrip (Draft.clean_sql text) = Draft.clean_sql text.
Proof.
  destruct (draft_clean_sql_cases text)
    as [[a [sel [rest [E [Hs [Hc ->]]]]]] | [Hc ->]].
  - pose proof (lstrip_select_prefixed [] sel
                  (rstrip_semi (rstrip rest))) as L.
    cbn [app] in L. apply L; [intros c [] | exact Hs].
  - apply lstrip_rdrop_while. unfold strip_fences. apply lstrip_strip.
Qed.

Lemma draft_clean_sql_open (text : str) :
  endswith (lit ";") (Draft.clean_sql text) = false.
Proof. apply rstrip_semi_open. Qed.

Lemma draft_clean_sql_select (text : str) :
  contains (lit "select") (lower_s (strip_fences text)) = true ->
  startswith (lit "select") (lower_s (Draft.clean_sql text)) = true.
Proof.
  intros H. destruct (draft_clean_sql_cases text)
    as [[a [sel [rest [E [Hs [Hc ->]]]]]] | [Hc _]]; [|congruence].
  now apply select_start_lower.
Qed.

(** X12. What the draft cleaner returns never ends with a semicolon, has
    no whitespace at its start and holds no fence.  When [select] occurs,
    in any case, in the text without its fences, the result starts with it;
    otherwise the result is that text, trimmed and without the semicolons
    at its end. *)
Theorem draft_clean_sql_result (text : str) :
  let r := Draft.clean_sql text in
  endswith (lit ";") r = false /\
  lstrip r = r /\
  contains (lit "```") r = false /\
  (contains (lit "select") (lower_s (strip_fences text)) = true ->
   startswith (lit "select") (lower_s r) = true) /\
  (contains (lit "select") (lower_s (strip_fences text)) = false ->
   r = rstrip_semi (strip_fences text)).
Proof.
  cbn zeta. split; [apply draft_clean_sql_open|].
  split; [apply draft_clean_sql_lstrip|].
  split; [apply draft_clean_sql_fence_free|].
  split; [apply draft_clean_sql_select|].
  intros H. destruct (draft_clean_sql_cases text)
    as [[a [sel [rest [E [Hs [Hc _]]]]]] | [_ Er]]; [congruence | exact Er].
Qed.

(** X13. A second pass of the draft cleaner trims what the first one
    returned once more, whitespace and then semicolons, at the end; a
    result that ends with whitespace is therefore changed by it. *)
Theorem draft_clean_sql_twice (text : str) :
  Draft.clean_sql (Draft.clean_sql text) =
    rstrip_semi (rstrip (Draft.clean_sql text)) /\
  (rstrip (Draft.clean_sql text) <> Draft.clean_sql text ->
   Draft.clean_sql (Draft.clean_sql text) <> Draft.clean_sql text).
Proof.
  assert (T : Draft.clean_sql (Draft.clean_sql text) =
              rstrip_semi (rstrip (Draft.clean_sql text))).
  { set (r := Draft.clean_sql text).
    pose proof (draft_clean_sql_fence_free text) as Hf. fold r in Hf.
    pose proof (draft_clean_sql_lstrip text) as Hl. fold r in Hl.
    assert (Hu : strip_fences r = rstrip r).
    { unfold strip_fences. rewrite fence_free_fixed by assumption.
      unfold strip. now rewrite Hl. }
    assert (Hk : match Draft.from_first (lit "select") (rstrip r) with
                 | Some s => s
                 | None => rstrip r
                 end = rstrip r).
    { destruct (Draft.from_first (lit "select") (rstrip r)) as [x|] eqn:F;
        [|reflexivity].
      destruct (draft_clean_sql_cases text)
        as [[a [sel [rest [E [Hs [Hc Er]]]]]] | [Hc Er]].
      - assert (H0 : startswith (lit "select") (lower_s (rstrip r)) = true).
        { unfold r. rewrite Er.
          rewrite (proj1 (select_start_kept sel _ Hs)).
          now apply select_start_lower. }
        rewrite (from_first_head _ _ H0) in F. congruence.
      - exfalso.
        assert (H0 : contains (lit "select") (lower_s (rstrip r)) = false).
        { unfold rstrip. apply contains_lower_rdrop_while.
          unfold r. rewrite Er. now apply contains_lower_rdrop_while. }
        apply from_first_none in H0. congruence. }
    unfold Draft.clean_sql at 1. fold r. fold (strip_fences r).
    rewrite Hu, Hk.
    assert (Hs : strip (rstrip r) = rstrip r).
    { unfold strip. unfold rstrip at 2.
      rewrite (lstrip_rdrop_while _ _ Hl). fold (rstrip r).
      unfold rstrip. apply rdrop_while_idempotent. }
    now rewrite Hs. }
  split; [exact T|].
  intros H E. apply H. rewrite T in E.
  destruct (rdrop_while_split (Ascii.eqb ";"%char)
              (rstrip (Draft.clean_sql text))) as [w [Ew _]].
  fold (rstrip_semi (rstrip (Draft.clean_sql text))) in Ew.
  rewrite E in Ew.
  destruct (rstrip_split (Draft.clean_sql text)) as [w' [Ew' _]].
  rewrite Ew in Ew' at 1.
  rewrite <- app_assoc in Ew'.
  rewrite <- (app_nil_r (Draft.clean_sql text)) in Ew' at 1.
  apply app_inv_head in Ew'. symmetry in Ew'.
  apply app_eq_nil in Ew' as [-> _].
  now rewrite app_nil_r in Ew.
Qed.

Lemma draft_clean_sql_twice_witness :
  Draft.clean_sql (Draft.clean_sql (lit "select 1 ; ;")) <>
  Draft.clean_sql (lit "select 1 ; ;").
Proof.
  apply (proj2 (draft_clean_sql_twice (lit "select 1 ; ;"))).
  vm_compute. discriminate.
Defined.

(** ** The earlier orchestrator: what it lets through *)

Lemma contains_ci (p s : str) :
  contains (lower_s p) (lower_s s) = contains (upper_s p) (upper_s s).
Proof.
  pose proof (fun x => startswith_ci_upper p x) as H.
  unfold startswith_ci in H.
  induction s as [|c s IH].
  - pose proof (H []) as H0.
    change (startswith (lower_s p) [] = startswith (upper_s p) []) in H0.
    change (startswith (lower_s p) [] || false =
            startswith (upper_s p) [] || false).
    now rewrite H0.
  - change (lower_s (c :: s)) with (Char.lower c :: lower_s s).
    change (upper_s (c :: s)) with (Char.upper c :: upper_s s).
    cbn [contains]. rewrite IH. f_equal. apply (H (c :: s)).
Qed.

(** The six words of the draft's list are, in upper case, the tokens of the
    validator other than the two dashes. *)
Lemma draft_tokens (s : str) :
  any_in DraftOrchestrator.forbidden (lower_s s) = false ->
  forall t, In t forbidden -> t <> lit "--" -> free t s.
Proof.
  intros H t Ht Hne. unfold free.
  destruct (forbidden_shape t Ht) as [_ [_ Hu]].
  rewrite <- Hu, <- contains_ci.
  destruct (contains (lower_s t) (lower_s s)) eqn:C; trivial.
  assert (A : any_in DraftOrchestrator.forbidden (lower_s s) = true);
    [|congruence].
  apply (any_in_true _ (lower_s t)); [|exact C].
  simpl in Ht.
  repeat (destruct Ht as [<- | Ht];
          [first [now elim Hne | cbv; auto 10]|]).
  destruct Ht.
Qed.

Lemma draft_generate_sql_some chat (q r : str) :
  DraftOrchestrator.generate_sql chat q = Some r ->
  (exists raw, chat (DraftOrchestrator.build_prompt q) = Response raw /\
               r = Draft.clean_sql raw) /\
  startswith (lit "select") (lower_s r) = true /\
  any_in DraftOrchestrator.forbidden (lower_s r) = false.
Proof.
  unfold DraftOrchestrator.generate_sql.
  destruct (chat (DraftOrchestrator.build_prompt q)) as [raw|];
    [|discriminate].
  cbn zeta.
  destruct (startswith (lit "select") (lower_s (Draft.clean_sql raw))) eqn:S;
    cbn [negb]; [|discriminate].
  destruct (any_in DraftOrchestrator.forbidden
              (lower_s (Draft.clean_sql raw))) eqn:A; [discriminate|].
  intros [= <-]. split; [now exists raw | now split].
Qed.

Lemma draft_generate_sql_checked chat (q r : str) :
  DraftOrchestrator.generate_sql chat q = Some r ->
  r <> [] /\ select_prefixed r /\ begins_with_select r /\
  (forall t, In t forbidden -> t <> lit "--" -> free t r) /\
  endswith (lit ";") r = false.
Proof.
  intros H. destruct (draft_generate_sql_some chat q r H)
    as [[raw [_ Er]] [S A]].
  destruct (startswith_select_split r S) as [sel [rest [E Hs]]].
  assert (P : select_prefixed r).
  { exists [], sel, rest. split; [exact E|]. split; [intros c []|exact Hs]. }
  split; [intros ->; discriminate|]. split; [exact P|]. split.
  - unfold begins_with_select. rewrite E.
    pose proof (lstrip_select_prefixed [] sel rest) as L. cbn [app] in L.
    rewrite L; [|intros c [] | exact Hs].
    rewrite <- E. exact S.
  - split; [now apply draft_tokens|].
    rewrite Er. apply draft_clean_sql_open.
Qed.

(** X14. A statement that the earlier [generate_sql] returns is the draft
    cleaning of the answer of the service; it begins with SELECT in any
    case, none of UPDATE, DELETE, INSERT, DROP, ALTER, TRUNCATE occurs in
    it in any case, and it does not end with a semicolon.  Two dashes are
    not looked for: the validator of the later pipeline accepts the
    statement exactly when it holds none. *)
Theorem draft_statement_checked chat (q r : str) :
  DraftOrchestrator.generate_sql chat q = Some r ->
  (exists raw, chat (DraftOrchestrator.build_prompt q) = Response raw /\
               r = Draft.clean_sql raw) /\
  begins_with_select r /\
  (forall t, In t forbidden -> t <> lit "--" -> ~ occurs_ci t r) /\
  endswith (lit ";") r = false /\
  (valid_sql r = true <-> ~ occurs_ci (lit "--") r).
Proof.
  intros H.
  destruct (draft_generate_sql_some chat q r H) as [Hraw _].
  destruct (draft_generate_sql_checked chat q r H) as [_ [P [B [F O]]]].
  split; [exact Hraw|]. split; [exact B|]. split.
  - intros t Ht Hne. rewrite occurs_ci_contains.
    specialize (F t Ht Hne). unfold free in F. now rewrite F.
  - split; [exact O|]. split.
    + intros V. apply valid_sql_prefixed in V as [_ V].
      apply (proj1 (token_free_occurs r) V). cbv. auto 10.
    + intros D. apply prefixed_valid_sql; [exact P|].
      intros t Ht.
      destruct (list_eq_dec ascii_dec t (lit "--")) as [-> | Hne].
      * unfold free. rewrite occurs_ci_contains in D.
        now apply not_true_is_false.
      * now apply F.
Qed.

Lemma draft_statement_checked_witness :
  valid_sql (lit "SELECT a FROM t -- all") <> true.
Proof.
  intros V.
  assert (H : DraftOrchestrator.generate_sql
                (fun _ => Response (lit "```sql
SELECT a FROM t -- all;
```"))
                (lit "list a") = Some (lit "SELECT a FROM t -- all"))
    by (vm_compute; reflexivity).
  apply draft_statement_checked in H as [_ [_ [_ [_ [I _]]]]].
  apply I in V. apply V.
  exists (lit "SELECT a FROM t "), (lit "--"), (lit " all").
  split; reflexivity.
Defined.

(** ** Chat engine: what reaches the database *)

Lemma chatbot_cases (row : Type) chat validate_sql run_query to_string
      (q : str) :
  let out := Chatbot.chatbot row chat validate_sql run_query to_string q in
  (DraftOrchestrator.generate_sql chat q = None /\
   out = (Chatbot.no_sql, [])) \/
  (exists sql, DraftOrchestrator.generate_sql chat q = Some sql /\
     validate_sql sql = false /\ out = (Chatbot.invalid_query sql, [])) \/
  (exists sql e, DraftOrchestrator.generate_sql chat q = Some sql /\
     validate_sql sql = true /\ run_query sql = Chatbot.Raised row e /\
     out = (Chatbot.database_error e sql, [sql])) \/
  (exists sql data, DraftOrchestrator.generate_sql chat q = Some sql /\
     validate_sql sql = true /\ run_query sql = Chatbot.Data row data /\
     out = (Formatter.format_response row to_string data, [sql])).
Proof.
  cbn zeta. unfold Chatbot.chatbot.
  destruct (DraftOrchestrator.generate_sql chat q) as [sql|] eqn:G;
    [|now left].
  destruct (draft_generate_sql_checked chat q sql G) as [Hne _].
  destruct sql as [|c sql]; [congruence|]. right.
  destruct (validate_sql (c :: sql)) eqn:V; cbn [negb].
  - right. destruct (run_query (c :: sql)) as [data|e] eqn:R.
    + right. now exists (c :: sql), data.
    + left. now exists (c :: sql), e.
  - left. now exists (c :: sql).
Qed.

(** X15. [chatbot] hands at most one statement to [run_query]: the one the
    earlier [generate_sql] returned, and only when [validate_sql] accepted
    it; it begins with SELECT and none of the six words of the draft's list
    occurs in it.  Nothing is run exactly when no statement was generated
    or the guard turned it down. *)
Theorem chatbot_runs_checked_statement
        (row : Type) chat validate_sql run_query to_string (q : str) :
  let ran :=
    snd (Chatbot.chatbot row chat validate_sql run_query to_string q) in
  (forall sql, In sql ran ->
     ran = [sql] /\
     DraftOrchestrator.generate_sql chat q = Some sql /\
     validate_sql sql = true /\
     begins_with_select sql /\
     (forall t, In t forbidden -> t <> lit "--" -> ~ occurs_ci t sql)) /\
  (ran = [] <->
   DraftOrchestrator.generate_sql chat q = None \/
   exists sql, DraftOrchestrator.generate_sql chat q = Some sql /\
               validate_sql sql = false).
Proof.
  cbn zeta.
  assert (K : forall sql,
            DraftOrchestrator.generate_sql chat q = Some sql ->
            begins_with_select sql /\
            (forall t, In t forbidden -> t <> lit "--" -> ~ occurs_ci t sql)).
  { intros sql G.
    destruct (draft_generate_sql_checked chat q sql G) as [_ [_ [B [F _]]]].
    split; [exact B|]. intros t Ht Hne. rewrite occurs_ci_contains.
    specialize (F t Ht Hne). unfold free in F. now rewrite F. }
  destruct (chatbot_cases row chat validate_sql run_query to_string q)
    as [[G ->] | [[sql [G [V ->]]] | [[sql [e [G [V [R ->]]]]]
                                     | [sql [data [G [V [R ->]]]]]]]];
    cbn [snd].
  - split; [intros sql []|]. split; [now left | reflexivity].
  - split; [intros s []|]. split; [|reflexivity].
    intros _. right. now exists sql.
  - split.
    + intros s [<- | []]. destruct (K sql G). repeat split; trivial.
    + split; [discriminate|].
      intros [G' | [s [G' V']]]; congruence.
  - split.
    + intros s [<- | []]. destruct (K sql G). repeat split; trivial.
    + split; [discriminate|].
      intros [G' | [s [G' V']]]; congruence.
Qed.

Lemma chatbot_runs_checked_statement_witness :
  begins_with_select (lit "select a from t").
Proof.
  pose (chat := fun _ : str => Response (lit "Here: select a from t;")).
  pose (run := fun _ : str => Chatbot.Data nat None).
  destruct (chatbot_runs_checked_statement nat chat (fun _ => true) run
              (fun _ => []) (lit "list a")) as [H _].
  refine (proj1 (proj2 (proj2 (proj2 (H (lit "select a from t") _))))).
  vm_compute. now left.
Defined.

(** ** Chat engine: the mark at the start of the reply *)

Lemma format_response_mark (row : Type) to_string data :
  exists rest,
    Formatter.format_response row to_string data =
    Formatter.WARNING_SIGN ++ rest.
Proof.
  unfold Formatter.format_response, Formatter.found.
  destruct data as [d|]; [|now eexists].
  destruct (Formatter.empty row d); [now eexists|].
  destruct (List.length (Formatter.rows row d) =? 1); [now eexists|].
  destruct (List.length (Formatter.rows row d) <=? 5); now eexists.
Qed.

(** X16. The reply of [chatbot] starts with the cross mark exactly when
    [run_query] raised on the statement it was handed, and with the warning
    sign in every other case. *)
Theorem chatbot_reply_mark
        (row : Type) chat validate_sql run_query to_string (q : str) :
  let out := Chatbot.chatbot row chat validate_sql run_query to_string q in
  (startswith Chatbot.CROSS_MARK (fst out) = true <->
   exists sql e, snd out = [sql] /\ run_query sql = Chatbot.Raised row e) /\
  startswith Formatter.WARNING_SIGN (fst out) =
    negb (startswith Chatbot.CROSS_MARK (fst out)).
Proof.
  cbn zeta.
  destruct (chatbot_cases row chat validate_sql run_query to_string q)
    as [[G ->] | [[sql [G [V ->]]] | [[sql [e [G [V [R ->]]]]]
                                     | [sql [data [G [V [R ->]]]]]]]];
    cbn [fst snd].
  - split; [|reflexivity].
    split; [discriminate | intros [s [e [E _]]]; discriminate].
  - split; [|reflexivity].
    split; [discriminate | intros [s [e [E _]]]; discriminate].
  - split; [|reflexivity].
    split; [intros _; now exists sql, e | reflexivity].
  - destruct (format_response_mark row to_string data) as [rest ->].
    split; [|reflexivity].
    split; [discriminate|].
    intros [s [e [[= <-] R']]]. congruence.
Qed.

Lemma chatbot_reply_mark_witness :
  startswith Chatbot.CROSS_MARK
    (fst (Chatbot.chatbot nat
            (fun _ => Response (lit "select a from t"))
            (fun _ => true)
            (fun _ => Chatbot.Raised nat (lit "no such table"))
            (fun _ => [])
            (lit "list a"))) = true.
Proof.
  apply (proj2 (proj1 (chatbot_reply_mark nat
            (fun _ => Response (lit "select a from t"))
            (fun _ => true)
            (fun _ => Chatbot.Raised nat (lit "no such table"))
            (fun _ => [])
            (lit "list a")))).
  exists (lit "select a from t"), (lit "no such table").
  split; reflexivity.
Defined.

(** ** Formatter *)

(** X17. The reply to a result depends on the number of its rows, on its
    columns and on its first five rows only: no later row is shown. *)
Theorem format_response_shows_five
        (row : Type) (to_string : Formatter.frame row -> str)
        (d1 d2 : Formatter.frame row) :
  List.length (Formatter.rows row d1) = List.length (Formatter.rows row d2) ->
  Formatter.head row 5 d1 = Formatter.head row 5 d2 ->
  Formatter.format_response row to_string (Some d1) =
  Formatter.format_response row to_string (Some d2).
Proof.
  intros HL HH.
  assert (HC : Formatter.columns row d1 = Formatter.columns row d2).
  { unfold Formatter.head in HH. now injection HH. }
  unfold Formatter.format_response, Formatter.found, Formatter.empty.
  rewrite HL, HH, HC.
  destruct (Formatter.rows row d1) as [|r1 l1];
    destruct (Formatter.rows row d2) as [|r2 l2]; try discriminate HL;
    reflexivity.
Qed.

Lemma format_response_shows_five_witness :
  let to_string := fun d : Formatter.frame nat =>
    List.concat (map Formatter.decimal (Formatter.rows nat d)) in
  Formatter.format_response nat to_string
    (Some (Formatter.mkFrame nat [lit "id"] [1; 2; 3; 4; 5; 6])) =
  Formatter.format_response nat to_string
    (Some (Formatter.mkFrame nat [lit "id"] [1; 2; 3; 4; 5; 7])).
Proof.
  intros to_string.
  apply format_response_shows_five; reflexivity.
Defined.

(** ** Prompt builders *)

(** X18. Both prompts carry the question as it is, between fixed texts:
    two questions with the same prompt are the same question. *)
Theorem prompts_injective (q1 q2 : str) :
  (build_prompt q1 = build_prompt q2 -> q1 = q2) /\
  (DraftOrchestrator.build_prompt q1 = DraftOrchestrator.build_prompt q2 ->
   q1 = q2).
Proof.
  split.
  - unfold build_prompt. intros H.
    repeat apply app_inv_head in H. now apply app_inv_tail in H.
  - unfold DraftOrchestrator.build_prompt. intros H.
    repeat apply app_inv_head in H. now apply app_inv_tail in H.
Qed.

(** ** The question cache and a service that answers by the prompt *)

Lemma wrapped_by_prompt service (n m : nat) (q : str) :
  (forall p, service n p = service m p) ->
  fst (generate_sql_wrapped service n q) =
  fst (generate_sql_wrapped service m q).
Proof.
  intros H. unfold generate_sql_wrapped, call_llm. rewrite H.
  destruct (fast_intent q) as [[|c f]|]; [|reflexivity|];
    (destruct (service m (build_prompt q)) as [text|]; [|reflexivity];
     destruct (strip text); [reflexivity|]; now destruct (negb _)).
Qed.

(** X19. When the reply of the service goes by the prompt alone, the cache
    is not seen in the results: whatever was asked before, [generate_sql]
    returns what its body returns for the question. *)
Theorem cache_transparent service (before : list str) (q : str) :
  (forall n m p, service n p = service m p) ->
  fst (generate_sql service (snd (session service initial before)) q) =
  fst (generate_sql_wrapped service 0 q).
Proof.
  intros H.
  destruct (generate_sql_sound service
              (snd (session service initial before)) q) as [_ [n E]].
  { apply session_sound, initial_sound. }
  rewrite E. apply wrapped_by_prompt. intros p. apply H.
Qed.

Lemma cache_transparent_witness :
  let service := fun (_ : nat) (p : str) =>
    if contains (lit "closed") p
    then Response (lit "SELECT id FROM t WHERE s = 'closed'")
    else Failure in
  fst (generate_sql service
         (snd (session service initial
                 [lit "closed tickets"; lit "all tickets"]))
         (lit "closed tickets")) =
  Some (lit "SELECT id FROM ticketdetails WHERE TicketStatus = 'closed' LIMIT 50;").
Proof.
  intros service.
  etransitivity;
    [apply (cache_transparent service
              [lit "closed tickets"; lit "all tickets"]
              (lit "closed tickets")); reflexivity|].
  vm_compute. reflexivity.
Defined.

(** ** The question cache: when an answer is dropped *)

Lemma cache_get_absent (q : str) (c : list (str * option str)) :
  ~ In q (map fst c) -> cache_get q c = None.
Proof.
  induction c as [|[k w] c IH]; simpl; [reflexivity|]. intros H.
  destruct (str_eqb k q) eqn:E.
  - apply str_eqb_eq in E. exfalso. apply H. now left.
  - apply IH. intros Hin. apply H. now right.
Qed.

Lemma firstn_app_firstn {A} (m : nat) (a b : list A) :
  firstn m (a ++ firstn m b) = firstn m (a ++ b).
Proof.
  rewrite !firstn_app, firstn_firstn. do 2 f_equal. lia.
Qed.

Lemma in_firstn {A} (n : nat) (l : list A) (x : A) :
  In x (firstn n l) -> In x l.
Proof.
  intros H. rewrite <- (firstn_skipn n l). apply in_or_app. now left.
Qed.

(** Questions that are new to the cache, each asked once, are its first
    entries, the last one first. *)
Lemma session_of_new_questions service (qs : list str) (st : state) :
  NoDup qs ->
  (forall q, In q qs -> cache_get q (cache st) = None) ->
  map fst (cache (snd (session service st qs))) =
  firstn maxsize (rev qs ++ map fst (cache st)) \/
  maxsize < List.length (cache st).
Proof.
  revert st; induction qs as [|q qs IH]; intros st Hn Hq.
  - cbn [session snd rev app].
    destruct (Nat.le_gt_cases (List.length (cache st)) maxsize) as [L | L];
      [left | now right].
    rewrite firstn_all2; [reflexivity|]. now rewrite length_map.
  - inversion Hn as [|? ? Hq1 Hn1]; subst.
    cbn [session].
    destruct (generate_sql service st q) as [v st1] eqn:G.
    assert (E1 : cache st1 = firstn maxsize ((q, v) :: cache st)).
    { unfold generate_sql in G.
      rewrite (Hq q (or_introl eq_refl)) in G.
      destruct (generate_sql_wrapped service (requests st) q) as [v' n].
      now injection G as <- <-. }
    assert (Hq' : forall q', In q' qs -> cache_get q' (cache st1) = None).
    { intros q' Hin. apply cache_get_absent. rewrite E1, <- firstn_map.
      intros H. apply in_firstn in H. cbn [map fst] in H.
      destruct H as [<- | H]; [contradiction|].
      revert H. apply cache_get_none, Hq. now right. }
    specialize (IH st1 Hn1 Hq').
    destruct (session service st1 qs) as [vs st2] eqn:S. cbn [snd] in *.
    left. destruct IH as [IH | IH].
    + rewrite IH, E1, <- firstn_map. cbn [map fst rev].
      rewrite firstn_app_firstn, <- app_assoc. reflexivity.
    + exfalso. rewrite E1, length_firstn in IH. lia.
Qed.

(** X20. An answer is dropped once [maxsize] questions that are new to the
    cache have been asked after it: the question is then answered by the
    body again, with a request to the service when no shortcut applies. *)
Theorem answer_dropped_by_new_questions
        service (st : state) (q : str) (qs : list str) :
  List.length (cache st) <= maxsize ->
  NoDup qs -> ~ In q qs ->
  (forall q', In q' qs -> cache_get q' (cache st) = None) ->
  maxsize <= List.length qs ->
  let st2 := snd (session service (snd (generate_sql service st q)) qs) in
  cache_get q (cache st2) = None /\
  fst (generate_sql service st2 q) =
    fst (generate_sql_wrapped service (requests st2) q) /\
  (fast_intent q = None ->
   requests (snd (generate_sql service st2 q)) = S (requests st2)).
Proof.
  intros HL Hn Hq Hc Hm st2.
  set (st1 := snd (generate_sql service st q)) in *.
  assert (L1 : List.length (cache st1) <= maxsize).
  { unfold st1, generate_sql.
    destruct (cache_get q (cache st)) as [v|] eqn:E.
    - cbn [snd cache List.length].
      now rewrite (cache_remove_length _ _ _ E).
    - destruct (generate_sql_wrapped service (requests st) q) as [v n].
      cbn [snd cache]. rewrite length_firstn. apply Nat.le_min_l. }
  assert (K1 : forall q', In q' qs -> cache_get q' (cache st1) = None).
  { intros q' Hin. apply cache_get_absent.
    assert (Hne : q <> q') by (intros ->; contradiction).
    pose proof (cache_get_none _ _ (Hc q' Hin)) as Ho.
    unfold st1, generate_sql.
    destruct (cache_get q (cache st)) as [v|] eqn:E.
    - cbn [snd cache map fst]. intros [H | H]; [contradiction|].
      now apply cache_remove_keys in H.
    - destruct (generate_sql_wrapped service (requests st) q) as [v n].
      cbn [snd cache]. rewrite <- firstn_map. intros H.
      apply in_firstn in H. cbn [map fst] in H.
      destruct H as [H | H]; [contradiction | contradiction]. }
  assert (N : cache_get q (cache st2) = None).
  { apply cache_get_absent.
    destruct (session_of_new_questions service qs st1 Hn K1) as [E | E];
      [|lia].
    unfold st2. rewrite E, firstn_app.
    replace (maxsize - List.length (rev qs)) with 0
      by (rewrite length_rev; lia).
    cbn [firstn]. rewrite app_nil_r. intros H.
    apply in_firstn in H. apply in_rev in H. contradiction. }
  split; [exact N|].
  unfold generate_sql. rewrite N.
  pose proof (wrapped_requests service (requests st2) q) as W.
  destruct (generate_sql_wrapped service (requests st2) q) as [v n].
  cbn [fst snd requests] in *. split; [reflexivity|].
  intros F. now rewrite F in W.
Qed.

Lemma nodup_map_inj {A B} (f : A -> B) (l : list A) :
  (forall x y, f x = f y -> x = y) -> NoDup l -> NoDup (map f l).
Proof.
  intros Hf. induction l as [|x l IH]; intros H; [constructor|].
  inversion H as [|? ? Hx Hl]; subst. cbn [map]. constructor; [|now apply IH].
  intros Hin. apply in_map_iff in Hin as [y [E Hy]].
  apply Hf in E. now subst.
Qed.

Lemma answer_dropped_by_new_questions_witness :
  let service := fun (_ : nat) (_ : str) => Failure in
  let qs := map (fun n => repeat "a"%char n) (seq 1 maxsize) in
  let st2 :=
    snd (session service (snd (generate_sql service initial (lit "q"))) qs) in
  cache_get (lit "q") (cache st2) = None.
Proof.
  intros service qs st2.
  refine (proj1 (answer_dropped_by_new_questions
                   service initial (lit "q") qs _ _ _ _ _)).
  - apply Nat.le_0_l.
  - apply nodup_map_inj; [|apply seq_NoDup].
    intros x y E. apply (f_equal (@List.length ascii)) in E.
    now rewrite !repeat_length in E.
  - intros H. apply in_map_iff in H as [n [E Hn]].
    apply in_seq in Hn. destruct n as [|n]; [lia | discriminate E].
  - reflexivity.
  - unfold qs. rewrite length_map, length_seq. apply Nat.le_refl.
Defined.

(** ** The two cleaners *)

Lemma from_first_first (t s x : str) :
  Draft.from_first t s = Some x ->
  exists a, s = a ++ x /\ startswith t (lower_s x) = true /\
    forall a1 a2, a = a1 ++ a2 -> a2 <> [] ->
      startswith t (lower_s (a2 ++ x)) = false.
Proof.
  induction s as [|c s IH]; cbn [Draft.from_first].
  - destruct (startswith t (lower_s [])) eqn:E; [|discriminate].
    intros [= <-]. exists []. repeat split; trivial.
    intros a1 a2 H. symmetry in H. apply app_eq_nil in H as [_ ->].
    congruence.
  - destruct (startswith t (lower_s (c :: s))) eqn:E.
    + intros [= <-]. exists []. repeat split; trivial.
      intros a1 a2 H. symmetry in H. apply app_eq_nil in H as [_ ->].
      congruence.
    + intros H. destruct (IH H) as [a [-> [Hx Hf]]].
      exists (c :: a). repeat split; trivial.
      intros [|d a1] a2 Ha Hne.
      * cbn [app] in Ha. subst a2. exact E.
      * injection Ha as _ Ha. now apply (Hf a1 a2).
Qed.

Lemma re_search_at (m : matcher) (a b : str) (n : nat) :
  (forall a1 a2, a = a1 ++ a2 -> a2 <> [] -> m (a2 ++ b) = None) ->
  m b = Some n -> re_search m (a ++ b) = Some (firstn n b).
Proof.
  intros Hf Hm. induction a as [|c a IH]; cbn [app].
  - destruct b; cbn [re_search]; now rewrite Hm.
  - cbn [re_search].
    assert (H0 : m (c :: a ++ b) = None)
      by (apply (Hf [] (c :: a) eq_refl); discriminate).
    rewrite H0. apply IH. intros a1 a2 -> Hne. now apply (Hf (c :: a1) a2).
Qed.

Lemma match_select_semi_absent (b : str) :
  ~ In ";"%char b -> match_select_semi b = None.
Proof.
  intros H. unfold match_select_semi.
  destruct (startswith_ci (lit "SELECT") b); [|reflexivity].
  destruct (skipn 6 b) as [|c rest] eqn:K; [reflexivity|].
  rewrite find_semi_absent; [reflexivity|].
  intros Hin. apply H. apply (in_skipn 6). rewrite K. now right.
Qed.

Lemma rdrop_while_none (p : ascii -> bool) (s : str) :
  (forall c, In c s -> p c = false) -> rdrop_while p s = s.
Proof.
  intros H. destruct s as [|d x] using rev_ind; [reflexivity|].
  rewrite <- (app_nil_r (x ++ [d])) at 1. rewrite <- app_assoc.
  cbn [app]. rewrite rdrop_while_stop; [reflexivity|].
  apply H. apply in_or_app. right. now left.
Qed.

Lemma rstrip_semi_absent (s : str) : ~ In ";"%char s -> rstrip_semi s = s.
Proof.
  intros H. apply rdrop_while_none. intros c Hc.
  destruct (Ascii.eqb ";" c) eqn:E; trivial.
  apply Ascii.eqb_eq in E. subst c. contradiction.
Qed.

(** X21. On an answer with no semicolon left after the fences are removed,
    the cleaner and its draft return the same text, but for two cases in
    which the cleaner returns the empty string: the draft returns the bare
    keyword when the text ends with its first SELECT, and the whole text
    when there is no SELECT in it. *)
Theorem cleaners_agree_without_semicolon (raw : str) :
  ~ In ";"%char (strip_fences raw) ->
  clean_sql raw = Draft.clean_sql raw \/
  clean_sql raw = [] /\
  (upper_s (Draft.clean_sql raw) = lit "SELECT" \/
   contains (lit "select") (lower_s (strip_fences raw)) = false /\
   Draft.clean_sql raw = strip_fences raw).
Proof.
  intros H.
  destruct raw as [|r0 raw0]; [left; reflexivity|].
  set (raw := r0 :: raw0) in *.
  assert (Hc : clean_sql raw =
               match re_search match_select_rest (strip_fences raw) with
               | Some m => strip m
               | None => []
               end).
  { unfold raw, clean_sql. fold raw.
    rewrite (re_search_none match_select_semi); [reflexivity|].
    intros a b E. apply match_select_semi_absent.
    intros Hin. apply H. rewrite E. apply in_or_app. now right. }
  destruct (draft_clean_sql_cases raw)
    as [[a0 [sel0 [rest0 [_ [_ [Hs _]]]]]] | [Hs Ed]].
  - clear a0 sel0 rest0.
    destruct (Draft.from_first (lit "select") (strip_fences raw))
      as [x|] eqn:F;
      [|apply from_first_none in F; congruence].
    destruct (from_first_first _ _ _ F) as [a [E [Hx Hf]]].
    destruct (startswith_select_split x Hx) as [sel [rest [-> Hsel]]].
    destruct (select_shape sel Hsel) as [Hl Hlow].
    assert (Ed : Draft.clean_sql raw = sel ++ rstrip_semi (rstrip rest)).
    { unfold Draft.clean_sql. fold (strip_fences raw). rewrite F.
      pose proof (strip_select_prefixed [] sel rest) as S.
      cbn [app] in S. rewrite S; [|intros c [] | exact Hsel].
      now apply select_start_kept. }
    destruct rest as [|c rest].
    + right. split.
      * rewrite Hc, re_search_none; [reflexivity|].
        intros a' b Eb. rewrite E in Eb.
        unfold match_select_rest.
        destruct (startswith_ci (lit "SELECT") b) eqn:Sb; [|reflexivity].
        apply app_eq_app in Eb as [l [[-> ->] | [-> Eb]]].
        -- destruct l as [|l0 l1].
           ++ cbn [app]. rewrite app_nil_r.
              now rewrite skipn_all2 by (rewrite Hl; lia).
           ++ unfold startswith_ci in Sb.
              change (lower_s (lit "SELECT")) with (lit "select") in Sb.
              rewrite (Hf a' (l0 :: l1) eq_refl) in Sb by discriminate.
              discriminate.
        -- rewrite skipn_all2; [reflexivity|].
           rewrite app_nil_r in Eb.
           apply (f_equal (@List.length ascii)) in Eb.
           rewrite length_app in Eb. lia.
      * left. rewrite Ed. unfold rstrip, rstrip_semi. cbn.
        now rewrite app_nil_r.
    + left. rewrite Hc, E.
      rewrite (re_search_at match_select_rest a (sel ++ c :: rest)
                 (List.length (sel ++ c :: rest))).
      * rewrite firstn_all, Ed.
        pose proof (strip_select_prefixed [] sel (c :: rest)) as S.
        cbn [app] in S. rewrite S; [|intros d [] | exact Hsel].
        f_equal. symmetry. apply rstrip_semi_absent.
        intros Hin. apply H. rewrite E.
        apply in_or_app. right. apply in_or_app. right.
        destruct (rstrip_split (c :: rest)) as [w [Ew _]].
        rewrite Ew. apply in_or_app. now left.
      * intros a1 a2 Ha Hne. unfold match_select_rest, startswith_ci.
        change (lower_s (lit "SELECT")) with (lit "select").
        now rewrite (Hf a1 a2 Ha Hne).
      * unfold match_select_rest, startswith_ci.
        change (lower_s (lit "SELECT")) with (lit "select").
        rewrite Hx. now rewrite (skipn_app_exact sel _ _ Hl).
  - right. split.
    + assert (C : contains (lit "SELECT") (upper_s (strip_fences raw)) = false).
      { pose proof (contains_ci (lit "SELECT") (strip_fences raw)) as C.
        change (lower_s (lit "SELECT")) with (lit "select") in C.
        change (upper_s (lit "SELECT")) with (lit "SELECT") in C.
        now rewrite <- C. }
      rewrite Hc, re_search_none; [reflexivity|].
      intros a b E. unfold match_select_rest.
      now rewrite (select_absent_no_match (strip_fences raw) C a b E).
    + right. split; [exact Hs|]. rewrite Ed. now apply rstrip_semi_absent.
Qed.

Lemma cleaners_agree_without_semicolon_witness :
  clean_sql (lit "```sql
select a from t
```") = Draft.clean_sql (lit "```sql
select a from t
```").
Proof.
  destruct (cleaners_agree_without_semicolon (lit "```sql
select a from t
```")) as [H | [H _]].
  - vm_compute. intros H.
    repeat (destruct H as [H | H]; [discriminate H|]). exact H.
  - exact H.
  - vm_compute in H. discriminate H.
Defined.

(** ** Intent shortcuts and the case of the letters *)

Lemma lower_s_idempotent (s : str) : lower_s (lower_s s) = lower_s s.
Proof.
  unfold lower_s. rewrite map_map. apply map_ext.
  intros c. rewrite <- (lower_upper c) at 2.
  rewrite <- (lower_upper (Char.lower c)). now rewrite upper_lower.
Qed.

(** X22. The shortcuts go by the question in lower case: a question, its
    lower-case form and its upper-case form get the same shortcut, or
    none. *)
Theorem fast_intent_ignores_case (q : str) :
  fast_intent (lower_s q) = fast_intent q /\
  fast_intent (upper_s q) = fast_intent q.
Proof.
  unfold fast_intent. cbn zeta.
  now rewrite lower_s_idempotent, lower_s_of_upper.
Qed.

(** * The wider alphabet

    On ASCII text the pipeline on the wider alphabet is the pipeline
    above: every function of the one, applied to the image of a text, gives
    the image of what the function of the other gives. *)



































(** ** The invariant of generated statements, on the wider alphabet *)

















(** * The validations, the clauses and the shortcuts, against the
      specification *)

(** ** The two validations *)

Lemma draft_words_iff (s : str) :
  any_in DraftOrchestrator.forbidden (lower_s s) = true <->
  exists t, In t forbidden /\ t <> lit "--" /\ occurs_ci t s.
Proof.
  split.
  - assert (K : forall t, In t forbidden -> t <> lit "--" ->
                  contains (lower_s t) (lower_s s) = true ->
                  exists t, In t forbidden /\ t <> lit "--" /\ occurs_ci t s).
    { intros t Ht Hne C. exists t. split; [exact Ht|]. split; [exact Hne|].
      rewrite occurs_ci_contains.
      destruct (forbidden_shape t Ht) as [_ [_ Hu]].
      now rewrite <- Hu, <- contains_ci. }
    unfold any_in, DraftOrchestrator.forbidden. cbn [map existsb].
    rewrite !orb_true_iff.
    intros [H | [H | [H | [H | [H | [H | H]]]]]]; [| | | | | |discriminate H].
    + apply (K (lit "UPDATE")); [cbv; auto 10 | discriminate | exact H].
    + apply (K (lit "DELETE")); [cbv; auto 10 | discriminate | exact H].
    + apply (K (lit "INSERT")); [cbv; auto 10 | discriminate | exact H].
    + apply (K (lit "DROP")); [cbv; auto 10 | discriminate | exact H].
    + apply (K (lit "ALTER")); [cbv; auto 10 | discriminate | exact H].
    + apply (K (lit "TRUNCATE")); [cbv; auto 10 | discriminate | exact H].
  - intros [t [Ht [Hne O]]].
    destruct (any_in DraftOrchestrator.forbidden (lower_s s)) eqn:A;
      [reflexivity|].
    pose proof (draft_tokens s A t Ht Hne) as F. unfold free in F.
    rewrite occurs_ci_contains in O. congruence.
Qed.

Lemma draft_start_iff (s : str) :
  startswith (lit "select") (lower_s s) =
  startswith (lit "SELECT") (upper_s s).
Proof. exact (startswith_ci_upper (lit "SELECT") s). Qed.

Lemma draft_generate_sql_verdict chat (q raw : str) :
  chat (DraftOrchestrator.build_prompt q) = Response raw ->
  (DraftOrchestrator.generate_sql chat q = None <->
   draft_rejected (Draft.clean_sql raw)) /\
  (DraftOrchestrator.generate_sql chat q = Some (Draft.clean_sql raw) <->
   ~ draft_rejected (Draft.clean_sql raw)).
Proof.
  intros H. unfold DraftOrchestrator.generate_sql, draft_rejected.
  rewrite H. cbv zeta. set (sql := Draft.clean_sql raw).
  rewrite <- draft_words_iff, <- draft_start_iff.
  destruct (startswith (lit "select") (lower_s sql)); cbn [negb];
    [destruct (any_in DraftOrchestrator.forbidden (lower_s sql))|];
    intuition (try discriminate; try congruence; auto).
Qed.

(** C2.  On ASCII text the validator [valid_sql] answers false exactly on
    the empty string, on the strings whose trimmed upper-case form does not
    start with SELECT and on the strings in which UPDATE, DELETE, INSERT,
    DROP, ALTER, TRUNCATE or two dashes occur anywhere, whatever the case of
    the letters; on every other string it answers true.  The validation
    written inside the earlier [generate_sql] is another one: it turns the
    cleaned answer down exactly when it does not start with SELECT, in some
    case, or when one of the six words occurs in it; two dashes are not
    among its words. *)
Theorem valid_sql_exactly :
  (forall sql : str,
     is_ascii sql = true ->
     (valid_sql sql = false <-> rejected sql) /\
     (valid_sql sql = true <-> ~ rejected sql)) /\
  (forall chat (q raw : str),
     is_ascii raw = true ->
     chat (DraftOrchestrator.build_prompt q) = Response raw ->
     (DraftOrchestrator.generate_sql chat q = None <->
      draft_rejected (Draft.clean_sql raw)) /\
     (DraftOrchestrator.generate_sql chat q = Some (Draft.clean_sql raw) <->
      ~ draft_rejected (Draft.clean_sql raw))).
Proof.
  split.
  - intros sql _. split; [apply valid_sql_false | apply valid_sql_true].
  - intros chat q raw _. apply draft_generate_sql_verdict.
Qed.

Lemma valid_sql_exactly_witness :
  valid_sql (lit "SELECT name FROM t WHERE note = 'drop it'") = false /\
  DraftOrchestrator.generate_sql
    (fun _ => Response (lit "SELECT name FROM t WHERE note = 'drop it'"))
    (lit "notes") = None.
Proof.
  destruct valid_sql_exactly as [H1 H2]. split.
  - apply (proj1 (H1 (lit "SELECT name FROM t WHERE note = 'drop it'")
                     eq_refl)).
    right. right. exists (lit "DROP"). split; [cbv; auto 10|].
    exists (lit "SELECT name FROM t WHERE note = '"), (lit "drop"),
           (lit " it'").
    split; reflexivity.
  - apply (proj1 (H2 (fun _ => Response
                        (lit "SELECT name FROM t WHERE note = 'drop it'"))
                     (lit "notes")
                     (lit "SELECT name FROM t WHERE note = 'drop it'")
                     eq_refl eq_refl)).
    right. exists (lit "DROP"). split; [cbv; auto 10|].
    split; [discriminate|].
    exists (lit "SELECT name FROM t WHERE note = '"), (lit "drop"),
           (lit " it'").
    split; reflexivity.
Defined.

(** C2, as the claim words it, fails for the validation of the earlier
    [generate_sql]: a statement with two dashes is among the strings to
    reject, and [valid_sql] rejects it, but that validation lets it
    through. *)
Lemma draft_validation_passes_dashes :
  let s := lit "SELECT a FROM t -- all" in
  rejected s /\
  valid_sql s = false /\
  ~ draft_rejected s /\
  DraftOrchestrator.generate_sql (fun _ => Response s) (lit "list a") =
    Some s.
Proof.
  cbv zeta.
  assert (R : rejected (lit "SELECT a FROM t -- all")).
  { right. right. exists (lit "--"). split; [cbv; auto 10|].
    exists (lit "SELECT a FROM t "), (lit "--"), (lit " all").
    split; reflexivity. }
  split; [exact R|]. split; [now apply valid_sql_false|]. split.
  - intros [H | [t [Ht [Hne O]]]]; [discriminate H|].
    rewrite occurs_ci_contains in O. simpl in Ht.
    repeat (destruct Ht as [<- | Ht];
            [first [now elim Hne | vm_compute in O; discriminate O]|]).
    destruct Ht.
  - vm_compute. reflexivity.
Qed.

(** ** Repair engine: the clauses, one by one *)

Lemma word_not_space (c : ascii) :
  Char.is_word c = true -> Char.is_space c = false.
Proof.
  intros H. destruct (Char.is_space c) eqn:E; trivial.
  apply space_not_word in E. congruence.
Qed.

Lemma upper_s_idempotent (s : str) : upper_s (upper_s s) = upper_s s.
Proof.
  unfold upper_s. rewrite map_map. apply map_ext, upper_upper.
Qed.

Lemma startswith_ci_keyword (k x : str) :
  startswith_ci (upper_s k) (k ++ x) = true.
Proof.
  rewrite startswith_ci_upper, upper_s_idempotent, upper_s_app.
  apply startswith_prefix. now eexists.
Qed.

Lemma clause_length (kw piece : str) :
  clause kw piece -> exists c p, piece = c :: p.
Proof.
  intros [k [sp [id [-> [_ [Hsp _]]]]]].
  destruct k as [|c k]; [|now exists c, (k ++ sp ++ id)].
  destruct sp as [|c sp]; [congruence|]. now exists c, (sp ++ id).
Qed.

(** Where a clause starts the pattern matches. *)
Lemma clause_starts_match (kw s : str) :
  clause_starts kw s -> match_clause kw s <> None.
Proof.
  intros [piece [rest [-> [k [sp [id [-> [<- [Hsp [Hs [Hid Hw]]]]]]]]]]].
  unfold match_clause. rewrite <- !app_assoc, startswith_ci_keyword.
  replace (List.length (upper_s k)) with (List.length k)
    by (unfold upper_s; now rewrite length_map).
  rewrite (skipn_app_exact k _ _ eq_refl).
  destruct id as [|i0 id']; [congruence|].
  cbn [forallb] in Hw. apply andb_true_iff in Hw as [Hi0 Hw'].
  assert (S1 : span Char.is_space (sp ++ (i0 :: id') ++ rest) =
               List.length sp).
  { apply span_app_stop; [exact Hs|]. right.
    exists i0, (id' ++ rest). split; [reflexivity|].
    now apply word_not_space. }
  rewrite S1, (skipn_app_exact sp _ _ eq_refl).
  destruct sp as [|s0 sp']; [congruence|].
  cbn [app span List.length]. rewrite Hi0. discriminate.
Qed.

(** A clause whose identifier is taken whole is what the pattern
    matches. *)
Lemma clause_match (kw piece rest : str) :
  clause kw piece -> ends_identifier rest ->
  match_clause kw (piece ++ rest) = Some (List.length piece).
Proof.
  intros [k [sp [id [-> [<- [Hsp [Hs [Hid Hw]]]]]]]] He.
  unfold match_clause. rewrite <- !app_assoc, startswith_ci_keyword.
  replace (List.length (upper_s k)) with (List.length k)
    by (unfold upper_s; now rewrite length_map).
  rewrite (skipn_app_exact k _ _ eq_refl).
  destruct id as [|i0 id']; [congruence|].
  assert (Hi0 : Char.is_word i0 = true).
  { cbn [forallb] in Hw. now apply andb_true_iff in Hw as [Hi0 _]. }
  assert (S1 : span Char.is_space (sp ++ (i0 :: id') ++ rest) =
               List.length sp).
  { apply span_app_stop; [exact Hs|]. right.
    exists i0, (id' ++ rest). split; [reflexivity|].
    now apply word_not_space. }
  rewrite S1, (skipn_app_exact sp _ _ eq_refl).
  assert (S2 : span Char.is_word ((i0 :: id') ++ rest) =
               List.length (i0 :: id')).
  { apply span_app_stop; [exact Hw|].
    destruct rest as [|d y]; [now left|]. right. now exists d, y. }
  rewrite S2.
  destruct sp as [|s0 sp']; [congruence|].
  cbn [List.length Nat.ltb Nat.leb andb].
  rewrite !length_app. cbn [List.length]. f_equal. lia.
Qed.

(** What the pattern matches is a clause whose identifier is taken
    whole. *)
Lemma match_clause_clause (kw s : str) (n : nat) :
  upper_s kw = kw ->
  match_clause kw s = Some n ->
  exists piece rest,
    s = piece ++ rest /\ clause kw piece /\ ends_identifier rest /\
    n = List.length piece.
Proof.
  intros Hkw. unfold match_clause.
  destruct (startswith_ci kw s) eqn:E; [|discriminate].
  destruct (startswith_ci_split _ _ E) as [h [t [-> [Hl Hlow]]]].
  rewrite <- Hl, (skipn_app_exact h t _ eq_refl).
  set (n1 := span Char.is_space t).
  set (n2 := span Char.is_word (skipn n1 t)).
  destruct (0 <? n1) eqn:E1; [|discriminate].
  destruct (0 <? n2) eqn:E2; [|discriminate].
  apply Nat.ltb_lt in E1, E2. cbn [andb]. intros [= <-].
  pose proof (span_le Char.is_space t) as L1. fold n1 in L1.
  pose proof (span_le Char.is_word (skipn n1 t)) as L2. fold n2 in L2.
  exists (h ++ firstn n1 t ++ firstn n2 (skipn n1 t)),
         (skipn n2 (skipn n1 t)).
  split; [|split; [|split]].
  - rewrite <- !app_assoc. now rewrite !firstn_skipn.
  - exists h, (firstn n1 t), (firstn n2 (skipn n1 t)).
    split; [reflexivity|]. split.
    { rewrite <- Hkw, <- upper_s_of_lower, Hlow. apply upper_s_of_lower. }
    split.
    { intros H0. apply (f_equal (@List.length ascii)) in H0.
      rewrite firstn_length_le in H0 by exact L1. simpl in H0. lia. }
    split; [apply span_firstn|]. split; [|apply span_firstn].
    intros H0. apply (f_equal (@List.length ascii)) in H0.
    rewrite firstn_length_le in H0 by exact L2. simpl in H0. lia.
  - unfold ends_identifier, n2.
    destruct (span_skipn Char.is_word (skipn n1 t)) as [-> | [d [y [-> Hd]]]];
      [exact I | exact Hd].
  - rewrite !length_app, !firstn_length_le by assumption. lia.
Qed.

(** The substitution of a clause pattern is the rewriting of every
    clause, and the rewriting has no other result. *)
Lemma rewritten_iff (kw r s out : str) :
  upper_s kw = kw ->
  rewritten kw r s out <-> out = re_sub (match_clause kw) r s.
Proof.
  intros Hkw. split.
  - intros H. induction H as [|c s out Hn _ IH|piece rest out Hc He _ IH].
    + reflexivity.
    + subst out. rewrite re_sub_miss; [reflexivity|].
      destruct (match_clause kw (c :: s)) as [n|] eqn:M; [|reflexivity].
      exfalso. apply Hn.
      destruct (match_clause_clause kw _ n Hkw M)
        as [piece [rest [E [Hc _]]]].
      now exists piece, rest.
    + subst out. pose proof (clause_match kw piece rest Hc He) as M.
      destruct (clause_length kw piece Hc) as [c [p ->]].
      cbn [app List.length] in *.
      rewrite (re_sub_hit _ _ _ _ _ M).
      now rewrite (skipn_app_exact p rest _ eq_refl).
  - intros ->.
    apply (re_sub_scan (match_clause kw) r (rewritten kw r)).
    + apply match_clause_pos.
    + constructor.
    + intros c s0 M H. constructor; [|exact H].
      intros Hs. now apply clause_starts_match in Hs.
    + intros c s0 n M H.
      destruct (match_clause_clause kw _ _ Hkw M)
        as [piece [rest [E [Hc [He Hn]]]]].
      destruct (clause_length kw piece Hc) as [c' [p Ep]]. subst piece.
      cbn [app List.length] in *. injection E as <- ->. injection Hn as ->.
      rewrite (skipn_app_exact p rest _ eq_refl) in *.
      change (c :: p ++ rest) with ((c :: p) ++ rest).
      now constructor.
Qed.

(** C6, as the program has it.  The column step rewrites every WHERE
    clause of an ASCII statement, not the first one only: read from the
    left, each [WHERE], whitespace and identifier, the identifier taken
    whole, is replaced by [WHERE TicketStatus], every other character is
    kept, and nothing else can come of the step.  The table step does the
    same with [FROM ticketdetails] for every FROM clause, so that the
    column is not the only identifier that is corrected; the repair of a
    statement is made of these two rewritings, the table first, followed by
    the steps on the literals, the cap and the terminator.  Once the steps
    have run, wherever the pattern of a clause matches, the text it
    matches is the canonical one. *)
Theorem repair_rewrites_every_clause :
  (forall s out : str,
     is_ascii s = true ->
     (rewritten (lit "WHERE") WHERE_STATUS s out <-> out = fix_where s)) /\
  (forall s out : str,
     is_ascii s = true ->
     (rewritten (lit "FROM") FROM_TABLE s out <-> out = fix_table s)) /\
  (forall sql : str,
     is_ascii sql = true -> sql <> [] ->
     exists t1 t2,
       rewritten (lit "FROM") FROM_TABLE sql t1 /\
       rewritten (lit "WHERE") WHERE_STATUS t1 t2 /\
       repair_sql sql = ensure_semicolon (ensure_limit (fix_status t2)) /\
       canonical (match_clause (lit "FROM")) FROM_TABLE t1 /\
       canonical (match_clause (lit "WHERE")) WHERE_STATUS t2).
Proof.
  split; [|split].
  - intros s out _. now apply rewritten_iff.
  - intros s out _. now apply rewritten_iff.
  - intros sql _ Hne.
    exists (fix_table sql), (fix_where (fix_table sql)).
    split; [now apply rewritten_iff|].
    split; [now apply rewritten_iff|].
    split; [destruct sql; [congruence | reflexivity]|].
    split; [apply fix_table_canonical | apply fix_where_canonical].
Qed.

Lemma repair_rewrites_every_clause_witness :
  rewritten (lit "WHERE") WHERE_STATUS
    (lit "SELECT a FROM t WHERE x = 1 AND b IN (SELECT b FROM u WHERE z = 2)")
    (lit "SELECT a FROM t WHERE TicketStatus = 1 AND b IN (SELECT b FROM u WHERE TicketStatus = 2)").
Proof.
  destruct repair_rewrites_every_clause as [H _].
  apply (proj2 (H
    (lit "SELECT a FROM t WHERE x = 1 AND b IN (SELECT b FROM u WHERE z = 2)")
    (lit "SELECT a FROM t WHERE TicketStatus = 1 AND b IN (SELECT b FROM u WHERE TicketStatus = 2)")
    eq_refl)).
  vm_compute. reflexivity.
Defined.

(** ** Intent shortcuts: which questions they recognise *)

Lemma mentions_iff (kw : string) (q : str) :
  mentions kw q <-> contains (lit kw) (lower_s q) = true.
Proof. unfold mentions. now rewrite contains_infix. Qed.

Lemma pending_count_iff (q : str) :
  pending_count q <->
  (contains (lit "pending") (lower_s q) ||
   contains (lit "belum tutup") (lower_s q)) &&
  any_in (map lit ["how many"; "berapa"; "count"; "jumlah"]%string)
         (lower_s q) = true.
Proof.
  unfold pending_count, any_in. cbn [map existsb].
  rewrite !mentions_iff, andb_true_iff, !orb_true_iff. intuition discriminate.
Qed.

Lemma open_list_iff (q : str) :
  open_list q <->
  any_in (map lit ["open"; "belum tutup"; "masih buka"]%string) (lower_s q)
    = true.
Proof.
  unfold open_list, any_in. cbn [map existsb].
  rewrite !mentions_iff, !orb_true_iff. intuition discriminate.
Qed.

Lemma latest_list_iff (q : str) :
  latest_list q <->
  any_in (map lit ["latest"; "terkini"; "baru"]%string) (lower_s q) = true.
Proof.
  unfold latest_list, any_in. cbn [map existsb].
  rewrite !mentions_iff, !orb_true_iff. intuition discriminate.
Qed.

Lemma new_case_list_iff (q : str) :
  new_case_list q <->
  any_in (map lit ["new case"; "new cases"; "kes baru"]%string) (lower_s q)
    = true.
Proof.
  unfold new_case_list, any_in. cbn [map existsb].
  rewrite !mentions_iff, !orb_true_iff. intuition discriminate.
Qed.

(** *** The incident pattern *)

Lemma digit_not_dash (c : ascii) :
  Char.is_digit c = true -> Ascii.eqb c "-" = false.
Proof. each_char c. Qed.

Lemma span_digits (s : str) :
  span Char.is_digit s = 0 \/
  exists g b,
    s = g ++ b /\ firstn (span Char.is_digit s) s = g /\
    g <> [] /\ forallb Char.is_digit g = true /\
    match b with
    | d :: _ => Char.is_digit d = false
    | [] => True
    end.
Proof.
  destruct (span Char.is_digit s) as [|n] eqn:E; [now left|]. right.
  exists (firstn (span Char.is_digit s) s), (skipn (span Char.is_digit s) s).
  split; [now rewrite firstn_skipn|]. split; [now rewrite E|].
  split.
  - intros H. apply (f_equal (@List.length ascii)) in H.
    rewrite firstn_length_le in H by apply span_le. simpl in H. lia.
  - split; [apply span_firstn|].
    destruct (span_skipn Char.is_digit s) as [-> | [d [y [-> Hd]]]];
      [exact I | exact Hd].
Qed.

Lemma span_digits_run (num b : str) :
  forallb Char.is_digit num = true ->
  match b with
  | d :: _ => Char.is_digit d = false
  | [] => True
  end ->
  span Char.is_digit (num ++ b) = List.length num.
Proof.
  intros Hd Hb. apply span_app_stop; [exact Hd|].
  destruct b as [|d y]; [now left|]. right. now exists d, y.
Qed.

(** What the pattern matches at the head of the text. *)
Lemma match_inc_sound (s g : str) :
  match_inc s = Some g ->
  exists sep b,
    s = lit "inc" ++ sep ++ g ++ b /\ separator sep /\
    g <> [] /\ forallb Char.is_digit g = true /\
    match b with
    | d :: _ => Char.is_digit d = false
    | [] => True
    end.
Proof.
  unfold match_inc. destruct (startswith (lit "inc") s) eqn:E; [|discriminate].
  apply startswith_prefix in E as [s1 ->].
  change (skipn 3 (lit "inc" ++ s1)) with s1. cbv zeta.
  assert (K : forall sep s2,
            s1 = sep ++ s2 -> separator sep ->
            (if 0 <? span Char.is_digit s2
             then Some (firstn (span Char.is_digit s2) s2) else None)
              = Some g ->
            exists sep b,
              lit "inc" ++ s1 = lit "inc" ++ sep ++ g ++ b /\ separator sep /\
              g <> [] /\ forallb Char.is_digit g = true /\
              match b with
              | d :: _ => Char.is_digit d = false
              | [] => True
              end).
  { intros sep s2 -> Hsep H.
    destruct (span_digits s2) as [Z | [g' [b [E2 [F [Hn [Hd Hb]]]]]]].
    - rewrite Z in H. discriminate.
    - destruct (0 <? span Char.is_digit s2); [|discriminate].
      rewrite F in H. injection H as <-.
      exists sep, b. rewrite E2 at 1. repeat split; trivial. }
  destruct s1 as [|c s1'].
  - apply (K [] []); [reflexivity | now left].
  - destruct (Ascii.eqb c "-" || Char.is_space c) eqn:C.
    + apply (K [c] s1'); [reflexivity|].
      apply orb_true_iff in C as [C | C].
      * apply Ascii.eqb_eq in C. subst c. right. now left.
      * right. right. now exists c.
    + apply (K [] (c :: s1')); [reflexivity | now left].
Qed.

(** Where an incident token stands the pattern matches, and takes the
    digits that follow [inc] and the separator. *)
Lemma match_inc_complete (sep num b : str) :
  separator sep -> num <> [] -> forallb Char.is_digit num = true ->
  exists g,
    match_inc (lit "inc" ++ sep ++ num ++ b) = Some g /\
    (match b with
     | d :: _ => Char.is_digit d = false
     | [] => True
     end -> g = num).
Proof.
  intros Hsep Hn Hd. unfold match_inc.
  rewrite (proj2 (startswith_prefix (lit "inc") _))
    by (now eexists).
  change (skipn 3 (lit "inc" ++ sep ++ num ++ b)) with (sep ++ num ++ b).
  cbv zeta.
  assert (K : exists g,
            (if 0 <? span Char.is_digit (num ++ b)
             then Some (firstn (span Char.is_digit (num ++ b)) (num ++ b))
             else None) = Some g /\
            (match b with
             | d :: _ => Char.is_digit d = false
             | [] => True
             end -> g = num)).
  { assert (P : 0 < span Char.is_digit (num ++ b)).
    { rewrite span_app, Hd. destruct num; [congruence | simpl; lia]. }
    apply Nat.ltb_lt in P. rewrite P. eexists. split; [reflexivity|].
    intros Hb. rewrite (span_digits_run num b Hd Hb).
    now apply firstn_app_exact. }
  destruct num as [|d0 num']; [congruence|].
  assert (D0 : Char.is_digit d0 = true).
  { cbn [forallb] in Hd. now apply andb_true_iff in Hd as [D0 _]. }
  destruct Hsep as [-> | [-> | [c [-> Hc]]]].
  - cbn [app]. rewrite (digit_not_dash d0 D0), (digit_not_space d0 D0).
    exact K.
  - cbn [app]. exact K.
  - cbn [app]. rewrite Hc, orb_true_r. exact K.
Qed.

Lemma search_inc_some (s g : str) :
  search_inc s = Some g ->
  exists a t, s = a ++ t /\ match_inc t = Some g /\
    forall a1 a2, a = a1 ++ a2 -> a2 <> [] -> match_inc (a2 ++ t) = None.
Proof.
  induction s as [|c s IH]; cbn [search_inc].
  - destruct (match_inc []) eqn:M; [|discriminate]. intros [= <-].
    exists [], []. repeat split; trivial.
    intros a1 a2 H. symmetry in H. apply app_eq_nil in H as [_ ->].
    congruence.
  - destruct (match_inc (c :: s)) eqn:M.
    + intros [= <-]. exists [], (c :: s). repeat split; trivial.
      intros a1 a2 H. symmetry in H. apply app_eq_nil in H as [_ ->].
      congruence.
    + intros H. destruct (IH H) as [a [t [-> [Mt Hf]]]].
      exists (c :: a), t. repeat split; trivial.
      intros [|d a1] a2 Ha Hne.
      * cbn [app] in Ha. subst a2. exact M.
      * injection Ha as _ Ha. now apply (Hf a1 a2).
Qed.

Lemma search_inc_at (a t g : str) :
  match_inc t = Some g ->
  (forall a1 a2, a = a1 ++ a2 -> a2 <> [] -> match_inc (a2 ++ t) = None) ->
  search_inc (a ++ t) = Some g.
Proof.
  intros Mt Hf. induction a as [|c a IH]; cbn [app].
  - destruct t; cbn [search_inc]; now rewrite Mt.
  - cbn [search_inc].
    assert (H0 : match_inc (c :: a ++ t) = None)
      by (apply (Hf [] (c :: a) eq_refl); discriminate).
    rewrite H0. apply IH. intros a1 a2 -> Hne. now apply (Hf (c :: a1) a2).
Qed.

Lemma search_inc_exists (a t g : str) :
  match_inc t = Some g -> exists g', search_inc (a ++ t) = Some g'.
Proof.
  intros Mt. induction a as [|c a [g' IH]]; cbn [app].
  - exists g. destruct t; cbn [search_inc]; now rewrite Mt.
  - cbn [search_inc]. destruct (match_inc (c :: a ++ t)) as [g0|];
      [now exists g0 | now exists g'].
Qed.

Lemma app_eq_shorter {A} (a t a' t' : list A) :
  a ++ t = a' ++ t' -> List.length a' < List.length a ->
  exists a2, a = a' ++ a2 /\ a2 <> [] /\ t' = a2 ++ t.
Proof.
  intros E L. apply app_eq_app in E as [l [[-> ->] | [-> ->]]].
  - exists l. repeat split; trivial. intros ->.
    rewrite app_nil_r in L. lia.
  - rewrite length_app in L. lia.
Qed.

(** The number of the lookup is the one the search gives. *)
Lemma incident_number_iff (q num : str) :
  incident_number q num <-> search_inc (lower_s q) = Some num.
Proof.
  split.
  - intros [a [b [[sep [E [Hsep [Hn Hd]]]] [Hb Hleft]]]].
    rewrite E. apply search_inc_at.
    + destruct (match_inc_complete sep num b Hsep Hn Hd) as [g [M Hg]].
      now rewrite M, (Hg Hb).
    + intros a1 a2 -> Hne.
      destruct (match_inc (a2 ++ lit "inc" ++ sep ++ num ++ b)) as [g|] eqn:M;
        [|reflexivity].
      exfalso.
      destruct (match_inc_sound _ _ M) as [sep' [b' [E' [Hs' [Hn' [Hd' _]]]]]].
      assert (I : incident_at q a1 g b').
      { exists sep'. repeat split; trivial.
        now rewrite E, <- app_assoc, E'. }
      specialize (Hleft _ _ _ I). rewrite length_app in Hleft.
      destruct a2; [congruence | simpl in Hleft; lia].
  - intros H. destruct (search_inc_some _ _ H) as [a [t [E [M Hf]]]].
    destruct (match_inc_sound _ _ M) as [sep [b [Et [Hsep [Hn [Hd Hb]]]]]].
    exists a, b. split; [|split; [exact Hb|]].
    + exists sep. repeat split; trivial. now rewrite E, Et.
    + intros a' num' b' [sep' [E' [Hs' [Hn' Hd']]]].
      destruct (Nat.le_gt_cases (List.length a) (List.length a'))
        as [L | L]; [exact L|]. exfalso.
      rewrite E in E'.
      destruct (app_eq_shorter _ _ _ _ E' L) as [a2 [-> [Hne Et']]].
      destruct (match_inc_complete sep' num' b' Hs' Hn' Hd') as [g [Mg _]].
      rewrite Et' in Mg. rewrite (Hf a' a2 eq_refl Hne) in Mg.
      discriminate.
Qed.

Lemma incident_lookup_iff (q : str) :
  incident_lookup q <-> exists num, search_inc (lower_s q) = Some num.
Proof.
  split.
  - intros [a [num [b [sep [E [Hsep [Hn Hd]]]]]]].
    destruct (match_inc_complete sep num b Hsep Hn Hd) as [g [M _]].
    rewrite E. now apply (search_inc_exists a _ g).
  - intros [num H]. apply incident_number_iff in H as [a [b [I _]]].
    now exists a, num, b.
Qed.

(** *** The shortcut that applies *)

Lemma fast_intent_spec (q sql : str) :
  fast_intent q = Some sql <-> shortcut_for q sql.
Proof.
  unfold fast_intent, shortcut_for. cbv zeta.
  pose proof (pending_count_iff q) as P1.
  pose proof (open_list_iff q) as P2.
  pose proof (latest_list_iff q) as P3.
  pose proof (new_case_list_iff q) as P4.
  destruct ((contains (lit "pending") (lower_s q) ||
             contains (lit "belum tutup") (lower_s q)) &&
            any_in (map lit ["how many"; "berapa"; "count"; "jumlah"]%string)
                   (lower_s q)).
  { split; [intros [= <-]; left; split; [now apply P1 | reflexivity]|].
    intros [[_ ->] | [[N _] | [[N _] | [[N _] | [N _]]]]]; trivial;
      exfalso; apply N; now apply P1. }
  assert (N1 : ~ pending_count q) by (rewrite P1; discriminate). clear P1.
  destruct (any_in (map lit ["open"; "belum tutup"; "masih buka"]%string)
                   (lower_s q)).
  { split; [intros [= <-]; right; left; repeat split; trivial; now apply P2|].
    intros [[H _] | [[_ [_ ->]] | [[_ [N _]] | [[_ [N _]] | [_ [N _]]]]]];
      trivial; try contradiction; exfalso; apply N; now apply P2. }
  assert (N2 : ~ open_list q) by (rewrite P2; discriminate). clear P2.
  destruct (any_in (map lit ["latest"; "terkini"; "baru"]%string)
                   (lower_s q)).
  { split; [intros [= <-]; right; right; left; repeat split; trivial;
            now apply P3|].
    intros [[H _] | [[_ [H _]] | [[_ [_ [_ ->]]] | [[_ [_ [N _]]]
                                                   | [_ [_ [N _]]]]]]];
      trivial; try contradiction; exfalso; apply N; now apply P3. }
  assert (N3 : ~ latest_list q) by (rewrite P3; discriminate). clear P3.
  destruct (any_in (map lit ["new case"; "new cases"; "kes baru"]%string)
                   (lower_s q)).
  { split; [intros [= <-]; right; right; right; left; repeat split; trivial;
            now apply P4|].
    intros [[H _] | [[_ [H _]] | [[_ [_ [H _]]] | [[_ [_ [_ [_ ->]]]]
                                                  | [_ [_ [_ [N _]]]]]]]];
      trivial; try contradiction; exfalso; apply N; now apply P4. }
  assert (N4 : ~ new_case_list q) by (rewrite P4; discriminate). clear P4.
  split.
  - destruct (search_inc (lower_s q)) as [num|] eqn:S; [|discriminate].
    intros [= <-]. do 4 right. repeat split; trivial.
    exists num. split; [now apply incident_number_iff | reflexivity].
  - intros [[H _] | [[_ [H _]] | [[_ [_ [H _]]] | [[_ [_ [_ [H _]]]]
                                                  | [_ [_ [_ [_ H]]]]]]]];
      try contradiction.
    destruct H as [num [H ->]]. apply incident_number_iff in H.
    now rewrite H.
Qed.

Lemma shortcut_for_pattern (q sql : str) :
  shortcut_for q sql -> shortcut_pattern q.
Proof.
  unfold shortcut_pattern.
  intros [[H _] | [[_ [H _]] | [[_ [_ [H _]]] | [[_ [_ [_ [H _]]]]
                                                | [_ [_ [_ [_ H]]]]]]]];
    auto 6.
  destruct H as [num [[a [b [I _]]] _]]. do 4 right. now exists a, num, b.
Qed.

Lemma fast_intent_recognises (q : str) :
  shortcut_pattern q -> exists sql, fast_intent q = Some sql.
Proof.
  intros H. destruct (fast_intent q) as [sql|] eqn:F; [now exists sql|].
  exfalso. revert F. unfold fast_intent. cbv zeta.
  pose proof (pending_count_iff q) as P1.
  pose proof (open_list_iff q) as P2.
  pose proof (latest_list_iff q) as P3.
  pose proof (new_case_list_iff q) as P4.
  pose proof (incident_lookup_iff q) as P5.
  destruct (_ && _); [discriminate|].
  destruct (any_in _ _); [discriminate|].
  destruct (any_in _ _); [discriminate|].
  destruct (any_in _ _); [discriminate|].
  destruct (search_inc (lower_s q)) as [num|]; [discriminate|]. intros _.
  destruct H as [H | [H | [H | [H | H]]]].
  - apply P1 in H. discriminate.
  - apply P2 in H. discriminate.
  - apply P3 in H. discriminate.
  - apply P4 in H. discriminate.
  - apply P5 in H as [num H]. discriminate.
Qed.

Lemma shortcut_for_template (q sql : str) :
  shortcut_for q sql ->
  sql = sql_pending \/ sql = sql_open \/ sql = sql_latest \/ sql = sql_new \/
  exists num, sql = sql_incident num.
Proof.
  intros [[_ ->] | [[_ [_ ->]] | [[_ [_ [_ ->]]] | [[_ [_ [_ [_ ->]]]]
                                                   | [_ [_ [_ [_ H]]]]]]]];
    auto 6.
  destruct H as [num [_ ->]]. do 4 right. now exists num.
Qed.

(** C4.  A question in which one of the five intents is found gets the
    statement of a shortcut whatever the generation service would reply
    and whatever was asked before, and the count of requests sent to the
    service stays as it was.  For an ASCII question the statement is that
    of the first intent found, in the order pending count, open list,
    latest list, new-case list, incident lookup, the lookup carrying the
    digits of the first incident token; the shortcuts return nothing else,
    and nothing for a question in which no intent is found.  For the
    question about pending tickets the statement is the pending count. *)
Theorem shortcut_bypasses_service
        (service1 service2 : nat -> str -> reply) (before1 before2 : list str)
        (q : str) :
  let st1 := snd (session service1 initial before1) in
  let st2 := snd (session service2 initial before2) in
  (shortcut_pattern q ->
   exists sql,
     (sql = sql_pending \/ sql = sql_open \/ sql = sql_latest \/
      sql = sql_new \/ exists num, sql = sql_incident num) /\
     (is_ascii q = true -> shortcut_for q sql) /\
     fst (generate_sql service1 st1 q) = Some sql /\
     fst (generate_sql service2 st2 q) = Some sql /\
     requests (snd (generate_sql service1 st1 q)) = requests st1 /\
     requests (snd (generate_sql service2 st2 q)) = requests st2) /\
  (is_ascii q = true ->
   (forall sql, fast_intent q = Some sql <-> shortcut_for q sql) /\
   (fast_intent q = None <-> ~ shortcut_pattern q)) /\
  fast_intent (lit "how many pending tickets") =
    Some (lit "SELECT COUNT(*) AS total_pending FROM ticketdetails WHERE TicketStatus='Pending';").
Proof.
  intros st1 st2. split; [|split].
  - intros H. destruct (fast_intent_recognises q H) as [sql F].
    exists sql.
    split; [apply (shortcut_for_template q); now apply fast_intent_spec|].
    split; [intros _; now apply fast_intent_spec|].
    assert (H1 : cache_sound service1 (cache st1))
      by apply session_sound, initial_sound.
    assert (H2 : cache_sound service2 (cache st2))
      by apply session_sound, initial_sound.
    destruct (generate_sql_fast service1 st1 q sql H1 F) as [A1 B1].
    destruct (generate_sql_fast service2 st2 q sql H2 F) as [A2 B2].
    repeat split; trivial.
  - intros _. split; [intros sql; apply fast_intent_spec|]. split.
    + intros F H. destruct (fast_intent_recognises q H) as [sql F'].
      congruence.
    + intros N. destruct (fast_intent q) as [sql|] eqn:F; [|reflexivity].
      exfalso. apply N. apply (shortcut_for_pattern q sql).
      now apply fast_intent_spec.
  - reflexivity.
Qed.

Lemma shortcut_bypasses_service_witness :
  fst (generate_sql (fun _ _ => Failure)
         (snd (session (fun _ _ => Failure) initial [lit "zzz"]))
         (lit "Status of INC-002 please")) =
    Some (lit "SELECT TicketStatus FROM ticketdetails WHERE IncidentID='002';") /\
  fst (generate_sql (fun _ _ => Response (lit "SELECT 1;"))
         (snd (session (fun _ _ => Response (lit "SELECT 1;")) initial []))
         (lit "Status of INC-002 please")) =
    Some (lit "SELECT TicketStatus FROM ticketdetails WHERE IncidentID='002';").
Proof.
  destruct (shortcut_bypasses_service
              (fun _ _ => Failure) (fun _ _ => Response (lit "SELECT 1;"))
              [lit "zzz"] []
              (lit "Status of INC-002 please")) as [H [S _]].
  cbv zeta in H.
  assert (P : shortcut_pattern (lit "Status of INC-002 please")).
  { do 4 right. exists (lit "status of "), (lit "002"), (lit " please").
    exists (lit "-"). repeat split; try reflexivity.
    - right. now left.
    - discriminate. }
  destruct (H P) as [sql [_ [S' [A1 [A2 _]]]]].
  assert (F : fast_intent (lit "Status of INC-002 please") =
              Some (lit "SELECT TicketStatus FROM ticketdetails WHERE IncidentID='002';"))
    by (vm_compute; reflexivity).
  assert (E : fast_intent (lit "Status of INC-002 please") = Some sql).
  { apply (proj1 (S eq_refl)). now apply S'. }
  rewrite F in E. injection E as <-. split; assumption.
Defined.
